(** * Resumable object-graph serialization: the shared serializer of Qwik v2

    A shallow embedding of
    [packages/qwik/src/core/v2/shared/shared-serialization.ts]:
    the tag registry, the serialization context (root table and seen map),
    the graph walker, the scalar and container paths of the encoder, the
    two-phase decoder ([allocate] / [inflate]) and the lazy
    deserialization wrapper ([DeserializationHandler]).

    JavaScript objects live in an explicit heap and are compared by
    address; strings and numbers are compared by content. *)

From Stdlib Require Import ZArith Ascii String List Lia Bool DecimalString DecimalPos.
From stdpp Require Import base decidable countable gmap strings list.

Local Open Scope Z_scope.

(** ** JavaScript values *)

Module JS.

(** A finite IEEE-754 double is a dyadic rational [mantissa * 2^exponent]. *)
Record finite := Dyadic { mantissa : Z; exponent : Z }.

Inductive number :=
| NaN
| Infinity
| NegInfinity
| Finite (x : finite).

Definition Int (z : Z) : number := Finite (Dyadic z 0).

(** Heap addresses stand for object identity. *)
Abbreviation addr := nat (only parsing).

Inductive value :=
| VUndefined
| VNull
| VBool (b : bool)
| VNumber (n : number)
| VBigInt (z : Z)
| VString (s : string)
| VObject (a : addr)
| VFunction (a : addr).

Inductive jstype :=
| TUndefined | TObject | TBoolean | TNumber | TBigint | TString | TFunction.

Definition typeof (v : value) : jstype :=
  match v with
  | VUndefined => TUndefined
  | VNull | VObject _ => TObject
  | VBool _ => TBoolean
  | VNumber _ => TNumber
  | VBigInt _ => TBigint
  | VString _ => TString
  | VFunction _ => TFunction
  end.

#[global] Instance finite_eq_dec : EqDecision finite.
Proof. solve_decision. Defined.
#[global] Instance number_eq_dec : EqDecision number.
Proof. solve_decision. Defined.
#[global] Instance jstype_eq_dec : EqDecision jstype.
Proof. solve_decision. Defined.
#[global] Instance value_eq_dec : EqDecision value.
Proof. solve_decision. Defined.

#[global] Instance finite_countable : Countable finite.
Proof.
  refine (inj_countable' (fun f => (mantissa f, exponent f))
                         (fun p => Dyadic p.1 p.2) _).
  by intros [].
Defined.

#[global] Instance number_countable : Countable number.
Proof.
  refine (inj_countable'
    (fun n => match n with
              | NaN => inl (inl tt) | Infinity => inl (inr tt)
              | NegInfinity => inr (inl tt) | Finite x => inr (inr x)
              end)
    (fun s => match s with
              | inl (inl _) => NaN | inl (inr _) => Infinity
              | inr (inl _) => NegInfinity | inr (inr x) => Finite x
              end) _).
  by intros [].
Defined.

#[global] Instance value_countable : Countable value.
Proof.
  refine (inj_countable'
    (fun v => match v with
              | VUndefined => inl (inl (inl tt))
              | VNull => inl (inl (inr tt))
              | VBool b => inl (inr (inl b))
              | VNumber n => inl (inr (inr n))
              | VBigInt z => inr (inl (inl z))
              | VString s => inr (inl (inr s))
              | VObject a => inr (inr (inl a))
              | VFunction a => inr (inr (inr a))
              end)
    (fun s => match s with
              | inl (inl (inl _)) => VUndefined
              | inl (inl (inr _)) => VNull
              | inl (inr (inl b)) => VBool b
              | inl (inr (inr n)) => VNumber n
              | inr (inl (inl z)) => VBigInt z
              | inr (inl (inr s)) => VString s
              | inr (inr (inl a)) => VObject a
              | inr (inr (inr a)) => VFunction a
              end) _).
  by intros [].
Defined.

(** [Number.MIN_SAFE_INTEGER] *)
Definition MIN_SAFE_INTEGER : Z := - (2 ^ 53 - 1).

(** *** String primitives used by the serializer *)

(** [s.charCodeAt(i)]; [None] is [NaN] (index out of range). *)
Definition charCodeAt (s : string) (i : nat) : option Z :=
  match String.get i s with
  | Some c => Some (Z.of_N (N_of_ascii c))
  | None => None
  end.

Definition strlen (s : string) : Z := Z.of_nat (String.length s).

Definition clamp (s : string) (i : Z) : nat :=
  Z.to_nat (Z.max 0 (Z.min i (strlen s))).

(** [s.substring(a, b)]: both ends are clamped and swapped when needed. *)
Definition substring (s : string) (a b : Z) : string :=
  let a' := clamp s a in
  let b' := clamp s b in
  String.substring (Nat.min a' b') (Nat.max a' b' - Nat.min a' b') s.

(** [s.substring(a)] *)
Definition substring_from (s : string) (a : Z) : string :=
  substring s a (strlen s).

(** The outcome of a call: a value, a JavaScript exception with its
    message, or [OutOfFuel] when the bound on nested calls that makes the
    model total is exhausted. *)
Inductive result (A : Type) :=
| Ok (a : A)
| Throw (msg : string)
| OutOfFuel.
Arguments Ok {A} a.
Arguments Throw {A} msg.
Arguments OutOfFuel {A}.

Definition bind {A B} (r : result A) (k : A -> result B) : result B :=
  match r with
  | Ok a => k a
  | Throw m => Throw m
  | OutOfFuel => OutOfFuel
  end.

Notation "x <- m ;; k" := (bind m (fun x => k))
  (at level 20, m at level 99, k at level 200, only parsing).
Notation "' p <- m ;; k" := (bind m (fun x => match x with p => k end))
  (at level 20, p pattern, m at level 99, k at level 200, only parsing).

End JS.
Export JS.

(** ** Tag registry *)

Module SerializationConstant.
Definition UNDEFINED_VALUE : Z := 0x0.
Definition REFERENCE_VALUE : Z := 0x1.
Definition URL_VALUE : Z := 0x2.
Definition Date_VALUE : Z := 0x3.
Definition Regex_VALUE : Z := 0x4.
Definition String_VALUE : Z := 0x5.
Definition VNode_VALUE : Z := 0x6.
Definition NotFinite_VALUE : Z := 0x7.
Definition BigInt_VALUE : Z := 0x8.
Definition UNUSED_HORIZONTAL_TAB_VALUE : Z := 0x9.
Definition UNUSED_NEW_LINE_VALUE : Z := 0xa.
Definition UNUSED_VERTICAL_TAB_VALUE : Z := 0xb.
Definition UNUSED_FORM_FEED_VALUE : Z := 0xc.
Definition UNUSED_CARRIAGE_RETURN_VALUE : Z := 0xd.
Definition URLSearchParams_VALUE : Z := 0xe.
(** All values below need inflation. *)
Definition Error_VALUE : Z := 0xf.
Definition QRL_VALUE : Z := 0x10.
Definition Task_VALUE : Z := 0x11.
Definition Resource_VALUE : Z := 0x12.
Definition Component_VALUE : Z := 0x13.
Definition DerivedSignal_VALUE : Z := 0x14.
Definition Signal_VALUE : Z := 0x15.
Definition SignalWrapper_VALUE : Z := 0x16.
Definition Store_VALUE : Z := 0x17.
Definition FormData_VALUE : Z := 0x18.
Definition JSXNode_VALUE : Z := 0x19.
Definition Set_VALUE : Z := 0x1a.
Definition Map_VALUE : Z := 0x1b.
Definition Promise_VALUE : Z := 0x1c.
Definition Uint8Array_VALUE : Z := 0x1e.
Definition PropsProxy_VALUE : Z := 0x1f.
(** Can't go past this value. *)
Definition LAST_VALUE : Z := 0x20.

(** The [_CHAR] member of a tag: the one-character string of that code. *)
Definition CHAR (code : Z) : string :=
  String (ascii_of_N (Z.to_N code)) EmptyString.

Definition UNDEFINED_CHAR := CHAR UNDEFINED_VALUE.
Definition REFERENCE_CHAR := CHAR REFERENCE_VALUE.
Definition URL_CHAR := CHAR URL_VALUE.
Definition Date_CHAR := CHAR Date_VALUE.
Definition Regex_CHAR := CHAR Regex_VALUE.
Definition String_CHAR := CHAR String_VALUE.
Definition VNode_CHAR := CHAR VNode_VALUE.
Definition NotFinite_CHAR := CHAR NotFinite_VALUE.
Definition BigInt_CHAR := CHAR BigInt_VALUE.
Definition URLSearchParams_CHAR := CHAR URLSearchParams_VALUE.
Definition Error_CHAR := CHAR Error_VALUE.
Definition QRL_CHAR := CHAR QRL_VALUE.
Definition Task_CHAR := CHAR Task_VALUE.
Definition Resource_CHAR := CHAR Resource_VALUE.
Definition Component_CHAR := CHAR Component_VALUE.
Definition DerivedSignal_CHAR := CHAR DerivedSignal_VALUE.
Definition Signal_CHAR := CHAR Signal_VALUE.
Definition SignalWrapper_CHAR := CHAR SignalWrapper_VALUE.
Definition Store_CHAR := CHAR Store_VALUE.
Definition FormData_CHAR := CHAR FormData_VALUE.
Definition JSXNode_CHAR := CHAR JSXNode_VALUE.
Definition Set_CHAR := CHAR Set_VALUE.
Definition Map_CHAR := CHAR Map_VALUE.
Definition Promise_CHAR := CHAR Promise_VALUE.
Definition Uint8Array_CHAR := CHAR Uint8Array_VALUE.
Definition PropsProxy_CHAR := CHAR PropsProxy_VALUE.
End SerializationConstant.
Module SC := SerializationConstant.

(** ** Serialization context: the root table and the seen map

    [createSerializationContext] closes over a [Map<any, number>] from
    object to root index and over the ordered root list. *)

Record SerializationContext := mkContext {
  map : gmap value Z;
  roots : list value;
}.

Definition createSerializationContext : SerializationContext :=
  {| map := ∅; roots := [] |}.

(** [$wasSeen$ = (obj) => map.get(obj)] *)
Definition wasSeen (ctx : SerializationContext) (obj : value) : option Z :=
  map ctx !! obj.

(** [$seen$ = (obj) => map.set(obj, Number.MIN_SAFE_INTEGER)] *)
Definition seen (ctx : SerializationContext) (obj : value) : SerializationContext :=
  {| map := <[obj := MIN_SAFE_INTEGER]> (map ctx); roots := roots ctx |}.

(** [$addRoot$]: an object with no entry, or with the seen-once sentinel,
    takes the next index of the root list. *)
Definition addRoot (ctx : SerializationContext) (obj : value)
  : Z * SerializationContext :=
  let fresh :=
    let id := Z.of_nat (length (roots ctx)) in
    (id, {| map := <[obj := id]> (map ctx); roots := roots ctx ++ [obj] |}) in
  match map ctx !! obj with
  | None => fresh
  | Some id => if decide (id = MIN_SAFE_INTEGER) then fresh else (id, ctx)
  end.

(** [$hasRootId$] *)
Definition hasRootId (ctx : SerializationContext) (obj : value) : option Z :=
  match map ctx !! obj with
  | None => None
  | Some id => if decide (id = MIN_SAFE_INTEGER) then None else Some id
  end.

(** [$getRootId$]: the guard is [!id || id === Number.MIN_SAFE_INTEGER];
    [!id] holds for [undefined] and for the number [0]. *)
Definition getRootId (ctx : SerializationContext) (obj : value) : result Z :=
  match map ctx !! obj with
  | None => Throw "Missing root id for: "
  | Some id =>
      if decide (id = 0) then Throw "Missing root id for: "
      else if decide (id = MIN_SAFE_INTEGER) then Throw "Missing root id for: "
      else Ok id
  end.

(** What can happen to the map and the root list during the lifetime of a
    context: [$addRoot$] from any caller, and the walker's marking
    [$seen$(obj)], which the walker performs only on an object whose
    [$wasSeen$] is [undefined]. *)
Inductive ctx_step : SerializationContext -> SerializationContext -> Prop :=
| step_addRoot ctx obj : ctx_step ctx (addRoot ctx obj).2
| step_seen ctx obj : wasSeen ctx obj = None -> ctx_step ctx (seen ctx obj).

(** The map and the root list agree: an entry other than the sentinel is the
    position of its key in the root list. *)
Definition ctx_inv (ctx : SerializationContext) : Prop :=
  forall obj id, map ctx !! obj = Some id -> id <> MIN_SAFE_INTEGER ->
    0 <= id /\ roots ctx !! Z.to_nat id = Some obj.

(** ** Text primitives of the host language

    The built-ins the serializer calls on strings and integers:
    [indexOf], [lastIndexOf], [split], [String(n)] and [parseInt]. *)

Module Text.
Local Open Scope string_scope.

(** [s.indexOf(needle, from)] *)
Definition indexOf (s needle : string) (from : Z) : Z :=
  match String.index (clamp s from) needle s with
  | Some m => Z.of_nat m
  | None => -1
  end.

Fixpoint lastIndexOf_aux (c : ascii) (s : string) (i : Z) (last : Z) : Z :=
  match s with
  | EmptyString => last
  | String a s' =>
      lastIndexOf_aux c s' (i + 1) (if Ascii.eqb a c then i else last)
  end.

(** [s.lastIndexOf(c)] for a one-character needle *)
Definition lastIndexOf (s : string) (c : ascii) : Z :=
  lastIndexOf_aux c s 0 (-1).

(** [s.split(c)] for a one-character separator *)
Fixpoint split_aux (c : ascii) (s : string) (cur : string) : list string :=
  match s with
  | EmptyString => [cur]
  | String a s' =>
      if Ascii.eqb a c then cur :: split_aux c s' EmptyString
      else split_aux c s' (cur ++ String a EmptyString)
  end.

Definition split (s : string) (c : ascii) : list string :=
  split_aux c s EmptyString.

(** [arr.join(sep)] *)
Fixpoint join (sep : string) (l : list string) : string :=
  match l with
  | [] => EmptyString
  | [x] => x
  | x :: rest => x ++ sep ++ join sep rest
  end.

(** [String(z)] for an integer-valued number: its decimal digits. *)
Definition String_int (z : Z) : string :=
  DecimalString.NilZero.string_of_int (Z.to_int z).

Definition digit_of (c : ascii) : option N :=
  let n := N_of_ascii c in
  if ((48 <=? n) && (n <=? 57))%N then Some (n - 48)%N else None.

Fixpoint parse_digits (s : string) (acc : N) : N :=
  match s with
  | EmptyString => acc
  | String c s' =>
      match digit_of c with
      | Some d => parse_digits s' (acc * 10 + d)%N
      | None => acc
      end
  end.

(** White space and line terminators that [parseInt] skips. *)
Definition is_space (c : ascii) : bool :=
  let n := N_of_ascii c in
  ((9 <=? n) && (n <=? 13) || (n =? 32) || (n =? 160))%N.

Fixpoint skip_space (s : string) : string :=
  match s with
  | String c s' => if is_space c then skip_space s' else s
  | EmptyString => s
  end.

Definition hex_digit_of (c : ascii) : option N :=
  let n := N_of_ascii c in
  if ((48 <=? n) && (n <=? 57))%N then Some (n - 48)%N
  else if ((97 <=? n) && (n <=? 102))%N then Some (n - 87)%N
  else if ((65 <=? n) && (n <=? 70))%N then Some (n - 55)%N
  else None.

Fixpoint parse_hex (s : string) (acc : N) : N :=
  match s with
  | EmptyString => acc
  | String c s' =>
      match hex_digit_of c with
      | Some d => parse_hex s' (acc * 16 + d)%N
      | None => acc
      end
  end.

Definition parse_magnitude (s : string) : option N :=
  match s with
  | String "0" (String x rest) =>
      if Ascii.eqb x "x" || Ascii.eqb x "X" then
        match rest with
        | String h _ =>
            if hex_digit_of h is Some _ then Some (parse_hex rest 0) else None
        | EmptyString => None
        end
      else Some (parse_digits s 0)
  | String c _ => if digit_of c is Some _ then Some (parse_digits s 0) else None
  | EmptyString => None
  end.

(** [parseInt(s)] with no radix argument: leading white space, a sign,
    then the longest run of digits; [NaN] when there is none. *)
Definition parseInt (s : string) : number :=
  let s := skip_space s in
  let '(neg, body) :=
    match s with
    | String "-" r => (true, r)
    | String "+" r => (false, r)
    | _ => (false, s)
    end in
  match parse_magnitude body with
  | Some n => Int (if neg : bool then - Z.of_N n else Z.of_N n)
  | None => NaN
  end.

(** [parseInt] of a value that is already a number or a string. *)
Definition parseInt_value (v : value) : number :=
  match v with
  | VString s => parseInt s
  | VNumber (Finite (Dyadic m 0)) => Int m
  | _ => NaN
  end.
End Text.
Export Text.

(** ** The heap of JavaScript objects

    One constructor per runtime kind the serializer tells apart with
    [instanceof], [Array.isArray], [isSignal], [isJSXNode], [isQrl],
    [isPropsProxy], [isPromise] and [isObjectLiteral]. *)

(** A subscriber tuple [[type, host, signal, ...]]. *)
Definition Subscriber := list value.

Module SubscriptionProp.
(** A [const enum] of [state/common]: positions inside a subscriber. *)
Definition TYPE : nat := 0.
Definition HOST : nat := 1.
Definition SIGNAL : nat := 2.
End SubscriptionProp.

(** A property of an object literal: a data property, or the accessor
    [get() { return derivedSignal.value }] that
    [upgradePropsWithDerivedSignal] installs. *)
Inductive slot :=
| Data (v : value)
| Getter (derivedSignal : value).

#[global] Instance slot_eq_dec : EqDecision slot.
Proof. solve_decision. Defined.

Inductive promise_state :=
| Pending
| Fulfilled (v : value)
| Rejected (reason : value).

Inductive obj :=
| OLiteral (props : list (string * slot)) (const_props : option value)
| OArray (elems : list value)
| OVNode (elems : list value)
| ONode (id : string)
| OURL (href : string)
| ODate (text : string)
| ORegExp (source flags : string)
| OURLSearchParams (text : string)
| OFormData (entries : list (value * value))
| OError (props : list (string * value))
| OUint8Array (bytes : list value)
| OSet (elems : list value) (rootId : option Z)
| OMap (entries : list (value * value)) (rootId : option Z)
| OPromise (state : promise_state) (rootId : option Z)
| OSignalImpl (untrackedValue : value) (manager : option (list Subscriber))
| OSignalDerived (func : value) (args : option (list value)) (funcStr : option string)
| OSignalWrapper (ref : value) (prop : value)
| OTask (flags index : number) (el qrl state : value)
| OQrl (chunk symbol : string) (symbolRef : value)
       (capture : option (list string))
       (captureRef : option (list value)) (container : value)
| OComponent (qrl : value)
| OJSXNode (type props varProps constProps children : value)
           (flags : number) (key : value)
| OPropsProxy (varProps constProps : value)
| OStore (target : value) (flags : Z) (subs : list Subscriber)
| OProxy (target : value)
| OFunction
| OOther.

(** The state shared by the modules of the serializer. *)
Record World := mkWorld {
  heap : list obj;
  (** the module-level [deserializedProxyMap] (a [WeakMap]) *)
  deserializedProxyMap : gmap addr value;
  (** the [WeakSet] behind [fastSkipSerialize] *)
  noSerialize : gset addr;
  (** the container's store-proxy table, read by [getOrCreateProxy] *)
  storeProxyMap : gmap addr value;
  (** ghost: the calls of [inflate], latest first *)
  inflations : list (value * string);
}.

Definition set_heap (w : World) (h : list obj) : World :=
  {| heap := h; deserializedProxyMap := deserializedProxyMap w;
     noSerialize := noSerialize w; storeProxyMap := storeProxyMap w;
     inflations := inflations w |}.

(** [new C(...)]: the new object takes the next address. *)
Definition alloc (w : World) (o : obj) : addr * World :=
  (length (heap w), set_heap w (heap w ++ [o])).

Definition lookup_obj (w : World) (v : value) : option obj :=
  match v with
  | VObject a | VFunction a => heap w !! a
  | _ => None
  end.

(** Assignment to the fields of the object at [a]. *)
Definition update_obj (w : World) (a : addr) (o : obj) : World :=
  set_heap w (<[a := o]> (heap w)).

(** *** Kind tests *)

(** [fastSkipSerialize(obj)]: membership in the no-serialize set. *)
Definition fastSkipSerialize (w : World) (v : value) : bool :=
  match v with
  | VObject a | VFunction a => bool_decide (a ∈ noSerialize w)
  | _ => false
  end.

(** [getProxyTarget(obj)]: the target of a reactive-store proxy. *)
Definition getProxyTarget (w : World) (v : value) : option value :=
  match lookup_obj w v with
  | Some (OStore t _ _) => Some t
  | _ => None
  end.

(** [unwrapProxy(obj)] *)
Definition unwrapProxy (w : World) (v : value) : value :=
  match getProxyTarget w v with
  | Some t => t
  | None => v
  end.

Definition isStore (w : World) (v : value) : bool :=
  bool_decide (is_Some (getProxyTarget w v)).

(** [getSubscriptionManager(obj)?.$subs$] *)
Definition getSubscriptionManager (w : World) (v : value)
  : option (list Subscriber) :=
  match lookup_obj w v with
  | Some (OStore _ _ subs) => Some subs
  | Some (OSignalImpl _ m) => m
  | _ => None
  end.

Definition is_object (v : value) : bool :=
  match v with VObject _ => true | _ => false end.

(** [isObjectLiteral(obj)]: the prototype is [null], [Object.prototype] or
    [Array.prototype]; a proxy has the prototype of its target, which for
    the proxies of this module is a literal or an array. *)
Definition isObjectLiteral (w : World) (v : value) : bool :=
  match v with
  | VObject a =>
      match heap w !! a with
      | Some (OLiteral _ _ | OArray _ | OVNode _ | OPropsProxy _ _
             | OStore _ _ _ | OProxy _) => true
      | _ => false
      end
  | _ => false
  end.

Definition vnode_isVNode (w : World) (v : value) : bool :=
  match lookup_obj w v with Some (OVNode _) => true | _ => false end.

(** The object behind a chain of proxies (a proxy is allocated after its
    target, so the chain is shorter than the heap). *)
Fixpoint underlying_aux (n : nat) (w : World) (v : value) : value :=
  match n with
  | O => v
  | S n' =>
      match lookup_obj w v with
      | Some (OStore t _ _ | OProxy t) => underlying_aux n' w t
      | _ => v
      end
  end.

Definition underlying (w : World) (v : value) : value :=
  underlying_aux (length (heap w)) w v.

(** [Array.isArray(obj)]: true for an array and for a proxy of one. *)
Definition isArray (w : World) (v : value) : bool :=
  match underlying w v with
  | VObject a =>
      match heap w !! a with
      | Some (OArray _ | OVNode _) => true
      | _ => false
      end
  | _ => false
  end.

Definition isQrl (w : World) (v : value) : bool :=
  match v with
  | VFunction a => match heap w !! a with Some (OQrl _ _ _ _ _ _) => true | _ => false end
  | _ => false
  end.

Definition isJSXNode (w : World) (v : value) : bool :=
  match v with
  | VObject a => match heap w !! a with Some (OJSXNode _ _ _ _ _ _ _) => true | _ => false end
  | _ => false
  end.

(** [shouldTrackObj(obj)] *)
Definition shouldTrackObj (v : value) : bool :=
  match v with
  | VObject _ => true
  | VString s => bool_decide (10 < strlen s)
  | _ => false
  end.

(** [frameworkType(obj)] *)
Definition frameworkType (w : World) (v : value) : bool :=
  match v with
  | VObject a =>
      match heap w !! a with
      | Some (OSignalImpl _ _ | OTask _ _ _ _ _ | OJSXNode _ _ _ _ _ _ _) => true
      | _ => false
      end
  | _ => isQrl w v
  end.

(** *** Property keys and own properties *)

Inductive Symbol :=
| SERIALIZER_PROXY_UNWRAP
| CONST_PROPS
| VAR_PROPS.

Inductive PropertyKey :=
| PString (s : string)
| PSymbol (s : Symbol).

#[global] Instance Symbol_eq_dec : EqDecision Symbol.
Proof. solve_decision. Defined.
#[global] Instance PropertyKey_eq_dec : EqDecision PropertyKey.
Proof. solve_decision. Defined.

(** An array index is a canonical numeric string. *)
Definition array_index (s : string) : option nat :=
  match parseInt s with
  | Finite (Dyadic z 0) =>
      if decide (0 <= z /\ String_int z = s) then Some (Z.to_nat z) else None
  | _ => None
  end.

Fixpoint assoc {A} (k : string) (l : list (string * A)) : option A :=
  match l with
  | [] => None
  | (k', x) :: rest => if decide (k' = k) then Some x else assoc k rest
  end.

(** Assignment to a key of an insertion-ordered property list: an existing
    key keeps its place, a new key goes last. *)
Fixpoint assoc_set {A} (k : string) (x : A) (l : list (string * A))
  : list (string * A) :=
  match l with
  | [] => [(k, x)]
  | (k', y) :: rest =>
      if decide (k' = k) then (k, x) :: rest else (k', y) :: assoc_set k x rest
  end.

(** [arr[i] = x]: an index past the end extends the array with holes. *)
Definition array_set (l : list value) (i : nat) (x : value) : list value :=
  if decide (i < length l)%nat then <[i := x]> l
  else l ++ replicate (i - length l) VUndefined ++ [x].

(** Is a value falsy in a condition? *)
Definition falsy (v : value) : bool :=
  match v with
  | VUndefined | VNull | VBool false | VNumber NaN | VBigInt 0 => true
  | VNumber (Finite (Dyadic 0 _)) => true
  | VString s => bool_decide (s = EmptyString)
  | _ => false
  end.

(** ** External collaborators

    The container of a deserialization session and the host functions the
    serializer imports from other modules. *)

Record DomContainer := mkContainer {
  (** [container.$getObjectById$(id)], taken as a lookup *)
  getObjectById : value -> value;
  (** [container.getSyncFn(idx)] *)
  getSyncFn : number -> value;
  (** [container.element] *)
  element : value;
  (** [container.element.ownerDocument] *)
  ownerDocument : value;
  (** [vnode_locate(container.rootVNode, id)] *)
  vnode_locate : string -> value;
}.

Record Host := mkHost {
  (** [fn.apply(undefined, args)] *)
  call : value -> list value -> World -> result (value * World);
  (** [atob(text)] *)
  atob : string -> result string;
  (** [BigInt(text)] *)
  BigInt_of_string : string -> result Z;
  (** [vnode_getNode(vnode)] *)
  vnode_getNode : value -> value;
  Slot : value;
  Fragment : value;
  isDev : bool;
  (** [globalThis[QRL_RUNTIME_CHUNK].get(symbol)] *)
  devBackChannel : string -> value;
}.

Definition QRL_RUNTIME_CHUNK : string := "qwik-runtime-mock-chunk".

(** ** Decoder: the parse cursor *)

(** The module-level [rest] and [restIdx]. [inflate] saves them on
    [restStack] on entry and restores them on exit, so each call of
    [inflate] works on a cursor of its own. *)
Record Cursor := mkCursor { rest : string; restIdx : Z }.

(** The loop of [restString]: [rem] is [rest] from [restIdx] on. The result
    is the final [restIdx]. *)
Fixpoint restString_loop (len : Z) (rem : string) (idx : Z) (depth : Z) : Z :=
  match rem with
  | EmptyString => len + 1
  | String c rem' =>
      let ch := Z.of_N (N_of_ascii c) in
      let depth := if decide (ch = 91) then depth + 1
                   else if decide (ch = 93) then depth - 1 else depth in
      if decide (0 < depth \/ ch <> 32) then restString_loop len rem' (idx + 1) depth
      else idx + 1
  end.

Definition restString (c : Cursor) : string * Cursor :=
  let start := restIdx c in
  let stop :=
    restString_loop (strlen (rest c)) (substring_from (rest c) start) start 0 in
  (substring (rest c) start (stop - 1), {| rest := rest c; restIdx := stop |}).

Definition restInt (c : Cursor) : number * Cursor :=
  let '(s, c') := restString c in (parseInt s, c').

(** ** Decoder: allocation *)

Section Decoder.
Variable host : Host.
Variable container : DomContainer.

(** Is [charCodeAt(0)] below a bound? A comparison with [NaN] is false. *)
Definition code_lt (c : option Z) (bound : Z) : bool :=
  match c with Some n => bool_decide (n < bound) | None => false end.

Definition code_is (c : option Z) (tag : Z) : bool :=
  match c with Some n => bool_decide (n = tag) | None => false end.

(** [parseQRL(qrl)]; [createQRL] builds the reference with no captured
    values resolved yet. *)
Definition parseQRL (w : World) (qrl : string) : value * World :=
  let hashIdx := indexOf qrl "#" 0 in
  let captureStart := indexOf qrl "[" hashIdx in
  let captureEnd := indexOf qrl "]" captureStart in
  let chunk :=
    if decide (-1 < hashIdx)
    then substring qrl (if code_lt (charCodeAt qrl 0) SC.LAST_VALUE then 1 else 0) hashIdx
    else qrl in
  let symbol :=
    if decide (-1 < captureStart)
    then substring qrl (hashIdx + 1) captureStart
    else substring_from qrl (hashIdx + 1) in
  let captureIds :=
    if decide (-1 < captureStart /\ -1 < captureEnd)
    then Some (List.filter (fun v => negb (String.eqb v EmptyString))
                 (split (substring qrl (captureStart + 1) captureEnd) " "))
    else None in
  let qrlRef :=
    if isDev host && String.eqb chunk QRL_RUNTIME_CHUNK
    then devBackChannel host symbol else VNull in
  let '(a, w') := alloc w (OQrl chunk symbol qrlRef captureIds None VNull) in
  (VFunction a, w').

(** [componentQrl(qrl)]: a component function whose serializable state
    is [[qrl]]. *)
Definition componentQrl (w : World) (qrl : value) : value * World :=
  let '(a, w') := alloc w (OComponent qrl) in (VFunction a, w').

Definition new (w : World) (o : obj) : result (value * World) :=
  let '(a, w') := alloc w o in Ok (VObject a, w').

(** The pre-sized length of a byte array, from the encoded length. *)
Definition decodedLength (payload : string) : Z :=
  let encodedLength := strlen payload - 1 in
  let blocks := Z.shiftr encodedLength 2 in
  let rest := Z.land encodedLength 3 in
  blocks * 3 + (if decide (rest = 0) then 0 else rest - 1).

(** [allocate(value)] *)
Definition allocate (w : World) (payload : string) : result (value * World) :=
  let tag := charCodeAt payload 0 in
  if code_is tag SC.UNDEFINED_VALUE then Ok (VUndefined, w)
  else if code_is tag SC.QRL_VALUE then Ok (parseQRL w payload)
  else if code_is tag SC.Task_VALUE then
    new w (OTask (Int (-1)) (Int (-1)) VNull VNull VNull)
  else if code_is tag SC.Resource_VALUE then Throw "Not implemented"
  else if code_is tag SC.URL_VALUE then new w (OURL (substring_from payload 1))
  else if code_is tag SC.Date_VALUE then new w (ODate (substring_from payload 1))
  else if code_is tag SC.Regex_VALUE then
    let idx := lastIndexOf payload "/" in
    new w (ORegExp (substring payload 2 idx) (substring_from payload (idx + 1)))
  else if code_is tag SC.Error_VALUE then new w (OError [])
  else if code_is tag SC.Component_VALUE then
    let '(qrl, w1) := parseQRL w payload in Ok (componentQrl w1 qrl)
  else if code_is tag SC.DerivedSignal_VALUE then
    new w (OSignalDerived VNull None None)
  else if code_is tag SC.Signal_VALUE then new w (OSignalImpl VNull None)
  else if code_is tag SC.SignalWrapper_VALUE then new w (OSignalWrapper VNull VNull)
  else if code_is tag SC.NotFinite_VALUE then
    let type := substring_from payload 1 in
    let isNaN := bool_decide (strlen type = 0) in
    if isNaN then Ok (VNumber NaN, w)
    else
      let isNegativeInfinity := String.eqb type "-" in
      Ok (VNumber (if isNegativeInfinity then NegInfinity else Infinity), w)
  else if code_is tag SC.URLSearchParams_VALUE then
    new w (OURLSearchParams (substring_from payload 1))
  else if code_is tag SC.FormData_VALUE then new w (OFormData [])
  else if code_is tag SC.JSXNode_VALUE then
    new w (OJSXNode VNull VUndefined VNull VNull VNull (Int (-1)) VNull)
  else if code_is tag SC.BigInt_VALUE then
    bind (BigInt_of_string host (substring_from payload 1))
         (fun z => Ok (VBigInt z, w))
  else if code_is tag SC.Set_VALUE then new w (OSet [] None)
  else if code_is tag SC.Map_VALUE then new w (OMap [] None)
  else if code_is tag SC.String_VALUE then Ok (VString (substring_from payload 1), w)
  else if code_is tag SC.Promise_VALUE then new w (OPromise Pending None)
  else if code_is tag SC.Uint8Array_VALUE then
    new w (OUint8Array (replicate (Z.to_nat (decodedLength payload)) (VNumber (Int 0))))
  else if code_is tag SC.PropsProxy_VALUE then new w (OPropsProxy VNull VNull)
  else Throw "unknown allocate type: ".

(** ** Decoder: inflation *)

(** [~x]: the operand is taken to a signed 32-bit integer first;
    [~NaN] is [-1]. *)
Definition toInt32 (z : Z) : Z := (z + 2 ^ 31) mod 2 ^ 32 - 2 ^ 31.

Definition bitnot (n : number) : number :=
  match n with
  | Finite (Dyadic z 0) => Int (Z.lnot (toInt32 z))
  | _ => Int (-1)
  end.

(** [n >= 0] on numbers *)
Definition number_ge0 (n : number) : bool :=
  match n with
  | Infinity => true
  | Finite (Dyadic m _) => bool_decide (0 <= m)
  | NaN | NegInfinity => false
  end.

Definition ghost_inflation (w : World) (target : value) (data : string) : World :=
  {| heap := heap w; deserializedProxyMap := deserializedProxyMap w;
     noSerialize := noSerialize w; storeProxyMap := storeProxyMap w;
     inflations := (target, data) :: inflations w |}.

Definition resolve_id (n : number) : value := getObjectById container (VNumber n).

(** [inflateQRL(container, qrl)] *)
Definition inflateQRL (w : World) (qrl : value) : result World :=
  match qrl, lookup_obj w qrl with
  | VFunction a, Some (OQrl chunk symbol ref captureIds _ _) =>
      let captureRef :=
        match captureIds with
        | Some ids => Some (List.map (fun id => resolve_id (parseInt id)) ids)
        | None => None
        end in
      Ok (update_obj w a (OQrl chunk symbol ref captureIds captureRef (element container)))
  | _, _ => Throw "TypeError: not a QRL"
  end.

(** [deserializeJSXType(container, type)] *)
Definition deserializeJSXType (type : string) : value :=
  if String.eqb type ":slot" then Slot host
  else if String.eqb type ":fragment" then Fragment host
  else
    match charCodeAt type 0 with
    | Some ch =>
        if decide (48 <= ch /\ ch <= 57) then getObjectById container (VString type)
        else VString type
    | None => VString type
    end.

(** One subscriber of [subscriptionManagerFromString]: the fields are
    resolved, then the last one is popped off as the property. The
    manager's [$addSub$(subscription, prop)] records the tuple with its
    property. *)
Definition subscriber_of_string (sub : string) : Subscriber :=
  match split sub " " with
  | [] => []
  | type :: fields =>
      VNumber (parseInt type)
        :: List.map (fun f => getObjectById container (VString f)) fields
  end.

Definition subscriptionManagerFromString (text : string) : list Subscriber :=
  List.map subscriber_of_string
    (List.filter (fun sub => negb (String.eqb sub EmptyString)) (split text ";")).

(** The [while (restIdx < rest.length)] loop of the derived-signal case;
    every [restInt] moves the cursor forward. *)
Fixpoint derived_args (fuel : nat) (c : Cursor) : list value :=
  match fuel with
  | O => []
  | S f =>
      if decide (restIdx c < strlen (rest c)) then
        let '(n, c') := restInt c in resolve_id n :: derived_args f c'
      else []
  end.

(** [set.add(x)] and [map.set(k, x)] keep insertion order. *)
Definition set_add (elems : list value) (x : value) : list value :=
  if decide (x ∈ elems) then elems else elems ++ [x].

Fixpoint map_set (entries : list (value * value)) (k x : value)
  : list (value * value) :=
  match entries with
  | [] => [(k, x)]
  | (k', y) :: rest =>
      if decide (k' = k) then (k, x) :: rest else (k', y) :: map_set rest k x
  end.

(** [arr.length] as a loop bound; a comparison with a non-number is
    false, so the loop body never runs. *)
Definition length_bound (v : value) : nat :=
  match v with
  | VNumber (Finite (Dyadic z 0)) => Z.to_nat z
  | _ => O
  end.

Section WithGet.
(** The [[Get]] of the object model, defined below with the proxy
    traps; a read through a lazy wrapper can materialize a value. *)
Variable G : World -> value -> PropertyKey -> result (value * World).

Definition index_key (i : Z) : PropertyKey := PString (String_int i).

(** [for (let i = 0; i < setValues.length; i++) set.add(setValues[i])] *)
Fixpoint inflate_set (w : World) (a : addr) (arr : value) (i : Z) (n : nat)
  : result World :=
  match n with
  | O => Ok w
  | S n' =>
      '(x, w1) <- G w arr (index_key i) ;;
      match heap w1 !! a with
      | Some (OSet elems id) =>
          inflate_set (update_obj w1 a (OSet (set_add elems x) id)) a arr (i + 1) n'
      | _ => Throw "TypeError: not a Set"
      end
  end.

(** [for (let i = 0; i < mapKeyValue.length; )
      map.set(mapKeyValue[i++], mapKeyValue[i++])] *)
Fixpoint inflate_map (w : World) (a : addr) (arr : value) (i : Z) (n : nat)
  : result World :=
  match n with
  | O => Ok w
  | S n' =>
      '(k, w1) <- G w arr (index_key i) ;;
      '(x, w2) <- G w1 arr (index_key (i + 1)) ;;
      match heap w2 !! a with
      | Some (OMap entries id) =>
          inflate_map (update_obj w2 a (OMap (map_set entries k x) id)) a arr (i + 2) n'
      | _ => Throw "TypeError: not a Map"
      end
  end.

(** [for (const [key, value] of array) formData.append(key, value)] *)
Fixpoint inflate_formData (w : World) (a : addr) (arr : value) (i : Z) (n : nat)
  : result World :=
  match n with
  | O => Ok w
  | S n' =>
      '(entry, w1) <- G w arr (index_key i) ;;
      '(k, w2) <- G w1 entry (index_key 0) ;;
      '(x, w3) <- G w2 entry (index_key 1) ;;
      match heap w3 !! a with
      | Some (OFormData entries) =>
          inflate_formData (update_obj w3 a (OFormData (entries ++ [(k, x)]))) a arr (i + 1) n'
      | _ => Throw "TypeError: not a FormData"
      end
  end.

(** The own enumerable string keys of an object; a proxy without an
    [ownKeys] trap reports those of its target. *)
Definition own_keys (w : World) (v : value) : list string :=
  match lookup_obj w (underlying w v) with
  | Some (OLiteral props _) => List.map fst props
  | Some (OError props) => List.map fst props
  | Some (OArray elems) =>
      List.map (fun i => String_int (Z.of_nat i)) (seq 0 (length elems))
  | _ => []
  end.

(** [Object.assign(target, source)] on an error shell *)
Fixpoint assign_props (w : World) (a : addr) (src : value) (keys : list string)
  : result World :=
  match keys with
  | [] => Ok w
  | k :: ks =>
      '(x, w1) <- G w src (PString k) ;;
      match heap w1 !! a with
      | Some (OError props) =>
          assign_props (update_obj w1 a (OError (assoc_set k x props))) a src ks
      | _ => Throw "TypeError: not an Error"
      end
  end.

(** [for (const s of buf) bytes[i++] = s.charCodeAt(0)]; a write past
    the end of a typed array is dropped. *)
Fixpoint fill_bytes (bytes : list value) (buf : string) : list value :=
  match bytes, buf with
  | _ :: bytes', String c buf' =>
      VNumber (Int (Z.of_N (N_of_ascii c))) :: fill_bytes bytes' buf'
  | _, _ => bytes
  end.

(** [inflate(container, target, needsInflationData)]. The callers in
    this module pass as [target] the shell that [allocate] made for
    the same payload; on any other kind of object the field
    assignments are a [TypeError] here. *)
Definition inflate (w : World) (target : value) (needsInflationData : string)
  : result World :=
  let w := ghost_inflation w target needsInflationData in
  let c := {| rest := needsInflationData; restIdx := 1 |} in
  let tag := charCodeAt needsInflationData 0 in
  if code_is tag SC.QRL_VALUE then inflateQRL w target
  else if code_is tag SC.Task_VALUE then
    match target, lookup_obj w target with
    | VObject a, Some (OTask _ _ _ _ _) =>
        let '(flags, c) := restInt c in
        let '(index, c) := restInt c in
        let '(elId, c) := restInt c in
        let '(qrlText, c) := restString c in
        let '(qrl, w1) := parseQRL w qrlText in
        w2 <- inflateQRL w1 qrl ;;
        let '(taskState, c) := restString c in
        let state := if String.eqb taskState EmptyString then VUndefined
                     else getObjectById container (VString taskState) in
        Ok (update_obj w2 a (OTask flags index (resolve_id elId) qrl state))
    | _, _ => Throw "TypeError: not a Task"
    end
  else if code_is tag SC.Resource_VALUE then Throw "Not implemented"
  else if code_is tag SC.Component_VALUE then
    match lookup_obj w target with
    | Some (OComponent qrl) => inflateQRL w qrl
    | _ => Throw "TypeError: not a component"
    end
  else if code_is tag SC.DerivedSignal_VALUE then
    match target, lookup_obj w target with
    | VObject a, Some (OSignalDerived _ _ funcStr) =>
        let '(fnId, c) := restInt c in
        let func := getSyncFn container fnId in
        let args := derived_args (S (String.length (rest c))) c in
        Ok (update_obj w a (OSignalDerived func (Some args) funcStr))
    | _, _ => Throw "TypeError: not a derived signal"
    end
  else if code_is tag SC.Store_VALUE then Ok w
  else if code_is tag SC.Signal_VALUE then
    match target, lookup_obj w target with
    | VObject a, Some (OSignalImpl _ _) =>
        let semiIdx := indexOf (rest c) ";" 0 in
        let signalValue :=
          getObjectById container
            (VString (substring (rest c) 1
               (if decide (semiIdx = -1) then strlen (rest c) else semiIdx))) in
        let signalValue :=
          if vnode_isVNode w signalValue then vnode_getNode host signalValue
          else signalValue in
        let subs :=
          if decide (0 < semiIdx)
          then subscriptionManagerFromString (substring_from (rest c) (semiIdx + 1))
          else [] in
        Ok (update_obj w a (OSignalImpl signalValue (Some subs)))
    | _, _ => Throw "TypeError: not a signal"
    end
  else if code_is tag SC.SignalWrapper_VALUE then
    match target, lookup_obj w target with
    | VObject a, Some (OSignalWrapper _ _) =>
        let '(refId, c) := restInt c in
        let '(prop, c) := restString c in
        Ok (update_obj w a (OSignalWrapper (resolve_id refId) (VString prop)))
    | _, _ => Throw "TypeError: not a signal wrapper"
    end
  else if code_is tag SC.Error_VALUE then
    match target, lookup_obj w target with
    | VObject a, Some (OError _) =>
        let '(id, c) := restInt c in
        let src := resolve_id id in
        assign_props w a src (own_keys w src)
    | _, _ => Throw "TypeError: not an Error"
    end
  else if code_is tag SC.FormData_VALUE then
    match target with
    | VObject a =>
        let '(id, c) := restInt c in
        let arr := resolve_id id in
        '(len, w1) <- G w arr (PString "length") ;;
        inflate_formData w1 a arr 0 (length_bound len)
    | _ => Throw "TypeError: not a FormData"
    end
  else if code_is tag SC.JSXNode_VALUE then
    match target, lookup_obj w target with
    | VObject a, Some (OJSXNode _ props _ _ _ _ _) =>
        let '(type, c) := restString c in
        let '(varId, c) := restInt c in
        let '(constId, c) := restInt c in
        let '(childrenId, c) := restInt c in
        let '(flags, c) := restInt c in
        let '(key, c) := restString c in
        Ok (update_obj w a
              (OJSXNode (deserializeJSXType type) props (resolve_id varId)
                 (resolve_id constId) (resolve_id childrenId) flags
                 (if String.eqb key EmptyString then VNull else VString key)))
    | _, _ => Throw "TypeError: not a JSX node"
    end
  else if code_is tag SC.Set_VALUE then
    match target with
    | VObject a =>
        let '(id, c) := restInt c in
        let setValues := resolve_id id in
        '(len, w1) <- G w setValues (PString "length") ;;
        inflate_set w1 a setValues 0 (length_bound len)
    | _ => Throw "TypeError: not a Set"
    end
  else if code_is tag SC.Map_VALUE then
    match target with
    | VObject a =>
        let '(id, c) := restInt c in
        let mapKeyValue := resolve_id id in
        '(len, w1) <- G w mapKeyValue (PString "length") ;;
        inflate_map w1 a mapKeyValue 0 (Nat.div2 (S (length_bound len)))
    | _ => Throw "TypeError: not a Map"
    end
  else if code_is tag SC.Promise_VALUE then
    match target, lookup_obj w target with
    | VObject a, Some (OPromise st rid) =>
        let '(id, c) := restInt c in
        let settled :=
          if number_ge0 id then Fulfilled (resolve_id id)
          else Rejected (resolve_id (bitnot id)) in
        Ok (update_obj w a
              (OPromise (match st with Pending => settled | _ => st end) rid))
    | _, _ => Throw "TypeError: not a promise"
    end
  else if code_is tag SC.Uint8Array_VALUE then
    match target, lookup_obj w target with
    | VObject a, Some (OUint8Array bytes) =>
        let '(text, c) := restString c in
        buf <- atob host text ;;
        Ok (update_obj w a (OUint8Array (fill_bytes bytes buf)))
    | _, _ => Throw "TypeError: not a byte array"
    end
  else if code_is tag SC.PropsProxy_VALUE then
    match target, lookup_obj w target with
    | VObject a, Some (OPropsProxy _ _) =>
        let '(varId, c) := restInt c in
        let '(constId, c) := restInt c in
        Ok (update_obj w a (OPropsProxy (resolve_id varId) (resolve_id constId)))
    | _, _ => Throw "TypeError: not a props proxy"
    end
  else Throw "Not implemented".

(** ** Lazy deserialization wrapper *)

(** The [[Set]] of the object model. *)
Variable R : World -> value -> PropertyKey -> value -> result (bool * World).

Definition isDeserializerProxy (w : World) (v : value) : bool :=
  match v with
  | VObject a => match heap w !! a with Some (OProxy _) => true | _ => false end
  | _ => false
  end.

(** [unwrapDeserializerProxy(value)] *)
Definition unwrapDeserializerProxy (w : World) (v : value)
  : result (value * World) :=
  match v with
  | VObject _ =>
      '(unwrapped, w1) <- G w v (PSymbol SERIALIZER_PROXY_UNWRAP) ;;
      Ok (if falsy unwrapped then v else unwrapped, w1)
  | _ => Ok (v, w)
  end.

Definition set_proxy (w : World) (a : addr) (proxy : value) : World :=
  {| heap := heap w;
     deserializedProxyMap := <[a := proxy]> (deserializedProxyMap w);
     noSerialize := noSerialize w; storeProxyMap := storeProxyMap w;
     inflations := inflations w |}.

(** [wrapDeserializerProxy(container, value)] *)
Definition wrapDeserializerProxy (w : World) (v : value) : value * World :=
  match v with
  | VObject a =>
      if isObjectLiteral w v && negb (vnode_isVNode w v) then
        if isDeserializerProxy w v then (v, w)
        else
          let create :=
            let '(p, w1) := alloc w (OProxy v) in
            (VObject p, set_proxy w1 a (VObject p)) in
          match deserializedProxyMap w !! a with
          | Some proxy => if falsy proxy then create else (proxy, w)
          | None => create
          end
      else (v, w)
  | _ => (v, w)
  end.

(** Modelled from the spec: [getOrCreateProxy] of [state/store] is not
    in this file. A reactive store is a proxying wrapper over a plain
    object or array, reconstructed first on decode; the container keeps
    one per target. *)
Definition getOrCreateProxy (w : World) (target : value)
  : result (value * World) :=
  match target with
  | VObject a =>
      match storeProxyMap w !! a with
      | Some proxy => Ok (proxy, w)
      | None =>
          let '(p, w1) := alloc w (OStore target 0 []) in
          Ok (VObject p,
              {| heap := heap w1; deserializedProxyMap := deserializedProxyMap w1;
                 noSerialize := noSerialize w1;
                 storeProxyMap := <[a := VObject p]> (storeProxyMap w1);
                 inflations := inflations w1 |})
      end
  | _ => Throw "TypeError: Cannot create proxy with a non-object as target"
  end.

(** [Object.defineProperty(target, key, { get() { return
    derivedSignal.value }, enumerable: true })] *)
Definition defineGetter (w : World) (target : value) (key : string)
    (derivedSignal : value) : result World :=
  match underlying w target with
  | VObject a =>
      match heap w !! a with
      | Some (OLiteral props cp) =>
          Ok (update_obj w a (OLiteral (assoc_set key (Getter derivedSignal) props) cp))
      | _ => Throw "TypeError: Cannot redefine property"
      end
  | _ => Throw "TypeError: Object.defineProperty called on non-object"
  end.

(** The loop of [upgradePropsWithDerivedSignal] over the keys of the
    target; [immutable] is the new side map. *)
Fixpoint upgrade_loop (w : World) (target : value) (immutable : addr)
    (keys : list string) : result World :=
  match keys with
  | [] => Ok w
  | key :: keys' =>
      '(v, w1) <- G w target (PString key) ;;
      match v with
      | VString text =>
          if code_is (charCodeAt text 0) SC.DerivedSignal_VALUE then
            '(derivedSignal, w2) <- allocate w1 text ;;
            match heap w2 !! immutable with
            | Some (OLiteral props cp) =>
                let w3 := update_obj w2 immutable
                            (OLiteral (assoc_set key (Data derivedSignal) props) cp) in
                w4 <- defineGetter w3 target key derivedSignal ;;
                w5 <- inflate w4 derivedSignal text ;;
                upgrade_loop w5 target immutable keys'
            | _ => Throw "TypeError"
            end
          else upgrade_loop w1 target immutable keys'
      | _ => upgrade_loop w1 target immutable keys'
      end
  end.

(** [upgradePropsWithDerivedSignal(container, target, property)] *)
Definition upgradePropsWithDerivedSignal (w : World) (target : value)
    (property : PropertyKey) : result (value * World) :=
  let '(immutable, w0) := alloc w (OLiteral [] None) in
  w1 <- upgrade_loop w0 target immutable (own_keys w0 target) ;;
  '(_, w2) <- R w1 target (PSymbol CONST_PROPS) (VObject immutable) ;;
  G w2 target property.

(** Does a value read from a field still carry a tag? *)
Definition tagged (v : value) : option (string * Z) :=
  match v with
  | VString s =>
      match charCodeAt s 0 with
      | Some typeCode =>
          if decide (typeCode < SC.LAST_VALUE) then Some (s, typeCode) else None
      | None => None
      end
  | _ => None
  end.

(** The caching test of the [get] trap: the materialized value is not
    a string, or is a string whose first character is not a tag. *)
Definition cacheable (v : value) : bool :=
  match v with
  | VString s =>
      match charCodeAt s 0 with
      | Some c => bool_decide (SC.LAST_VALUE <= c)
      | None => false
      end
  | _ => true
  end.

(** [DeserializationHandler.get(target, property, receiver)] *)
Definition DeserializationHandler_get (w : World) (target : value)
    (property : PropertyKey) : result (value * World) :=
  if decide (property = PSymbol SERIALIZER_PROXY_UNWRAP) then Ok (target, w)
  else
    let proceed (w : World) : result (value * World) :=
      '(propValue, w1) <- G w target property ;;
      match tagged propValue with
      | Some (serializedValue, typeCode) =>
          let finish (r : result (value * World)) : result (value * World) :=
            '(propValue, w2) <- r ;;
            w4 <- (if cacheable propValue then
                     '(_, w3) <- R w2 target property propValue ;;
                     if decide (SC.Error_VALUE <= typeCode)
                     then inflate w3 propValue serializedValue
                     else Ok w3
                   else Ok w2) ;;
            Ok (wrapDeserializerProxy w4 propValue) in
          if decide (typeCode = SC.REFERENCE_VALUE) then
            finish (unwrapDeserializerProxy w1
                      (resolve_id (parseInt (substring_from serializedValue 1))))
          else if decide (typeCode = SC.VNode_VALUE) then
            finish (Ok (if String.eqb serializedValue SC.VNode_CHAR
                        then ownerDocument container
                        else vnode_locate container (substring_from serializedValue 1),
                        w1))
          else if decide (typeCode = SC.Store_VALUE) then
            finish (getOrCreateProxy w1
                      (getObjectById container (VString (substring_from serializedValue 1))))
          else if bool_decide (typeCode = SC.DerivedSignal_VALUE) && negb (isArray w1 target) then
            '(v, w2) <- upgradePropsWithDerivedSignal w1 target property ;;
            Ok (wrapDeserializerProxy w2 v)
          else finish (allocate w1 serializedValue)
      | None => Ok (wrapDeserializerProxy w1 propValue)
      end in
    match getProxyTarget w target with
    | Some _ =>
        '(unwrapped, w1) <- unwrapDeserializerProxy w (unwrapProxy w target) ;;
        '(unwrappedPropValue, w2) <- G w1 unwrapped property ;;
        match unwrappedPropValue with
        | VString s =>
            if code_is (charCodeAt s 0) SC.String_VALUE then allocate w2 s
            else proceed w2
        | _ => proceed w2
        end
    | None => proceed w
    end.

(** [DeserializationHandler.set(target, property, newValue, receiver)] *)
Definition DeserializationHandler_set (w : World) (target : value)
    (property : PropertyKey) (newValue : value) : result (bool * World) :=
  match tagged newValue with
  | Some (s, _) => R w target property (VString (SC.String_CHAR ++ s))
  | None => R w target property newValue
  end.
End WithGet.

(** ** The object model's [[Get]] and [[Set]]

    A read or a write on a proxy runs the proxy's trap; a reactive store
    passes both to its target. The fuel bounds the nesting of proxies
    and of lazy materializations. *)

(** Modelled from the spec: [SignalDerived] of [state/signal] is not in
    this file. A derived signal is a closure with captured values; its
    property is a read-only computed accessor, so [derivedSignal.value]
    applies the closure to the captured values. *)
Definition derivedSignal_value (w : World) (derivedSignal : value)
  : result (value * World) :=
  match lookup_obj w derivedSignal with
  | Some (OSignalDerived func (Some args) _) => call host func args w
  | Some (OSignalDerived func None _) => call host func [] w
  | _ => Ok (VUndefined, w)
  end.

Fixpoint Set_ (fuel : nat) (w : World) (o : value) (key : PropertyKey)
    (v : value) : result (bool * World) :=
  match fuel with
  | O => OutOfFuel
  | S fuel' =>
      match o, lookup_obj w o with
      | VObject a, Some (OLiteral props cp) =>
          match key with
          | PString k =>
              match assoc k props with
              | Some (Getter _) => Ok (false, w)
              | _ => Ok (true, update_obj w a (OLiteral (assoc_set k (Data v) props) cp))
              end
          | PSymbol CONST_PROPS => Ok (true, update_obj w a (OLiteral props (Some v)))
          | PSymbol _ => Ok (true, w)
          end
      | VObject a, Some (OArray elems) =>
          match key with
          | PString k =>
              match array_index k with
              | Some i => Ok (true, update_obj w a (OArray (array_set elems i v)))
              | None => Ok (true, w)
              end
          | PSymbol _ => Ok (true, w)
          end
      | _, Some (OStore t _ _) => Set_ fuel' w t key v
      | _, Some (OProxy t) => DeserializationHandler_set (Set_ fuel') w t key v
      | (VUndefined | VNull), _ => Throw "TypeError: Reflect.set called on non-object"
      | _, _ => Ok (true, w)
      end
  end.

Fixpoint Get (fuel : nat) (w : World) (o : value) (key : PropertyKey)
  : result (value * World) :=
  match fuel with
  | O => OutOfFuel
  | S fuel' =>
      match o, lookup_obj w o with
      | _, Some (OLiteral props cp) =>
          match key with
          | PString k =>
              match assoc k props with
              | Some (Data v) => Ok (v, w)
              | Some (Getter derivedSignal) => derivedSignal_value w derivedSignal
              | None => Ok (VUndefined, w)
              end
          | PSymbol CONST_PROPS => Ok (default VUndefined cp, w)
          | PSymbol _ => Ok (VUndefined, w)
          end
      | _, Some (OArray elems) =>
          match key with
          | PString k =>
              match array_index k with
              | Some i => Ok (default VUndefined (elems !! i), w)
              | None =>
                  if String.eqb k "length"
                  then Ok (VNumber (Int (Z.of_nat (length elems))), w)
                  else Ok (VUndefined, w)
              end
          | PSymbol _ => Ok (VUndefined, w)
          end
      | _, Some (OPropsProxy varProps constProps) =>
          match key with
          | PSymbol VAR_PROPS => Ok (varProps, w)
          | PSymbol CONST_PROPS => Ok (constProps, w)
          | _ => Ok (VUndefined, w)
          end
      | _, Some (OStore t _ _) => Get fuel' w t key
      | _, Some (OProxy t) =>
          DeserializationHandler_get (Get fuel') (Set_ fuel') w t key
      | (VUndefined | VNull), _ =>
          Throw "TypeError: Cannot read properties of undefined"
      | _, _ => Ok (VUndefined, w)
      end
  end.

(** [DeserializationHandler.has(target, property)] *)
Definition DeserializationHandler_has (w : World) (target : value)
    (property : PropertyKey) : bool :=
  match property with
  | PSymbol SERIALIZER_PROXY_UNWRAP => true
  | PSymbol CONST_PROPS =>
      match lookup_obj w target with
      | Some (OLiteral _ (Some _)) => true
      | _ => false
      end
  | PSymbol _ => false
  | PString k =>
      match lookup_obj w target with
      | Some (OLiteral props _) => bool_decide (is_Some (assoc k props))
      | Some (OArray elems) =>
          match array_index k with
          | Some i => bool_decide (i < length elems)%nat
          | None => String.eqb k "length"
          end
      | _ => false
      end
  end.

(** The traps of one proxy, as the application calls them. *)
Definition proxy_get (fuel : nat) (w : World) (target : value) (property : PropertyKey)
  : result (value * World) :=
  DeserializationHandler_get (Get fuel) (Set_ fuel) w target property.

Definition proxy_set (fuel : nat) (w : World) (target : value) (property : PropertyKey)
    (newValue : value) : result (bool * World) :=
  DeserializationHandler_set (Set_ fuel) w target property newValue.

End Decoder.

(** ** Graph walker: [breakCircularDependenciesAndResolvePromises] *)

(** The state of one walk: the context, the heap, the worklist
    [discoveredValues] (top of the stack first) and the outstanding
    promises. *)
Record WalkState := mkWalk {
  w_ctx : SerializationContext;
  w_world : World;
  discoveredValues : list value;
  promises : list value;
}.

(** [stack.push(...xs)]: the last pushed value is on top. *)
Definition push_all (stack : list value) (xs : list value) : list value :=
  rev xs ++ stack.

(** [obj[SERIALIZABLE_ROOT_ID] = id] *)
Definition set_rootId (w : World) (obj : value) (id : Z) : World :=
  match obj, lookup_obj w obj with
  | VObject a, Some (OSet elems _) => update_obj w a (OSet elems (Some id))
  | VObject a, Some (OMap entries _) => update_obj w a (OMap entries (Some id))
  | VObject a, Some (OPromise st _) => update_obj w a (OPromise st (Some id))
  | _, _ => w
  end.

(** [getSerializableDataRootId(value)] *)
Definition getSerializableDataRootId (w : World) (obj : value) : option Z :=
  match lookup_obj w obj with
  | Some (OSet _ id | OMap _ id | OPromise _ id) => id
  | _ => None
  end.

(** [setSerializableDataRootId($addRoot$, obj, value)] *)
Definition setSerializableDataRootId (ctx : SerializationContext) (w : World)
    (obj value : value) : SerializationContext * World :=
  let '(id, ctx') := addRoot ctx value in (ctx', set_rootId w obj id).

Definition flatten_entries (entries : list (JS.value * JS.value)) : list JS.value :=
  flat_map (fun kv => [kv.1; kv.2]) entries.

(** The hosts and signals of the subscribers of a signal, as the walker
    pushes them. *)
Definition signal_sub_values (obj : value) (subs : list Subscriber) : list value :=
  flat_map (fun sub =>
      default VUndefined (sub !! SubscriptionProp.HOST)
        :: (let s := default VUndefined (sub !! SubscriptionProp.SIGNAL) in
            if decide (obj = s) then [] else [s]))
    subs.

(** For a store: every field of a subscriber from [HOST] on. *)
Definition store_sub_values (subs : list Subscriber) : list value :=
  flat_map (fun sub => drop SubscriptionProp.HOST sub) subs.



Section Walker.
Variable G : World -> value -> PropertyKey -> result (value * World).
(** Is [$NodeConstructor$] set? *)
Variable NodeConstructor : bool.

(** The values of the listed keys, read in order. *)
Fixpoint read_props (w : World) (obj : value) (keys : list PropertyKey)
  : result (list value * World) :=
  match keys with
  | [] => Ok ([], w)
  | k :: ks =>
      '(x, w1) <- G w obj k ;;
      '(xs, w2) <- read_props w1 obj ks ;;
      Ok (x :: xs, w2)
  end.

Definition index_keys (n : nat) : list PropertyKey :=
  List.map (fun i => PString (String_int (Z.of_nat i))) (seq 0 n).

(** The scan of the contents of an object seen for the first time (or of
    the root): the [if]/[else if] chain on the kind of [obj]. *)
Definition scan (st : WalkState) (obj : value) : result WalkState :=
  let w := w_world st in
  let push xs := Ok (mkWalk (w_ctx st) w (push_all (discoveredValues st) xs) (promises st)) in
  match obj with
  | VObject a =>
      match heap w !! a with
      | Some (OURL _ | ODate _ | ORegExp _ _ | OError _ | OUint8Array _
             | OURLSearchParams _ | OFormData _) => Ok st
      | Some o =>
          if fastSkipSerialize w obj then Ok st
          else
            match o with
            | OSet elems _ =>
                let '(contents, w1) := alloc w (OArray elems) in
                let '(ctx', w2) :=
                  setSerializableDataRootId (w_ctx st) w1 obj (VObject contents) in
                Ok (mkWalk ctx' w2 (push_all (discoveredValues st) elems) (promises st))
            | OMap entries _ =>
                let '(tuples, w1) := alloc w (OArray (flatten_entries entries)) in
                let '(ctx', w2) :=
                  setSerializableDataRootId (w_ctx st) w1 obj (VObject tuples) in
                Ok (mkWalk ctx' w2
                      (VObject tuples
                         :: push_all (discoveredValues st) (flatten_entries entries))
                      (promises st))
            | OSignalImpl untrackedValue manager =>
                push (untrackedValue :: signal_sub_values obj (default [] manager))
            | OSignalWrapper ref _ => push [ref]
            | OSignalDerived _ _ _ => Ok st
            | OTask _ _ el qrl state => push [el; qrl; state]
            | ONode _ =>
                if NodeConstructor then Ok st else Throw "Unknown type: "
            | OJSXNode type props _ constProps children _ _ =>
                push [type; props; constProps; children]
            | OArray elems | OVNode elems => push elems
            | OPropsProxy varProps constProps => push [varProps; constProps]
            | OPromise _ _ =>
                Ok (mkWalk (w_ctx st) w (discoveredValues st) (promises st ++ [obj]))
            | OLiteral _ _ | OProxy _ | OStore _ _ _ =>
                if isArray w obj then
                  '(len, w1) <- G w obj (PString "length") ;;
                  '(xs, w2) <- read_props w1 obj (index_keys (length_bound len)) ;;
                  Ok (mkWalk (w_ctx st) w2 (push_all (discoveredValues st) xs) (promises st))
                else
                  '(xs, w1) <- read_props w obj (List.map PString (own_keys w obj)) ;;
                  Ok (mkWalk (w_ctx st) w1 (push_all (discoveredValues st) xs) (promises st))
            | _ => Throw "Unknown type: "
            end
      | None => Throw "Unknown type: "
      end
  | _ => Ok st
  end.

(** One turn of the [while (discoveredValues.length)] loop. *)
Definition walk_step (rootObj : value) (st : WalkState) : result WalkState :=
  match discoveredValues st with
  | [] => Ok st
  | obj :: stack =>
      let st := mkWalk (w_ctx st) (w_world st) stack (promises st) in
      let w := w_world st in
      if shouldTrackObj obj || frameworkType w obj then
        let isRoot := bool_decide (obj = rootObj) in
        let id := wasSeen (w_ctx st) obj in
        let unwrapObj := unwrapProxy w obj in
        if negb (bool_decide (unwrapObj = obj)) then
          Ok (mkWalk (w_ctx st) w
                (push_all (unwrapObj :: stack)
                   (store_sub_values (default [] (getSubscriptionManager w obj))))
                (promises st))
        else if bool_decide (id = None) || isRoot then
          scan (if isRoot then st
                else mkWalk (seen (w_ctx st) obj) w stack (promises st)) obj
        else if bool_decide (id = Some MIN_SAFE_INTEGER) then
          Ok (mkWalk (addRoot (w_ctx st) obj).2 w stack (promises st))
        else Ok st
      else Ok st
  end.

(** [breakCircularDependenciesAndResolvePromises(rootObj, promises)]:
    the loop runs until the worklist is empty. *)
Fixpoint walk_loop (fuel : nat) (rootObj : value) (st : WalkState)
  : result WalkState :=
  match discoveredValues st with
  | [] => Ok st
  | _ :: _ =>
      match fuel with
      | O => OutOfFuel
      | S fuel' => st' <- walk_step rootObj st ;; walk_loop fuel' rootObj st'
      end
  end.

Definition breakCircularDependenciesAndResolvePromises (fuel : nat)
    (rootObj : value) (ctx : SerializationContext) (w : World)
    (promises : list value) : result WalkState :=
  walk_loop fuel rootObj (mkWalk ctx w [rootObj] promises).

(** The synchronous part of [$breakCircularDepsAndAwaitPromises$]: one
    walk per root present when it starts. *)
Fixpoint walk_roots (fuel : nat) (rs : list value) (st : WalkState)
  : result WalkState :=
  match rs with
  | [] => Ok st
  | r :: rs' =>
      st' <- breakCircularDependenciesAndResolvePromises fuel r
               (w_ctx st) (w_world st) (promises st) ;;
      walk_roots fuel rs' st'
  end.

Definition breakCircularDepsAndAwaitPromises (fuel : nat)
    (ctx : SerializationContext) (w : World) : result WalkState :=
  walk_roots fuel (roots ctx) (mkWalk ctx w [] []).
End Walker.



(** ** Encoder *)

(** [JSON.stringify(text)] of a string: the quoted string with the
    escapes of [QuoteJSONString]. *)
Definition hex_digit (n : N) : ascii :=
  ascii_of_N (if (n <? 10)%N then 48 + n else 87 + n)%N.

Definition json_escape (c : ascii) : string :=
  let n := N_of_ascii c in
  if (n =? 8)%N then "\b"
  else if (n =? 9)%N then "\t"
  else if (n =? 10)%N then "\n"
  else if (n =? 12)%N then "\f"
  else if (n =? 13)%N then "\r"
  else if (n =? 34)%N then String "\" (String (ascii_of_N 34) EmptyString)
  else if (n =? 92)%N then "\\"
  else if (n <? 32)%N then
    String "\" (String "u" (String "0" (String "0"
      (String (hex_digit (n / 16)) (String (hex_digit (n mod 16)) EmptyString)))))
  else String c EmptyString.

Fixpoint json_escape_all (s : string) : string :=
  match s with
  | EmptyString => EmptyString
  | String c s' => (json_escape c ++ json_escape_all s')%string
  end.

Definition quote : string := String (ascii_of_N 34) EmptyString.

Definition JSON_stringify (text : string) : string :=
  (quote ++ json_escape_all text ++ quote)%string.

(** The session state of [serialize]: the context, the heap, what has been
    written to [$writer$] (in order), [depth], and the closure table. *)
Record EncState := mkEnc {
  e_ctx : SerializationContext;
  e_world : World;
  e_out : list string;
  e_depth : Z;
  e_syncFns : list string;
  e_syncFnMap : gmap string Z;
  e_renderSymbols : list string;
  e_resources : list value;
}.

Definition write (st : EncState) (text : string) : EncState :=
  mkEnc (e_ctx st) (e_world st) (e_out st ++ [text]) (e_depth st)
    (e_syncFns st) (e_syncFnMap st) (e_renderSymbols st) (e_resources st).

Definition set_depth (st : EncState) (d : Z) : EncState :=
  mkEnc (e_ctx st) (e_world st) (e_out st) d
    (e_syncFns st) (e_syncFnMap st) (e_renderSymbols st) (e_resources st).

Definition set_world (st : EncState) (w : World) : EncState :=
  mkEnc (e_ctx st) w (e_out st) (e_depth st)
    (e_syncFns st) (e_syncFnMap st) (e_renderSymbols st) (e_resources st).

(** [$addRoot$(obj)] from inside the encoder *)
Definition enc_addRoot (st : EncState) (obj : value) : Z * EncState :=
  let '(id, ctx') := addRoot (e_ctx st) obj in
  (id, mkEnc ctx' (e_world st) (e_out st) (e_depth st)
         (e_syncFns st) (e_syncFnMap st) (e_renderSymbols st) (e_resources st)).

(** The loop of [writeString] that escapes every ["</"]. *)
Fixpoint writeString_loop (fuel : nat) (text : string) (lastIdx : Z)
    (st : EncState) : EncState :=
  match fuel with
  | O => st
  | S fuel' =>
      let angleBracketIdx := indexOf text "</" lastIdx in
      if decide (angleBracketIdx <> -1) then
        writeString_loop fuel' text (angleBracketIdx + 2)
          (write (write st (substring text lastIdx angleBracketIdx)) "<\/")
      else
        write st (if decide (lastIdx = 0) then text else substring_from text lastIdx)
  end.

(** [writeString(text)] *)
Definition writeString (st : EncState) (text : string) : EncState :=
  let text := JSON_stringify text in
  writeString_loop (S (String.length text)) text 0 st.

(** [$addSyncFn$(funcStr, argCount, fn)] with [funcStr] given *)
Fixpoint syncFn_params (i : nat) (argCount : nat) : string :=
  match argCount with
  | O => EmptyString
  | S n =>
      ((if decide (i = O) then "p" else ",p") ++ String_int (Z.of_nat i)
         ++ syncFn_params (S i) n)%string
  end.

Definition addSyncFn (st : EncState) (funcStr : option string) (argCount : nat)
    (fn_text : string) : Z * EncState :=
  let isFullFn := bool_decide (funcStr = None) in
  let funcStr := default fn_text funcStr in
  match e_syncFnMap st !! funcStr with
  | Some id => (id, st)
  | None =>
      let id := Z.of_nat (length (e_syncFns st)) in
      let code :=
        if isFullFn then funcStr
        else ("(" ++ syncFn_params 0 argCount ++ ")=>" ++ funcStr)%string in
      (id, mkEnc (e_ctx st) (e_world st) (e_out st) (e_depth st)
             (e_syncFns st ++ [code]) (<[funcStr := id]> (e_syncFnMap st))
             (e_renderSymbols st) (e_resources st))
  end.

(** The state in which [serialize] starts. *)
Definition initial_enc (ctx : SerializationContext) (w : World) : EncState :=
  mkEnc ctx w [] (-1) [] ∅ [] [].

Section Encoder.
(** [String(x)] of a finite number: its default decimal text. *)
Variable Number_toString : finite -> string.
(** [fn.toString()] *)
Variable Function_toString : value -> string.
(** [btoa(text)] *)
Variable btoa : string -> string.
Variable host : Host.
Variable NodeConstructor : bool.
(** The [[Get]] of the object model, for reads of properties. *)
Variable G : World -> value -> PropertyKey -> result (value * World).
(** [qrlToString(serializationContext, qrl)]: the text depends on the
    platform's chunk resolution and is not interpreted here. *)
Variable qrlToString : EncState -> value -> result (string * EncState).

Definition number_toString (n : number) : string :=
  match n with
  | NaN => "NaN"
  | Infinity => "Infinity"
  | NegInfinity => "-Infinity"
  | Finite x => Number_toString x
  end.

(** String conversion of a value inside a concatenation. *)
Definition ToString (v : value) : string :=
  match v with
  | VUndefined => "undefined"
  | VNull => "null"
  | VBool true => "true"
  | VBool false => "false"
  | VNumber n => number_toString n
  | VBigInt z => String_int z
  | VString s => s
  | VObject _ => "[object Object]"
  | VFunction _ => Function_toString v
  end.

(** [subscriptionManagerToString(manager, $addRoot$)] *)
Fixpoint subData (st : EncState) (i : nat) (sub : Subscriber) : string * EncState :=
  match sub with
  | [] => (EmptyString, st)
  | x :: sub' =>
      if decide (i = SubscriptionProp.TYPE) then
        let '(s, st') := subData st (S i) sub' in ((ToString x ++ s)%string, st')
      else
        let '(id, st1) := enc_addRoot st x in
        let '(s, st2) := subData st1 (S i) sub' in
        ((" " ++ String_int id ++ s)%string, st2)
  end.

Fixpoint subsData (st : EncState) (subs : list Subscriber) : list string * EncState :=
  match subs with
  | [] => ([], st)
  | sub :: subs' =>
      let '(s, st1) := subData st 0 sub in
      let '(ss, st2) := subsData st1 subs' in
      (s :: ss, st2)
  end.

Definition subscriptionManagerToString (st : EncState) (subs : list Subscriber)
  : string * EncState :=
  let '(data, st') := subsData st subs in (join ";" data, st').

(** [serializeProxy(value, proxy, ...)] *)
Definition serializeProxy (st : EncState) (proxy : value) : EncState :=
  let w := e_world st in
  let flags := match lookup_obj w proxy with Some (OStore _ f _) => f | _ => 0 end in
  let st := write (writeString st SC.Store_CHAR) ":" in
  let '(subs, st) :=
    subscriptionManagerToString st (default [] (getSubscriptionManager w proxy)) in
  writeString st (String_int flags ++ subs)%string.

(** [value.map($addRoot$)] *)
Fixpoint addRoots (st : EncState) (vs : list value) : list Z * EncState :=
  match vs with
  | [] => ([], st)
  | v :: vs' =>
      let '(id, st1) := enc_addRoot st v in
      let '(ids, st2) := addRoots st1 vs' in
      (id :: ids, st2)
  end.

(** [serializeSignalDerived(serializationContext, value, $addRoot$)] *)
Definition serializeSignalDerived (st : EncState) (a : addr) (func : value)
    (args : list value) (funcStr : option string) : string * EncState :=
  let funcStr :=
    match funcStr with
    | Some (String "{" _ as f) => Some ("(" ++ f ++ ")")%string
    | other => other
    end in
  let st := set_world st (update_obj (e_world st) a (OSignalDerived func (Some args) funcStr)) in
  let '(syncFnId, st) := addSyncFn st funcStr (length args) (Function_toString func) in
  let '(ids, st) := addRoots st args in
  let args := join " " (List.map String_int ids) in
  ((SC.DerivedSignal_CHAR ++ String_int syncFnId
      ++ (if String.eqb args EmptyString then EmptyString else " " ++ args))%string, st).

(** [serializeJSXType($addRoot$, type)] *)
Definition serializeJSXType (st : EncState) (type : value)
  : string * EncState :=
  match type with
  | VString s => (s, st)
  | _ =>
      if decide (type = Slot host) then (":slot", st)
      else if decide (type = Fragment host) then (":fragment", st)
      else let '(id, st') := enc_addRoot st type in (String_int id, st')
  end.

Section WithWriteValue.
(** [writeValue] at the nested calls. *)
Variable writeValue : EncState -> value -> Z -> result EncState.

(** [serializeArray(value, $writer$, writeValue)] *)
Fixpoint serializeArray_loop (st : EncState) (value : JS.value) (i : Z) (n : nat)
  : result EncState :=
  match n with
  | O => Ok st
  | S n' =>
      let st := if decide (i <> 0) then write st "," else st in
      '(x, w1) <- G (e_world st) value (PString (String_int i)) ;;
      st1 <- writeValue (set_world st w1) x i ;;
      serializeArray_loop st1 value (i + 1) n'
  end.

Definition serializeArray (st : EncState) (value : JS.value) : result EncState :=
  let st := write st "[" in
  '(len, w1) <- G (e_world st) value (PString "length") ;;
  st1 <- serializeArray_loop (set_world st w1) value 0 (length_bound len) ;;
  Ok (write st1 "]").

(** [serializeObjectProperties(...)] *)
Fixpoint serializeObjectProperties (st : EncState) (value : JS.value)
    (keys : list string) (delimiter : bool) : result EncState :=
  match keys with
  | [] => Ok st
  | key :: keys' =>
      '(x, w1) <- G (e_world st) value (PString key) ;;
      if fastSkipSerialize w1 x then
        serializeObjectProperties (set_world st w1) value keys' delimiter
      else
        let st := set_world st w1 in
        let st := if delimiter then write st "," else st in
        let st := write (writeString st key) ":" in
        '(x, w2) <- G (e_world st) value (PString key) ;;
        st1 <- writeValue (set_world st w2) x (-1) ;;
        serializeObjectProperties st1 value keys' true
  end.

(** [serializeObjectLiteral(...)] *)
Definition serializeObjectLiteral (st : EncState) (value : JS.value)
  : result EncState :=
  let proxy :=
    match value with
    | VObject a => storeProxyMap (e_world st) !! a
    | _ => None
    end in
  if isArray (e_world st) value then
    let st :=
      match proxy with
      | Some p =>
          write (writeString (write (serializeProxy (write st "{") p) ",")
                   SC.UNDEFINED_CHAR) ":"
      | None => st
      end in
    st1 <- serializeArray st value ;;
    Ok (if proxy is Some _ then write st1 "}" else st1)
  else
    let st := write st "{" in
    let st := match proxy with Some p => serializeProxy st p | None => st end in
    st1 <- serializeObjectProperties st value (own_keys (e_world st) value)
             (bool_decide (is_Some proxy)) ;;
    Ok (write st1 "}").


(** [getSerializableDataRootId(value)] in a concatenation; the
    [assertDefined] throws in development mode only. *)
Definition rootId_text (w : World) (value : JS.value) : result string :=
  match getSerializableDataRootId w value with
  | Some id => Ok (String_int id)
  | None => if isDev host then Throw "Missing SERIALIZABLE_ROOT_ID" else Ok "undefined"
  end.

(** [btoa(buf).replace(/=+$/, '')] *)
Fixpoint strip_padding (s : string) : string :=
  match s with
  | EmptyString => EmptyString
  | String c s' =>
      match strip_padding s' with
      | EmptyString => if Ascii.eqb c "=" then EmptyString else String c EmptyString
      | t => String c t
      end
  end.

Fixpoint bytes_to_string (bytes : list JS.value) : string :=
  match bytes with
  | VNumber (Finite (Dyadic z 0)) :: rest =>
      String (ascii_of_N (Z.to_N z)) (bytes_to_string rest)
  | _ :: rest => String zero (bytes_to_string rest)
  | [] => EmptyString
  end.

(** The pairs [[key, value]] that the [FormData] case collects. *)
Fixpoint formData_pairs (w : World) (entries : list (JS.value * JS.value))
  : result (list JS.value * World) :=
  match entries with
  | [] => Ok ([], w)
  | (k, x) :: rest =>
      '(x', w1) <- (match x with
                    | VString _ => Ok (x, w)
                    | _ => G w x (PString "name")
                    end) ;;
      let '(a, w2) := alloc w1 (OArray [k; x']) in
      '(ps, w3) <- formData_pairs w2 rest ;;
      Ok (VObject a :: ps, w3)
  end.

Definition isResource (w : World) (value : JS.value) : bool :=
  match lookup_obj w (underlying w value) with
  | Some (OLiteral props _) =>
      bool_decide (assoc "__brand" props = Some (Data (VString "resource")))
  | _ => false
  end.

(** [writeObjectValue(value, idx)] *)
Definition writeObjectValue (st : EncState) (value : JS.value) (idx : Z)
  : result EncState :=
  let w := e_world st in
  let seen := if decide (e_depth st <= 1) then None else wasSeen (e_ctx st) value in
  let tagged_id (tag : string) (x : JS.value) :=
    let '(id, st') := enc_addRoot st x in
    Ok (writeString st' (tag ++ String_int id)%string) in
  if fastSkipSerialize w value then Ok (writeString st SC.UNDEFINED_CHAR)
  else if (if seen is Some n then bool_decide (0 <= n) else false) then
    Ok (writeString st (SC.REFERENCE_CHAR ++ String_int (default 0 seen))%string)
  else
    match value, lookup_obj w value with
    | _, Some (OPropsProxy varProps constProps) =>
        let '(varId, st) := enc_addRoot st varProps in
        let '(constId, st) := enc_addRoot st constProps in
        Ok (writeString st
              (SC.PropsProxy_CHAR ++ String_int varId ++ " " ++ String_int constId)%string)
    | _, Some (OStore _ _ _) => tagged_id SC.Store_CHAR (unwrapProxy w value)
    | _, Some (OLiteral _ _ | OArray _ | OVNode _ | OProxy _) =>
        let st :=
          if isResource w value
          then mkEnc (e_ctx st) w (e_out st) (e_depth st) (e_syncFns st)
                 (e_syncFnMap st) (e_renderSymbols st) (e_resources st ++ [value])
          else st in
        serializeObjectLiteral st value
    | _, Some (OSignalImpl untrackedValue manager) =>
        let '(subscriptions, st) :=
          subscriptionManagerToString st (default [] manager) in
        let '(id, st) := enc_addRoot st untrackedValue in
        Ok (writeString st
              (SC.Signal_CHAR ++ String_int id
                 ++ (if String.eqb subscriptions EmptyString then EmptyString
                     else ";" ++ subscriptions))%string)
    | VObject a, Some (OSignalDerived func args funcStr) =>
        let '(text, st) :=
          serializeSignalDerived st a func (default [] args) funcStr in
        Ok (writeString st text)
    | _, Some (OSignalWrapper ref prop) =>
        let '(id, st) := enc_addRoot st ref in
        Ok (writeString st
              (SC.SignalWrapper_CHAR ++ String_int id ++ " " ++ ToString prop)%string)
    | _, Some (OURL href) => Ok (writeString st (SC.URL_CHAR ++ href)%string)
    | _, Some (ODate text) => Ok (writeString st (SC.Date_CHAR ++ text)%string)
    | _, Some (ORegExp source flags) =>
        Ok (writeString st (SC.Regex_CHAR ++ "/" ++ source ++ "/" ++ flags)%string)
    | _, Some (OError props) =>
        let errorProps :=
          fold_left (fun acc kv => assoc_set kv.1 (Data kv.2) acc) props
            [("message", Data (default (VString EmptyString) (assoc "message" props)));
             ("stack", Data (if isDev host then default VUndefined (assoc "stack" props)
                             else VString "<hidden>"))] in
        let '(e, w1) := alloc w (OLiteral errorProps None) in
        let '(id, st) := enc_addRoot (set_world st w1) (VObject e) in
        Ok (writeString st (SC.Error_CHAR ++ String_int id)%string)
    | VObject a, Some (ONode _) =>
        if NodeConstructor then
          let id := String_int idx in
          Ok (writeString (set_world st (update_obj w a (ONode id)))
                (SC.VNode_CHAR ++ id)%string)
        else Throw "implement: "
    | _, Some (OFormData entries) =>
        '(pairs, w1) <- formData_pairs w entries ;;
        let '(arr, w2) := alloc w1 (OArray pairs) in
        let '(id, st) := enc_addRoot (set_world st w2) (VObject arr) in
        Ok (writeString st (SC.FormData_CHAR ++ String_int id)%string)
    | _, Some (OURLSearchParams text) =>
        Ok (writeString st (SC.URLSearchParams_CHAR ++ text)%string)
    | _, Some (OSet _ _) =>
        id <- rootId_text w value ;; Ok (writeString st (SC.Set_CHAR ++ id)%string)
    | _, Some (OMap _ _) =>
        id <- rootId_text w value ;; Ok (writeString st (SC.Map_CHAR ++ id)%string)
    | _, Some (OJSXNode type _ varProps constProps children flags key) =>
        let '(typeText, st) := serializeJSXType st type in
        let '(varId, st) := enc_addRoot st varProps in
        let '(constId, st) := enc_addRoot st constProps in
        let '(childrenId, st) := enc_addRoot st children in
        Ok (writeString st
              (SC.JSXNode_CHAR ++ typeText ++ " " ++ String_int varId ++ " "
                 ++ String_int constId ++ " " ++ String_int childrenId ++ " "
                 ++ number_toString flags ++ " "
                 ++ (if falsy key then EmptyString else ToString key))%string)
    | _, Some (OTask flags index el qrl state) =>
        let '(elId, st) := enc_addRoot st el in
        '(qrlText, st) <- qrlToString st qrl ;;
        let '(stateText, st) :=
          match state with
          | VNull | VUndefined => (EmptyString, st)
          | _ => let '(id, st') := enc_addRoot st state in
                 ((" " ++ String_int id)%string, st')
          end in
        Ok (writeString st
              (SC.Task_CHAR ++ number_toString flags ++ " " ++ number_toString index
                 ++ " " ++ String_int elId ++ " " ++ qrlText ++ stateText)%string)
    | _, Some (OPromise _ _) =>
        id <- rootId_text w value ;; Ok (writeString st (SC.Promise_CHAR ++ id)%string)
    | _, Some (OUint8Array bytes) =>
        Ok (writeString st
              (SC.Uint8Array_CHAR ++ strip_padding (btoa (bytes_to_string bytes)))%string)
    | _, _ => Throw "implement: "
    end.
End WithWriteValue.

(** [writeValue(value, idx)] *)
Fixpoint writeValue (fuel : nat) (st : EncState) (value : JS.value)
    (idx : Z) : result EncState :=
  let w := e_world st in
  if fastSkipSerialize w value then Ok (writeString st SC.UNDEFINED_CHAR)
  else
    match value with
    | VBigInt z => Ok (writeString st (SC.BigInt_CHAR ++ String_int z)%string)
    | VBool b => Ok (write st (if b then "true" else "false"))
    | VFunction a =>
        match heap w !! a with
        | Some (OQrl _ _ _ _ _ _) =>
            '(text, st) <- qrlToString st value ;;
            Ok (writeString st (SC.QRL_CHAR ++ text)%string)
        | Some (OComponent qrl) =>
            let symbol :=
              match lookup_obj w qrl with
              | Some (OQrl _ symbol _ _ _ _) => symbol
              | _ => "undefined"
              end in
            let st := mkEnc (e_ctx st) w (e_out st) (e_depth st) (e_syncFns st)
                        (e_syncFnMap st) (e_renderSymbols st ++ [symbol])
                        (e_resources st) in
            '(text, st) <- qrlToString st qrl ;;
            Ok (writeString st (SC.Component_CHAR ++ text)%string)
        | _ => Ok (writeString st (Function_toString value))
        end
    | VNumber n =>
        match n with
        | NaN => Ok (writeString st SC.NotFinite_CHAR)
        | Infinity => Ok (writeString st (SC.NotFinite_CHAR ++ "+")%string)
        | NegInfinity => Ok (writeString st (SC.NotFinite_CHAR ++ "-")%string)
        | Finite x => Ok (write st (Number_toString x))
        end
    | VNull => Ok (set_depth (write (set_depth st (e_depth st + 1)) "null") (e_depth st))
    | VObject _ =>
        match fuel with
        | O => OutOfFuel
        | S fuel' =>
            st1 <- writeObjectValue (writeValue fuel')
                     (set_depth st (e_depth st + 1)) value idx ;;
            Ok (set_depth st1 (e_depth st1 - 1))
        end
    | VString s =>
        match (if shouldTrackObj value && bool_decide (0 < e_depth st)
               then hasRootId (e_ctx st) value else None) with
        | Some seenIdx => Ok (writeString st (SC.REFERENCE_CHAR ++ String_int seenIdx)%string)
        | None =>
            if code_lt (charCodeAt s 0) SC.LAST_VALUE
            then Ok (writeString st (SC.String_CHAR ++ s)%string)
            else Ok (writeString st s)
        end
    | VUndefined => Ok (writeString st SC.UNDEFINED_CHAR)
    end.

(** [serialize(serializationContext)]: [depth] starts at [-1] and the
    root list is written as one array. The root list is the array
    [roots] itself, held at [rootsArray] in the heap. *)
Definition serialize (fuel : nat) (ctx : SerializationContext)
    (w : World) (rootsArray : value) : result EncState :=
  writeValue fuel (initial_enc ctx w) rootsArray (-1).
End Encoder.

(** ** A sample session

    A host whose closures return a fresh empty object, and a container
    that resolves a root id to the object at that address. *)

Definition sample_host : Host :=
  {| call := fun _ _ w => let '(a, w') := alloc w (OLiteral [] None) in Ok (VObject a, w');
     atob := fun s => Ok s;
     BigInt_of_string := fun s =>
       match parseInt s with Finite (Dyadic z 0) => Ok z | _ => Throw "SyntaxError" end;
     vnode_getNode := fun v => v;
     Slot := VFunction 1000%nat;
     Fragment := VFunction 1001%nat;
     isDev := false;
     devBackChannel := fun _ => VNull |}.

Definition sample_container : DomContainer :=
  {| getObjectById := fun id =>
       match parseInt_value id with
       | Finite (Dyadic z 0) => VObject (Z.to_nat z)
       | _ => VUndefined
       end;
     getSyncFn := fun _ => VFunction 2000%nat;
     element := VNull;
     ownerDocument := VNull;
     vnode_locate := fun _ => VNull |}.

(** A container whose every id resolves to the object at address 1. *)
Definition array_container : DomContainer :=
  {| getObjectById := fun _ => VObject 1%nat;
     getSyncFn := fun _ => VFunction 2%nat;
     element := VNull;
     ownerDocument := VNull;
     vnode_locate := fun _ => VNull |}.


Definition empty_world : World :=
  {| heap := []; deserializedProxyMap := ∅; noSerialize := ∅;
     storeProxyMap := ∅; inflations := [] |}.

Definition world_of (h : list obj) : World := set_heap empty_world h.

(** A container that resolves a root id through the root table of a
    serialization context: the decoded form of a root is the root. *)
Definition root_container (ctx : SerializationContext) : DomContainer :=
  {| getObjectById := fun id =>
       match parseInt_value id with
       | Finite (Dyadic z 0) =>
           if decide (0 <= z) then default VUndefined (roots ctx !! Z.to_nat z)
           else VUndefined
       | _ => VUndefined
       end;
     getSyncFn := fun _ => VUndefined;
     element := VNull;
     ownerDocument := VNull;
     vnode_locate := fun _ => VNull |}.


(** ** Predicates used in the statements *)

(** The values [wrapDeserializerProxy] wraps: a non-null object that is an
    object literal or an array and is not a VNode. *)
Definition eligible (w : World) (v : value) : bool :=
  is_object v && isObjectLiteral w v && negb (vnode_isVNode w v).

(** Every entry of [deserializedProxyMap] was put there by
    [wrapDeserializerProxy]: it is a deserializer proxy. *)
Definition proxy_map_wf (w : World) : Prop :=
  forall a p, deserializedProxyMap w !! a = Some p -> isDeserializerProxy w p = true.

(** [key] can be assigned on the plain container at [a]: a string key of
    an object literal that is not a getter-only accessor, or an index of an
    array. *)
Definition settable (w : World) (a : addr) (key : PropertyKey) : Prop :=
  match heap w !! a, key with
  | Some (OLiteral props _), PString k => forall d, assoc k props <> Some (Getter d)
  | Some (OArray _), PString k => is_Some (array_index k)
  | _, _ => False
  end.

(** The string starts with a control-range character. *)
Definition control_leading (s : string) : Prop :=
  exists c, charCodeAt s 0 = Some c /\ c < SC.LAST_VALUE.

(** The text holds no space and no bracket, so [restString] reads it as
    one token. *)
Fixpoint no_separator (s : string) : bool :=
  match s with
  | EmptyString => true
  | String c s' =>
      let n := N_of_ascii c in
      negb ((n =? 32) || (n =? 91) || (n =? 93))%N && no_separator s'
  end.

(** The text is a run of decimal digits. *)
Fixpoint all_digits (s : string) : bool :=
  match s with
  | EmptyString => true
  | String c s' => (if digit_of c is Some _ then true else false) && all_digits s'
  end.

(** *** The frame of a lazy read *)

(** What the object model's [[Get]] and [[Set]] look at first: a plain
    container, a proxy with its target, or any other object. *)
Inductive shape :=
| Plain
| Proxied (t : value)
| Other.

Definition shape_of (o : obj) : shape :=
  match o with
  | OLiteral _ _ | OArray _ => Plain
  | OStore t _ _ | OProxy t => Proxied t
  | _ => Other
  end.

(** [chain w a o]: the value [o] is the object at [a], or a proxy that
    leads to it through the targets of proxies. *)
Inductive chain (w : World) (a : addr) : value -> Prop :=
| chain_here : chain w a (VObject a)
| chain_step o b t :
    lookup_obj w o = Some b -> shape_of b = Proxied t -> chain w a t ->
    chain w a o.

(** From [w] to [w'] no object disappears or changes its shape (the heap
    grows, and fields of objects are assigned). *)
Definition evolves (w w' : World) : Prop :=
  forall b o, heap w !! b = Some o ->
    exists o', heap w' !! b = Some o' /\ shape_of o' = shape_of o.

(** The plain container at [a] stores the value [v] under the key [k]. *)
Definition slot_holds (w : World) (a : addr) (k : string) (v : value) : Prop :=
  match heap w !! a with
  | Some (OLiteral props _) => assoc k props = Some (Data v)
  | Some (OArray elems) => exists i, array_index k = Some i /\ elems !! i = Some v
  | _ => False
  end.

(** No proxy has a dangling target. *)
Definition closed (w : World) : Prop :=
  forall b o t, heap w !! b = Some o -> shape_of o = Proxied t ->
    is_Some (lookup_obj w t).

(** The objects that the container resolves ids to are among the first
    [n] of the heap. *)
Definition container_closed (container : DomContainer) (n : nat) : Prop :=
  forall id c, getObjectById container id = VObject c -> (c < n)%nat.

(** Nothing in the proxy cache looks like a serialized payload. *)
Definition proxy_map_untagged (w : World) : Prop :=
  forall b p, deserializedProxyMap w !! b = Some p ->
    match p with VString _ => False | _ => True end.

(** The invariant of a read while the field [k] of the container at [a]
    holds [v]. *)
Definition frame (a : addr) (k : string) (v : value) (n : nat) (w : World) : Prop :=
  slot_holds w a k v /\ closed w /\ (n <= length (heap w))%nat /\
  proxy_map_untagged w.

(** The closures of derived signals compute: a call only allocates, and
    it makes no dangling proxy. *)
Definition host_allocates (host : Host) : Prop :=
  forall f args w r w', call host f args w = Ok (r, w') ->
    (exists ext, w' = set_heap w (heap w ++ ext)) /\ (closed w -> closed w').

(** *** Predicates and data used by further properties *)

(** The text holds no bracket (it may hold spaces). *)
Fixpoint no_bracket (s : string) : bool :=
  match s with
  | EmptyString => true
  | String c s' =>
      let n := N_of_ascii c in
      negb ((n =? 91) || (n =? 93))%N && no_bracket s'
  end.



(** [text] with every occurrence of ["</"], from the left, replaced by
    ["<\/"]. *)
Fixpoint escape_close (s : string) : string :=
  match s with
  | EmptyString => EmptyString
  | String c r =>
      match r with
      | String d r' =>
          if Ascii.eqb c "<" && Ascii.eqb d "/"
          then String "<" (String "\" (String "/" (escape_close r')))
          else String c (escape_close r)
      | EmptyString => String c EmptyString
      end
  end.

(** What the encoder keeps from one state of a session to a later one:
    [depth] is as before, the context has only moved by [$seen$] and
    [$addRoot$], and the writer has only been appended to. *)
Definition enc_keeps (st st' : EncState) : Prop :=
  e_depth st' = e_depth st /\
  rtc ctx_step (e_ctx st) (e_ctx st') /\
  e_out st `prefix_of` e_out st'.

(** * Properties of the serialization context *)

Lemma MIN_SAFE_INTEGER_neg : MIN_SAFE_INTEGER < 0.
Proof. reflexivity. Qed.

Lemma hasRootId_Some ctx obj id :
  hasRootId ctx obj = Some id <->
  map ctx !! obj = Some id /\ id <> MIN_SAFE_INTEGER.
Proof.
  unfold hasRootId. destruct (map ctx !! obj) as [i|].
  - destruct (decide (i = MIN_SAFE_INTEGER)) as [->|Hne].
    + split; [done|]. intros [[= <-] ?]. done.
    + split; [by intros [= <-]|]. by intros [[= <-] _].
  - split; [done|]. by intros [? _].
Qed.

Lemma ctx_inv_empty : ctx_inv createSerializationContext.
Proof. intros obj id H. simpl in H. by rewrite lookup_empty in H. Qed.

Lemma addRoot_rooted ctx obj id :
  hasRootId ctx obj = Some id -> addRoot ctx obj = (id, ctx).
Proof.
  intros [H Hne]%hasRootId_Some. unfold addRoot. rewrite H.
  by destruct (decide (id = MIN_SAFE_INTEGER)).
Qed.

Lemma addRoot_fresh ctx obj :
  hasRootId ctx obj = None ->
  addRoot ctx obj =
    (Z.of_nat (length (roots ctx)),
     {| map := <[obj := Z.of_nat (length (roots ctx))]> (map ctx);
        roots := roots ctx ++ [obj] |}).
Proof.
  unfold hasRootId, addRoot. destruct (map ctx !! obj) as [i|]; [|done].
  by destruct (decide (i = MIN_SAFE_INTEGER)).
Qed.

Lemma length_roots_not_sentinel (l : list value) :
  Z.of_nat (length l) <> MIN_SAFE_INTEGER.
Proof. pose proof MIN_SAFE_INTEGER_neg. lia. Qed.

Lemma addRoot_hasRootId ctx obj :
  hasRootId (addRoot ctx obj).2 obj = Some (addRoot ctx obj).1.
Proof.
  destruct (hasRootId ctx obj) as [id|] eqn:E.
  - by rewrite (addRoot_rooted _ _ _ E).
  - rewrite (addRoot_fresh _ _ E). simpl. apply hasRootId_Some. simpl.
    rewrite lookup_insert_eq. split; [done|apply length_roots_not_sentinel].
Qed.

Lemma ctx_step_inv ctx ctx' : ctx_step ctx ctx' -> ctx_inv ctx -> ctx_inv ctx'.
Proof.
  intros Hstep Hinv. destruct Hstep as [ctx obj|ctx obj Hunseen].
  - destruct (hasRootId ctx obj) as [id|] eqn:E.
    + by rewrite (addRoot_rooted _ _ _ E).
    + rewrite (addRoot_fresh _ _ E). intros o i. simpl.
      destruct (decide (obj = o)) as [->|Hne].
      * rewrite lookup_insert_eq. intros [= <-] _. split; [lia|].
        rewrite Nat2Z.id. by apply list_lookup_middle.
      * rewrite lookup_insert_ne by done. intros Ho Hi.
        destruct (Hinv o i Ho Hi) as [? Hr]. split; [done|].
        by apply lookup_app_l_Some.
  - intros o i. unfold seen. simpl.
    destruct (decide (obj = o)) as [->|Hne].
    + rewrite lookup_insert_eq. by intros [= <-] ?.
    + rewrite lookup_insert_ne by done. apply Hinv.
Qed.

Lemma ctx_step_rooted ctx ctx' obj id :
  ctx_step ctx ctx' -> hasRootId ctx obj = Some id -> hasRootId ctx' obj = Some id.
Proof.
  intros Hstep Hid. destruct Hstep as [ctx o|ctx o Hunseen].
  - destruct (hasRootId ctx o) as [i|] eqn:E.
    + by rewrite (addRoot_rooted _ _ _ E).
    + rewrite (addRoot_fresh _ _ E). apply hasRootId_Some in Hid as [Hm Hne].
      apply hasRootId_Some. simpl. split; [|done].
      rewrite lookup_insert_ne; [done|]. intros ->.
      unfold hasRootId in E. rewrite Hm in E.
      by destruct (decide (id = MIN_SAFE_INTEGER)).
  - apply hasRootId_Some in Hid as [Hm Hne]. apply hasRootId_Some.
    unfold seen. simpl. split; [|done].
    rewrite lookup_insert_ne; [done|]. intros ->.
    unfold wasSeen in Hunseen. congruence.
Qed.

Lemma ctx_step_prefix ctx ctx' :
  ctx_step ctx ctx' -> roots ctx `prefix_of` roots ctx'.
Proof.
  intros [c o|c o _]; [|done].
  destruct (hasRootId c o) as [i|] eqn:E.
  - by rewrite (addRoot_rooted _ _ _ E).
  - rewrite (addRoot_fresh _ _ E). simpl. by apply prefix_app_r.
Qed.

Lemma ctx_steps_inv ctx ctx' : rtc ctx_step ctx ctx' -> ctx_inv ctx -> ctx_inv ctx'.
Proof. induction 1; eauto using ctx_step_inv. Qed.

Lemma ctx_steps_rooted ctx ctx' obj id :
  rtc ctx_step ctx ctx' -> hasRootId ctx obj = Some id -> hasRootId ctx' obj = Some id.
Proof. induction 1; eauto using ctx_step_rooted. Qed.

Lemma ctx_steps_prefix ctx ctx' :
  rtc ctx_step ctx ctx' -> roots ctx `prefix_of` roots ctx'.
Proof.
  induction 1 as [|x y z Hxy _ IH]; [done|].
  etrans; [by apply ctx_step_prefix|done].
Qed.

Lemma ctx_inv_root ctx obj id :
  ctx_inv ctx -> hasRootId ctx obj = Some id ->
  0 <= id /\ roots ctx !! Z.to_nat id = Some obj.
Proof. intros Hinv [H Hne]%hasRootId_Some. by apply Hinv. Qed.

(** C4. Within one serialization context root ids are assigned
    monotonically: a newly promoted object receives the current length of
    the root list, and an already rooted object keeps its id. The root
    list is append-only, so an id is never reassigned: after any further
    [$addRoot$] calls and walker markings the object is still at its index,
    [$addRoot$] on it returns the same id, and no other object has that id. *)
Theorem root_ids_stable ctx ctx1 ctx2 obj id :
  rtc ctx_step createSerializationContext ctx ->
  addRoot ctx obj = (id, ctx1) ->
  rtc ctx_step ctx1 ctx2 ->
  (hasRootId ctx obj = None ->
     id = Z.of_nat (length (roots ctx)) /\ roots ctx1 = roots ctx ++ [obj]) /\
  (forall id0, hasRootId ctx obj = Some id0 -> id = id0 /\ ctx1 = ctx) /\
  roots ctx `prefix_of` roots ctx2 /\
  roots ctx2 !! Z.to_nat id = Some obj /\
  hasRootId ctx2 obj = Some id /\
  (addRoot ctx2 obj).1 = id /\
  (forall obj', hasRootId ctx2 obj' = Some id -> obj' = obj).
Proof.
  intros Hreach Hadd Hlater.
  assert (Hinv : ctx_inv ctx) by (eapply ctx_steps_inv; [done|apply ctx_inv_empty]).
  assert (Hstep : ctx_step ctx ctx1).
  { replace ctx1 with (addRoot ctx obj).2 by by rewrite Hadd. constructor. }
  assert (Hinv2 : ctx_inv ctx2).
  { eapply ctx_steps_inv; [done|]. by eapply ctx_step_inv. }
  assert (H1 : hasRootId ctx1 obj = Some id).
  { pose proof (addRoot_hasRootId ctx obj) as H. by rewrite Hadd in H. }
  assert (H2 : hasRootId ctx2 obj = Some id) by by eapply ctx_steps_rooted.
  destruct (ctx_inv_root _ _ _ Hinv2 H2) as [Hpos Hroot].
  split_and!.
  - intros E. rewrite (addRoot_fresh _ _ E) in Hadd. by inversion Hadd.
  - intros id0 E. rewrite (addRoot_rooted _ _ _ E) in Hadd. by inversion Hadd.
  - etrans; [by apply ctx_step_prefix|by apply ctx_steps_prefix].
  - done.
  - done.
  - by rewrite (addRoot_rooted _ _ _ H2).
  - intros obj' H'. destruct (ctx_inv_root _ _ _ Hinv2 H') as [_ Hr']. congruence.
Qed.

Lemma root_ids_stable_witness :
  let ctx := (addRoot createSerializationContext (VObject 7%nat)).2 in
  let ctx1 := (addRoot ctx (VObject 3%nat)).2 in
  let ctx2 := (addRoot (seen ctx1 (VObject 5%nat)) (VObject 5%nat)).2 in
  roots ctx2 !! 1%nat = Some (VObject 3%nat) /\ (addRoot ctx2 (VObject 3%nat)).1 = 1.
Proof.
  intros ctx ctx1 ctx2.
  assert (Hreach : rtc ctx_step createSerializationContext ctx).
  { eapply rtc_l; [apply step_addRoot|apply rtc_refl]. }
  assert (Hlater : rtc ctx_step ctx1 ctx2).
  { eapply rtc_l; [apply (step_seen ctx1 (VObject 5%nat)); reflexivity|].
    eapply rtc_l; [apply step_addRoot|apply rtc_refl]. }
  pose proof (root_ids_stable ctx ctx1 ctx2 (VObject 3%nat) 1 Hreach eq_refl Hlater)
    as (_ & _ & _ & Hroot & _ & Hsame & _).
  exact (conj Hroot Hsame).
Defined.

(** C1. The object that [$addRoot$] gives root id 0 (the first root of a
    context) is rooted, [$hasRootId$] reports id 0 for it, and yet
    [$getRootId$] throws on it: its guard [!id] also rejects the id 0. *)
Theorem getRootId_root0_throws obj :
  let ctx := (addRoot createSerializationContext obj).2 in
  (addRoot createSerializationContext obj).1 = 0 /\
  hasRootId ctx obj = Some 0 /\
  getRootId ctx obj = Throw "Missing root id for: ".
Proof.
  simpl. unfold hasRootId, getRootId, addRoot. simpl.
  rewrite lookup_empty. simpl. rewrite lookup_insert_eq. done.
Qed.

(** For every other root id [$getRootId$] does return the id, and it
    throws on an object that was never rooted. *)
Lemma getRootId_spec ctx obj :
  match hasRootId ctx obj with
  | Some id => if decide (id = 0) then getRootId ctx obj = Throw "Missing root id for: "
               else getRootId ctx obj = Ok id
  | None => getRootId ctx obj = Throw "Missing root id for: "
  end.
Proof.
  unfold hasRootId, getRootId. destruct (map ctx !! obj) as [i|]; [|done].
  destruct (decide (i = MIN_SAFE_INTEGER)) as [->|]; [done|].
  by destruct (decide (i = 0)).
Qed.

(** * Properties of the scalar paths of the encoder *)

Section EncoderScalars.
Variable Number_toString : finite -> string.
Variable Function_toString : value -> string.
Variable btoa : string -> string.
Variable host : Host.
Variable NodeConstructor : bool.
Variable G : World -> value -> PropertyKey -> result (value * World).
Variable qrlToString : EncState -> value -> result (string * EncState).

Local Abbreviation writeValue :=
  (writeValue Number_toString Function_toString btoa host NodeConstructor G qrlToString).



End EncoderScalars.


(** * Properties of the lazy deserialization wrapper *)

Lemma substring_0_length s : String.substring 0 (String.length s) s = s.
Proof. induction s as [|c s IH]; simpl; [done|by rewrite IH]. Qed.

Lemma substring_from_cons c s : substring_from (String c s) 1 = s.
Proof.
  unfold substring_from, substring, clamp, strlen. simpl String.length.
  rewrite Z.min_l by lia. rewrite Z.min_id, Z.max_r by lia.
  rewrite Z.max_r by lia. rewrite Nat2Z.id.
  rewrite Nat.min_l, Nat.max_r by lia.
  replace (Z.to_nat 1) with 1%nat by done. simpl.
  rewrite Nat.sub_0_r. apply substring_0_length.
Qed.

Lemma charCodeAt_CHAR code s :
  0 <= code < 256 -> charCodeAt (SC.CHAR code ++ s)%string 0 = Some code.
Proof.
  intros H. unfold charCodeAt, SC.CHAR. simpl.
  rewrite N_ascii_embedding by lia. f_equal. lia.
Qed.

Lemma charCodeAt_String_CHAR s :
  charCodeAt (SC.String_CHAR ++ s)%string 0 = Some SC.String_VALUE.
Proof. by apply (charCodeAt_CHAR SC.String_VALUE). Qed.

Lemma assoc_assoc_set {A} k (x : A) l : assoc k (assoc_set k x l) = Some x.
Proof.
  induction l as [|[k' y] l IH]; simpl.
  - by rewrite decide_True.
  - destruct (decide (k' = k)) as [->|Hne]; simpl.
    + by rewrite decide_True.
    + by rewrite decide_False.
Qed.

Lemma assoc_assoc_set_ne {A} k k' (x : A) l :
  k <> k' -> assoc k' (assoc_set k x l) = assoc k' l.
Proof.
  intros Hne. induction l as [|[k0 y] l IH]; simpl.
  - by rewrite decide_False.
  - destruct (decide (k0 = k)) as [->|Hne0]; simpl.
    + by rewrite !decide_False.
    + destruct (decide (k0 = k')); [done|apply IH].
Qed.

Lemma array_set_lookup l i x : array_set l i x !! i = Some x.
Proof.
  unfold array_set. destruct (decide (i < length l)%nat).
  - by apply list_lookup_insert_eq.
  - rewrite lookup_app_r by lia. rewrite lookup_app_r; rewrite length_replicate; [|lia].
    by replace (i - length l - (i - length l))%nat with 0%nat by lia.
Qed.

Lemma array_set_lookup_ne l i j x :
  i <> j -> (j < length l)%nat -> array_set l i x !! j = l !! j.
Proof.
  intros Hne Hj. unfold array_set. destruct (decide (i < length l)%nat).
  - by apply list_lookup_insert_ne.
  - by rewrite lookup_app_l.
Qed.

Lemma heap_update_eq w a o :
  (a < length (heap w))%nat -> heap (update_obj w a o) !! a = Some o.
Proof. intros H. simpl. by apply list_lookup_insert_eq. Qed.

Lemma heap_update_ne w a b o :
  a <> b -> heap (update_obj w a o) !! b = heap w !! b.
Proof. intros H. simpl. by apply list_lookup_insert_ne. Qed.

Lemma wrapDeserializerProxy_not_eligible w v :
  eligible w v = false -> wrapDeserializerProxy w v = (v, w).
Proof.
  unfold eligible, wrapDeserializerProxy. destruct v; try done. simpl.
  by intros ->.
Qed.

Lemma wrapDeserializerProxy_proxy w v :
  isDeserializerProxy w v = true -> wrapDeserializerProxy w v = (v, w).
Proof.
  unfold wrapDeserializerProxy. destruct v; try done. intros ->.
  by destruct (isObjectLiteral _ _ && _).
Qed.

Lemma isDeserializerProxy_eligible w p :
  isDeserializerProxy w p = true -> eligible w p = true.
Proof.
  unfold isDeserializerProxy, eligible, isObjectLiteral, vnode_isVNode, lookup_obj.
  destruct p as [| | | | | |a|]; try done. simpl.
  by destruct (heap w !! a) as [[]|].
Qed.

Lemma isDeserializerProxy_mono w w' p :
  (forall b o, heap w !! b = Some o -> heap w' !! b = Some o) ->
  isDeserializerProxy w p = true -> isDeserializerProxy w' p = true.
Proof.
  intros Hext. unfold isDeserializerProxy. destruct p as [| | | | | |c|]; try done.
  destruct (heap w !! c) as [o|] eqn:E; [|done]. by rewrite (Hext _ _ E).
Qed.

(** C10. [wrapDeserializerProxy] caches by identity and is idempotent: a
    second call on the same value returns the identical result without
    changing anything; wrapping the result returns it unchanged; an
    eligible value (a non-null object literal or array that is not a
    VNode) is answered by a deserializer proxy; a value that already is a
    deserializer proxy, and every non-eligible value, is returned as it
    is. *)
Theorem wrapDeserializerProxy_identity w v :
  proxy_map_wf w ->
  exists p w1,
    wrapDeserializerProxy w v = (p, w1) /\
    proxy_map_wf w1 /\
    wrapDeserializerProxy w1 v = (p, w1) /\
    wrapDeserializerProxy w1 p = (p, w1) /\
    (eligible w v = true -> isDeserializerProxy w1 p = true) /\
    (isDeserializerProxy w v = true -> p = v /\ w1 = w) /\
    (eligible w v = false -> p = v /\ w1 = w).
Proof.
  intros Hwf.
  destruct (eligible w v) eqn:Hel; last first.
  { pose proof (wrapDeserializerProxy_not_eligible _ _ Hel) as Hw.
    exists v, w. rewrite Hw.
    split_and!; try done;
      intros Hp; apply isDeserializerProxy_eligible in Hp; congruence. }
  destruct (isDeserializerProxy w v) eqn:Hp.
  { pose proof (wrapDeserializerProxy_proxy _ _ Hp) as Hw.
    exists v, w. rewrite Hw. by split_and!. }
  destruct v as [| | | | | |a|]; try done.
  assert (Hlit : isObjectLiteral w (VObject a) && negb (vnode_isVNode w (VObject a)) = true)
    by done.
  assert (Ha : (a < length (heap w))%nat).
  { apply andb_prop in Hlit as [Hlit _]. simpl in Hlit.
    destruct (heap w !! a) eqn:E; [|done]. by eapply lookup_lt_Some. }
  destruct (deserializedProxyMap w !! a) as [proxy|] eqn:Hmap.
  - pose proof (Hwf _ _ Hmap) as Hproxy.
    assert (Hnf : falsy proxy = false) by by destruct proxy.
    assert (Hw : wrapDeserializerProxy w (VObject a) = (proxy, w)).
    { unfold wrapDeserializerProxy. by rewrite Hlit, Hp, Hmap, Hnf. }
    exists proxy, w. rewrite Hw. split_and!; try done.
    by apply wrapDeserializerProxy_proxy.
  - set (p := length (heap w)).
    set (w1 := set_proxy (alloc w (OProxy (VObject a))).2 a (VObject p)).
    assert (Hw : wrapDeserializerProxy w (VObject a) = (VObject p, w1)).
    { unfold wrapDeserializerProxy. by rewrite Hlit, Hp, Hmap. }
    assert (Hheap : heap w1 = heap w ++ [OProxy (VObject a)]) by done.
    assert (Hsame : forall b, (b < length (heap w))%nat -> heap w1 !! b = heap w !! b).
    { intros b Hb. rewrite Hheap. by apply lookup_app_l. }
    assert (Hpp : isDeserializerProxy w1 (VObject p) = true).
    { simpl. by rewrite list_lookup_middle. }
    exists (VObject p), w1. rewrite Hw. split_and!; try done.
    + intros b q. simpl. destruct (decide (a = b)) as [<-|Hne].
      * rewrite lookup_insert_eq. by intros [= <-].
      * rewrite lookup_insert_ne by done. intros Hq.
        eapply isDeserializerProxy_mono; [|by eapply Hwf].
        intros b' o Hb'. rewrite Hsame; [done|by eapply lookup_lt_Some].
    + unfold wrapDeserializerProxy, isObjectLiteral, vnode_isVNode, lookup_obj,
        isDeserializerProxy in *.
      rewrite (Hsame a Ha). rewrite Hlit, Hp. simpl. by rewrite lookup_insert_eq.
    + by apply wrapDeserializerProxy_proxy.
Qed.

Lemma wrapDeserializerProxy_identity_witness :
  let w := world_of [OLiteral [("a", Data VNull)] None] in
  exists p w1,
    wrapDeserializerProxy w (VObject 0%nat) = (p, w1) /\
    wrapDeserializerProxy w1 (VObject 0%nat) = (p, w1) /\
    isDeserializerProxy w1 p = true.
Proof.
  intros w.
  destruct (wrapDeserializerProxy_identity w (VObject 0%nat)) as
    (p & w1 & H1 & _ & H2 & _ & H3 & _).
  { intros a p Hp. subst w. simpl in Hp. by rewrite lookup_empty in Hp. }
  exists p, w1. split_and!; [done|done|]. apply H3. reflexivity.
Defined.

Section WrapperFacts.
Variable host : Host.
Variable container : DomContainer.

Lemma Set_literal fuel w a props cp k v :
  heap w !! a = Some (OLiteral props cp) ->
  (forall d, assoc k props <> Some (Getter d)) ->
  Set_ (S fuel) w (VObject a) (PString k) v
  = Ok (true, update_obj w a (OLiteral (assoc_set k (Data v) props) cp)).
Proof.
  intros Ha Hk. simpl. rewrite Ha.
  destruct (assoc k props) as [[x|d]|] eqn:E; try done. by destruct (Hk d).
Qed.

Lemma Set_array fuel w a elems k i v :
  heap w !! a = Some (OArray elems) ->
  array_index k = Some i ->
  Set_ (S fuel) w (VObject a) (PString k) v
  = Ok (true, update_obj w a (OArray (array_set elems i v))).
Proof. intros Ha Hk. simpl. by rewrite Ha, Hk. Qed.

Lemma Get_literal_data fuel w a props cp k v :
  heap w !! a = Some (OLiteral props cp) ->
  assoc k props = Some (Data v) ->
  Get host container (S fuel) w (VObject a) (PString k) = Ok (v, w).
Proof. intros Ha Hk. simpl. by rewrite Ha, Hk. Qed.

Lemma Get_array_index fuel w a elems k i v :
  heap w !! a = Some (OArray elems) ->
  array_index k = Some i ->
  elems !! i = Some v ->
  Get host container (S fuel) w (VObject a) (PString k) = Ok (v, w).
Proof. intros Ha Hk Hi. simpl. by rewrite Ha, Hk, Hi. Qed.

Lemma allocate_string w s :
  allocate host w (SC.String_CHAR ++ s)%string = Ok (VString s, w).
Proof.
  unfold allocate. rewrite charCodeAt_String_CHAR.
  cbv -[substring_from]. by rewrite substring_from_cons.
Qed.

Lemma tagged_String_CHAR s :
  tagged (VString (SC.String_CHAR ++ s)%string)
  = Some ((SC.String_CHAR ++ s)%string, SC.String_VALUE).
Proof.
  unfold tagged. by rewrite charCodeAt_String_CHAR.
Qed.

Lemma control_leading_tagged s :
  control_leading s -> exists c, tagged (VString s) = Some (s, c).
Proof.
  intros (c & Hc & Hlt). exists c. unfold tagged. rewrite Hc.
  by rewrite decide_True.
Qed.

Lemma control_leading_not_cacheable s :
  control_leading s -> cacheable (VString s) = false.
Proof.
  intros (c & Hc & Hlt). unfold cacheable. rewrite Hc.
  apply bool_decide_eq_false. lia.
Qed.

(** A read of an escaped string through the [get] trap strips the
    escape and caches nothing. *)
Lemma handler_get_escaped G R w target k s :
  getProxyTarget w target = None ->
  G w target (PString k) = Ok (VString (SC.String_CHAR ++ s)%string, w) ->
  control_leading s ->
  DeserializationHandler_get host container G R w target (PString k)
  = Ok (VString s, w).
Proof.
  intros Hstore HG Hs. unfold DeserializationHandler_get.
  rewrite decide_False by done. rewrite Hstore, HG. cbn [bind].
  rewrite tagged_String_CHAR.
  rewrite !decide_False by done.
  rewrite bool_decide_eq_false_2 by done. cbn [andb].
  rewrite allocate_string. cbn [bind].
  by rewrite (control_leading_not_cacheable _ Hs).
Qed.

(** C8. Setting a property of a plain decoded container, through the
    wrapper, to a string [s] whose first character is in the control range
    stores the string-escape tag followed by [s]; a later read of the
    property through the wrapper returns exactly [s] and changes
    nothing. *)
Theorem escaped_write_read fuel w a key s :
  settable w a key ->
  control_leading s ->
  exists w1,
    proxy_set (S fuel) w (VObject a) key (VString s) = Ok (true, w1) /\
    Get host container (S fuel) w1 (VObject a) key
      = Ok (VString (SC.String_CHAR ++ s)%string, w1) /\
    proxy_get host container (S (S fuel)) w1 (VObject a) key = Ok (VString s, w1).
Proof.
  intros Hset Hs. unfold settable in Hset.
  destruct (heap w !! a) as [o|] eqn:Ha; [|done].
  assert (Hlt : (a < length (heap w))%nat) by by eapply lookup_lt_Some.
  destruct (control_leading_tagged _ Hs) as [c Htag].
  unfold proxy_set, proxy_get, DeserializationHandler_set. rewrite Htag.
  destruct o; try done; destruct key as [k|]; try done.
  - eexists. rewrite (Set_literal _ _ _ _ _ _ _ Ha Hset). split; [done|].
    assert (HG : forall f, Get host container (S f)
                (update_obj w a (OLiteral (assoc_set k (Data (VString (SC.String_CHAR ++ s)%string)) props) const_props))
                (VObject a) (PString k)
              = Ok (VString (SC.String_CHAR ++ s)%string,
                    update_obj w a (OLiteral (assoc_set k (Data (VString (SC.String_CHAR ++ s)%string)) props) const_props))).
    { intros f. eapply Get_literal_data; [by apply heap_update_eq|].
      apply assoc_assoc_set. }
    split; [apply HG|].
    apply handler_get_escaped; [|apply HG|done].
    unfold getProxyTarget, lookup_obj. by rewrite heap_update_eq.
  - destruct Hset as [i Hi].
    eexists. rewrite (Set_array _ _ _ _ _ _ _ Ha Hi). split; [done|].
    assert (HG : forall f, Get host container (S f)
                (update_obj w a (OArray (array_set elems i (VString (SC.String_CHAR ++ s)%string))))
                (VObject a) (PString k)
              = Ok (VString (SC.String_CHAR ++ s)%string,
                    update_obj w a (OArray (array_set elems i (VString (SC.String_CHAR ++ s)%string))))).
    { intros f. eapply Get_array_index; [by apply heap_update_eq|done|].
      apply array_set_lookup. }
    split; [apply HG|].
    apply handler_get_escaped; [|apply HG|done].
    unfold getProxyTarget, lookup_obj. by rewrite heap_update_eq.
Qed.
End WrapperFacts.

Lemma escaped_write_read_witness :
  let w := world_of [OLiteral [("title", Data (VString "old"))] None] in
  let s := (SC.Date_CHAR ++ "not a date")%string in
  exists w1,
    proxy_set 1 w (VObject 0%nat) (PString "title") (VString s) = Ok (true, w1) /\
    proxy_get sample_host sample_container 2 w1 (VObject 0%nat) (PString "title")
      = Ok (VString s, w1).
Proof.
  intros w s.
  destruct (escaped_write_read sample_host sample_container 0 w 0%nat
              (PString "title") s) as (w1 & H1 & _ & H2).
  - vm_compute. by intros d.
  - exists 3. by vm_compute.
  - by exists w1.
Defined.

(** * Properties of the graph walker *)




(** Case analysis on a [bind] that returned [Ok]. *)
Ltac destruct_bind H :=
  match type of H with
  | bind ?m _ = Ok _ =>
      let E := fresh "E" in
      destruct m as [[? ?]| |] eqn:E; simpl in H; [|discriminate H|discriminate H]
  end.


Section WalkerFacts.
Variable G : World -> value -> PropertyKey -> result (value * World).
Variable NodeConstructor : bool.

Local Abbreviation scan' := (scan G NodeConstructor).
Local Abbreviation walk_step' := (walk_step G NodeConstructor).




(** The scan' of an array pushes its elements, the last one on top. *)
Lemma scan_array st a elems :
  heap (w_world st) !! a = Some (OArray elems) ->
  fastSkipSerialize (w_world st) (VObject a) = false ->
  scan' st (VObject a)
  = Ok (mkWalk (w_ctx st) (w_world st) (rev elems ++ discoveredValues st) (promises st)).
Proof. intros Ha Hskip. unfold scan. by rewrite Ha, Hskip. Qed.
End WalkerFacts.



(** * Properties of the text primitives *)

Lemma string_app_cons c s t : (String c s ++ t)%string = String c (s ++ t)%string.
Proof. reflexivity. Qed.

Lemma string_app_nil_l t : (EmptyString ++ t)%string = t.
Proof. reflexivity. Qed.

Lemma string_app_nil (s : string) : (s ++ EmptyString)%string = s.
Proof.
  induction s as [|c s IH]; [done|]. rewrite string_app_cons. by f_equal.
Qed.

Lemma parse_digits_uint_acc d rest acc :
  parse_digits (NilEmpty.string_of_uint d ++ rest)%string (Npos acc)
  = parse_digits rest (Npos (Pos.of_uint_acc d acc)).
Proof.
  revert acc. induction d; intros acc; simpl;
    rewrite ?string_app_cons, ?string_app_nil_l; simpl; try done;
    rewrite <- IHd; f_equal; lia.
Qed.

Lemma parse_digits_uint d rest :
  parse_digits (NilEmpty.string_of_uint d ++ rest)%string 0
  = parse_digits rest (Pos.of_uint d).
Proof.
  induction d; simpl; rewrite ?string_app_cons, ?string_app_nil_l; simpl;
    try done; try (by rewrite <- parse_digits_uint_acc).
Qed.

Lemma all_digits_uint d : all_digits (NilEmpty.string_of_uint d) = true.
Proof. induction d; simpl; done. Qed.

Lemma parse_magnitude_digits s :
  s <> EmptyString -> all_digits s = true ->
  parse_magnitude s = Some (parse_digits s 0).
Proof.
  intros Hne Hd. destruct s as [|c s]; [done|].
  simpl in Hd. apply andb_prop in Hd as [Hc Hs].
  unfold parse_magnitude.
  destruct (digit_of c) eqn:Ec; [|done].
  destruct s as [|x s].
  - by destruct c as [[] [] [] [] [] [] [] []].
  - simpl in Hs. apply andb_prop in Hs as [Hx _].
    assert (Ascii.eqb x "x" || Ascii.eqb x "X" = false) as Hnx.
    { destruct (digit_of x) eqn:Ex; [|done].
      apply orb_false_intro; apply Ascii.eqb_neq; intros ->; discriminate Ex. }
    destruct c as [[] [] [] [] [] [] [] []]; try done; by rewrite Hnx.
Qed.

Lemma to_uint_nonempty p : NilEmpty.string_of_uint (Pos.to_uint p) <> EmptyString.
Proof.
  pose proof (DecimalPos.Unsigned.to_uint_nonnil p) as H.
  by destruct (Pos.to_uint p).
Qed.

Lemma skip_space_digits s :
  all_digits s = true -> skip_space s = s.
Proof.
  destruct s as [|c s]; [done|]. simpl. intros [Hc _]%andb_prop.
  by destruct c as [[] [] [] [] [] [] [] []].
Qed.

Lemma string_of_uint_pos p :
  NilZero.string_of_uint (Pos.to_uint p) = NilEmpty.string_of_uint (Pos.to_uint p).
Proof.
  pose proof (DecimalPos.Unsigned.to_uint_nonnil p) as H.
  unfold NilZero.string_of_uint. by destruct (Pos.to_uint p).
Qed.

Lemma parse_digits_pos p :
  parse_digits (NilEmpty.string_of_uint (Pos.to_uint p)) 0 = Npos p.
Proof.
  rewrite <- (string_app_nil (NilEmpty.string_of_uint _)).
  rewrite parse_digits_uint. simpl. apply DecimalPos.Unsigned.of_to.
Qed.

(** [parseInt(String(z)) = z] for every integer [z]. *)
Lemma parseInt_String_int z : parseInt (String_int z) = Int z.
Proof.
  unfold String_int, parseInt. destruct z as [|p|p]; simpl Z.to_int.
  - reflexivity.
  - unfold NilZero.string_of_int. rewrite string_of_uint_pos.
    set (ds := NilEmpty.string_of_uint (Pos.to_uint p)).
    assert (Hd : all_digits ds = true) by apply all_digits_uint.
    assert (Hne : ds <> EmptyString) by apply to_uint_nonempty.
    rewrite (skip_space_digits _ Hd).
    destruct ds as [|c s] eqn:E; [done|].
    assert (Hc : c <> "-"%char /\ c <> "+"%char).
    { simpl in Hd. apply andb_prop in Hd as [Hc _].
      split; intros ->; discriminate Hc. }
    replace (match String c s with
             | String "-"%char r => (true, r)
             | String "+"%char r => (false, r)
             | _ => (false, String c s)
             end) with (false, String c s).
    2:{ destruct Hc as [H1 H2].
        destruct c as [[] [] [] [] [] [] [] []]; try done. }
    rewrite parse_magnitude_digits by done.
    rewrite <- E. unfold ds. by rewrite parse_digits_pos.
  - unfold NilZero.string_of_int. rewrite string_of_uint_pos.
    set (ds := NilEmpty.string_of_uint (Pos.to_uint p)).
    assert (Hd : all_digits ds = true) by apply all_digits_uint.
    assert (Hne : ds <> EmptyString) by apply to_uint_nonempty.
    cbn [skip_space is_space]. simpl.
    rewrite parse_magnitude_digits by done.
    unfold ds. by rewrite parse_digits_pos.
Qed.



Lemma restString_loop_token len rem idx :
  no_separator rem = true -> restString_loop len rem idx 0 = len + 1.
Proof.
  revert idx. induction rem as [|c rem IH]; intros idx; [done|].
  simpl. intros [Hc Hrem]%andb_prop.
  apply negb_true_iff in Hc. apply orb_false_elim in Hc as [Hc H93].
  apply orb_false_elim in Hc as [H32 H91].
  apply N.eqb_neq in H32, H91, H93.
  rewrite (decide_False (P := Z.of_N (N_of_ascii c) = 91)) by lia.
  rewrite (decide_False (P := Z.of_N (N_of_ascii c) = 93)) by lia.
  rewrite decide_True by (right; lia). by apply IH.
Qed.



Lemma array_index_String_int i : array_index (String_int (Z.of_nat i)) = Some i.
Proof.
  unfold array_index. rewrite parseInt_String_int. unfold Int.
  rewrite decide_True by (split; [lia|done]). by rewrite Nat2Z.id.
Qed.

Lemma array_index_length : array_index "length" = None.
Proof. reflexivity. Qed.






(** * Properties of the decoder on containers *)

Section DecoderFacts.
Variable host : Host.
Variable container : DomContainer.

Local Abbreviation Get := (Get host container).
Local Abbreviation inflate := (inflate host container).



Lemma Get_array_hole fuel w c xs i :
  heap w !! c = Some (OArray xs) ->
  xs !! i = None ->
  Get (S fuel) w (VObject c) (index_key (Z.of_nat i)) = Ok (VUndefined, w).
Proof.
  intros Hc Hi. unfold index_key. simpl.
  by rewrite Hc, array_index_String_int, Hi.
Qed.







End DecoderFacts.

(** * Round trips through the walker, the encoder and the decoder *)



Lemma addRoot_root ctx obj :
  ctx_inv ctx ->
  0 <= (addRoot ctx obj).1 /\
  roots (addRoot ctx obj).2 !! Z.to_nat (addRoot ctx obj).1 = Some obj /\
  ctx_inv (addRoot ctx obj).2.
Proof.
  intros Hinv.
  assert (Hinv' : ctx_inv (addRoot ctx obj).2) by (eapply ctx_step_inv; [constructor|done]).
  destruct (ctx_inv_root _ _ _ Hinv' (addRoot_hasRootId ctx obj)). done.
Qed.

Section DecoderRoundTrip.
Variable host : Host.
Variable container : DomContainer.

Local Abbreviation Get := (Get host container).
Local Abbreviation inflate' := (inflate host container).







End DecoderRoundTrip.







Section RoundTrip.
Variable Number_toString : finite -> string.
Variable Function_toString : value -> string.
Variable btoa : string -> string.
Variable host : Host.
Variable NodeConstructor : bool.
Variable G : World -> value -> PropertyKey -> result (value * World).
Variable qrlToString : EncState -> value -> result (string * EncState).
Variable writeValue : EncState -> value -> Z -> result EncState.

Local Abbreviation writeObjectValue' :=
  (writeObjectValue Number_toString Function_toString btoa host NodeConstructor G
     qrlToString writeValue).


End RoundTrip.


Section PromiseRoundTrip.
Variable Number_toString : finite -> string.
Variable Function_toString : value -> string.
Variable btoa : string -> string.
Variable host : Host.
Variable NodeConstructor : bool.
Variable G : World -> value -> PropertyKey -> result (value * World).
Variable qrlToString : EncState -> value -> result (string * EncState).
Variable writeValue : EncState -> value -> Z -> result EncState.

Local Abbreviation writeObjectValue :=
  (writeObjectValue Number_toString Function_toString btoa host NodeConstructor G
     qrlToString writeValue).

End PromiseRoundTrip.



(** * The frame of a lazy read

    While a field of a decoded container holds a materialized value,
    nothing that a read can trigger (nested materializations, inflation,
    the upgrade of derived-signal fields, reactive-store writes) assigns
    that field again. *)

Lemma evolves_refl w : evolves w w.
Proof. intros b o H. eauto. Qed.

Lemma evolves_trans w1 w2 w3 : evolves w1 w2 -> evolves w2 w3 -> evolves w1 w3.
Proof.
  intros H12 H23 b o H. destruct (H12 _ _ H) as (o2 & H2 & E2).
  destruct (H23 _ _ H2) as (o3 & H3 & E3). exists o3. split; [done|congruence].
Qed.

Lemma evolves_heap_eq w w' : heap w' = heap w -> evolves w w'.
Proof. intros E b o H. rewrite E. eauto. Qed.

Lemma evolves_prefix w w' : heap w `prefix_of` heap w' -> evolves w w'.
Proof.
  intros [ext E] b o H. exists o. split; [|done]. rewrite E. by apply lookup_app_l_Some.
Qed.

Lemma evolves_update w b o o' :
  heap w !! b = Some o -> shape_of o' = shape_of o ->
  evolves w (update_obj w b o').
Proof.
  intros Hb Hp c oc Hc. destruct (decide (b = c)) as [<-|Hne].
  - exists o'. split; [|congruence]. apply heap_update_eq. by eapply lookup_lt_Some.
  - exists oc. by rewrite heap_update_ne.
Qed.

Lemma evolves_length w w' : evolves w w' -> (length (heap w) <= length (heap w'))%nat.
Proof.
  intros H. destruct (decide (length (heap w) = 0)%nat) as [E|Hne]; [lia|].
  destruct (lookup_lt_is_Some_2 (heap w) (length (heap w) - 1)) as [o Ho]; [lia|].
  destruct (H _ _ Ho) as (o' & Ho'%lookup_lt_Some & _). lia.
Qed.

Lemma evolves_lookup_obj w w' x o :
  evolves w w' -> lookup_obj w x = Some o ->
  exists o', lookup_obj w' x = Some o' /\ shape_of o' = shape_of o.
Proof. intros H. destruct x; simpl; try done; apply H. Qed.

(** A chain of proxies stays a chain. *)
Lemma chain_evolves w w' a o : evolves w w' -> chain w a o -> chain w' a o.
Proof.
  intros H. induction 1 as [|o b t Hb Hs _ IH]; [constructor|].
  destruct (evolves_lookup_obj _ _ _ _ H Hb) as (b' & Hb' & Hs').
  apply (chain_step _ _ _ b' t); [exact Hb'|by rewrite Hs'|exact IH].
Qed.

(** No chain appears later among objects that exist already. *)
Lemma chain_evolves_back w w' a o :
  evolves w w' -> closed w -> is_Some (lookup_obj w o) ->
  chain w' a o -> chain w a o.
Proof.
  intros H Hc Ho Hch. induction Hch as [|o b t Hb Hs _ IH]; [constructor|].
  destruct Ho as [b0 Hb0].
  destruct (evolves_lookup_obj _ _ _ _ H Hb0) as (b' & Hb' & Hs').
  assert (b' = b) as -> by congruence.
  assert (shape_of b0 = Proxied t) as Hs0 by congruence.
  apply (chain_step _ _ _ b0 t); [exact Hb0|exact Hs0|]. apply IH.
  destruct o; simpl in Hb0; try done; by eapply Hc.
Qed.

Lemma closed_heap_eq w w' : heap w' = heap w -> closed w -> closed w'.
Proof.
  intros E Hc b o t. unfold lookup_obj. rewrite E. apply Hc.
Qed.

Lemma lookup_obj_prefix w w' x :
  heap w `prefix_of` heap w' -> is_Some (lookup_obj w x) -> is_Some (lookup_obj w' x).
Proof.
  intros [ext E] [o Ho]. exists o. destruct x; simpl in *; try done;
    rewrite E; by apply lookup_app_l_Some.
Qed.

(** Allocation of a new object whose target, if it is a proxy, exists. *)
Lemma closed_alloc w o :
  closed w ->
  (forall t, shape_of o = Proxied t -> is_Some (lookup_obj w t)) ->
  closed (alloc w o).2.
Proof.
  intros Hc Ho b ob t Hb Hs. simpl in Hb.
  apply (lookup_obj_prefix w); [simpl; by apply prefix_app_r|].
  apply lookup_app_Some in Hb as [Hb|[_ Hb]]; [by eapply Hc|].
  apply list_lookup_singleton_Some in Hb as [_ <-]. by apply Ho.
Qed.

Lemma closed_update w b o o' :
  heap w !! b = Some o -> shape_of o' = shape_of o ->
  closed w -> closed (update_obj w b o').
Proof.
  intros Hb Hs Hc c oc t Hoc Hsc.
  assert (is_Some (lookup_obj w t)) as [ot Hot].
  { destruct (decide (b = c)) as [<-|Hne].
    - rewrite heap_update_eq in Hoc by (by eapply lookup_lt_Some).
      eapply Hc; [exact Hb|congruence].
    - rewrite heap_update_ne in Hoc by done. by eapply Hc. }
  destruct (evolves_lookup_obj _ _ _ _ (evolves_update _ _ _ _ Hb Hs) Hot) as (o2 & H2 & _).
  by exists o2.
Qed.

Lemma assoc_set_other {A} (k k' : string) (x : A) l :
  k' <> k -> assoc k (assoc_set k' x l) = assoc k l.
Proof.
  intros Hne. induction l as [|[k0 y] l IH]; simpl.
  - by rewrite decide_False.
  - destruct (decide (k0 = k')) as [->|Hk0]; simpl.
    + by rewrite !decide_False.
    + by rewrite IH.
Qed.

Lemma assoc_assoc_set_eq {A} (k : string) (x : A) l :
  assoc k (assoc_set k x l) = Some x.
Proof.
  induction l as [|[k0 y] l IH]; simpl.
  - by rewrite decide_True.
  - destruct (decide (k0 = k)) as [->|Hk0]; simpl.
    + by rewrite decide_True.
    + by rewrite decide_False.
Qed.

Lemma array_set_other (l : list value) i j x y :
  i <> j -> l !! j = Some y -> array_set l i x !! j = Some y.
Proof.
  intros Hne Hj. unfold array_set. case_decide.
  - by rewrite list_lookup_insert_ne.
  - by apply lookup_app_l_Some.
Qed.

Lemma array_set_lookup_eq (l : list value) i x : array_set l i x !! i = Some x.
Proof.
  unfold array_set. case_decide.
  - by apply list_lookup_insert_eq.
  - rewrite lookup_app_r by lia. rewrite lookup_app_r; rewrite length_replicate; [|lia].
    by replace (i - length l - (i - length l))%nat with 0%nat by lia.
Qed.

Lemma array_index_inj s s' i :
  array_index s = Some i -> array_index s' = Some i -> s = s'.
Proof.
  unfold array_index. intros H H'.
  destruct (parseInt s) as [| | |[z e]]; try done.
  destruct e; try done. case_decide as Hz; [|done].
  destruct (parseInt s') as [| | |[z' e']]; try done.
  destruct e'; try done. case_decide as Hz'; [|done].
  destruct Hz as [? <-], Hz' as [? <-]. simplify_eq. f_equal. lia.
Qed.

Lemma Ok_inj {A} (x y : A) : Ok x = Ok y -> x = y.
Proof. by intros [= ->]. Qed.

Lemma bind_Ok {A B} (m : result A) (f : A -> result B) y :
  bind m f = Ok y -> exists x, m = Ok x /\ f x = Ok y.
Proof. destruct m as [x| |]; simpl; [eauto|done|done]. Qed.

Section Frame.
Variable host : Host.
Variable container : DomContainer.
Variable a : addr.
Variable k : string.
Variable v : value.
Variable n0 : nat.
Hypothesis v_untagged : tagged v = None.
Hypothesis host_ok : host_allocates host.
Hypothesis container_ok : container_closed container n0.

Local Abbreviation good := (frame a k v n0).
Local Abbreviation step w w' := (evolves w w' /\ good w').

Lemma step_refl w : good w -> step w w.
Proof. split; [apply evolves_refl|done]. Qed.

Lemma step_trans w1 w2 w3 : step w1 w2 -> step w2 w3 -> step w1 w3.
Proof. intros [E1 _] [E2 G3]. split; [by eapply evolves_trans|done]. Qed.

Lemma good_in_heap w : good w -> (a < length (heap w))%nat.
Proof.
  intros [HP _]. unfold slot_holds in HP.
  destruct (heap w !! a) eqn:E; [|done]. by eapply lookup_lt_Some.
Qed.

Lemma good_plain w : good w -> exists o, heap w !! a = Some o /\ shape_of o = Plain.
Proof.
  intros [HP _]. unfold slot_holds in HP.
  destruct (heap w !! a) as [o|] eqn:E; [|done]. exists o. by destruct o.
Qed.

Lemma step_heap_eq w w' :
  heap w' = heap w -> proxy_map_untagged w' -> good w -> step w w'.
Proof.
  intros E Hm (HP & Hc & Hn & _). split; [by apply evolves_heap_eq|].
  split_and!; [unfold slot_holds; by rewrite E|by eapply closed_heap_eq|by rewrite E|done].
Qed.

Lemma step_alloc w o :
  (forall t, shape_of o = Proxied t -> is_Some (lookup_obj w t)) ->
  good w -> step w (set_heap w (heap w ++ [o])).
Proof.
  intros Ho (HP & Hc & Hn & Hm).
  split; [apply evolves_prefix; simpl; by apply prefix_app_r|].
  split_and!; [|by apply (closed_alloc w o)|simpl; rewrite length_app; lia|done].
  unfold slot_holds in *. simpl. destruct (heap w !! a) as [oa|] eqn:E; [|done].
  by rewrite (lookup_app_l_Some _ _ _ _ E).
Qed.

Lemma step_call w f args r w' :
  call host f args w = Ok (r, w') -> good w -> step w w'.
Proof.
  intros Hcall (HP & Hc & Hn & Hm). destruct (host_ok _ _ _ _ _ Hcall) as [[ext ->] Hcl].
  split; [apply evolves_prefix; simpl; by apply prefix_app_r|].
  split_and!; [|by apply Hcl|simpl; rewrite length_app; lia|done].
  unfold slot_holds in *. simpl. destruct (heap w !! a) as [oa|] eqn:E; [|done].
  by rewrite (lookup_app_l_Some _ _ _ _ E).
Qed.

(** An assignment to the fields of an object other than the container. *)
Lemma step_update_ne w b o o' :
  heap w !! b = Some o -> shape_of o' = shape_of o -> b <> a ->
  good w -> step w (update_obj w b o').
Proof.
  intros Hb Hs Hne (HP & Hc & Hn & Hm). split; [by eapply evolves_update|].
  split_and!; [|by eapply closed_update|simpl; by rewrite length_insert|done].
  unfold slot_holds. by rewrite heap_update_ne.
Qed.

Lemma step_update_other w b o o' :
  heap w !! b = Some o -> shape_of o' = shape_of o -> shape_of o = Other ->
  good w -> step w (update_obj w b o').
Proof.
  intros Hb Hs Ho Hg. eapply step_update_ne; try done.
  intros ->. destruct (good_plain _ Hg) as (oa & Ha & Hpl). congruence.
Qed.

(** An assignment to another key of a literal. *)
Lemma step_update_literal w b props cp props' cp' :
  heap w !! b = Some (OLiteral props cp) ->
  (b = a -> assoc k props' = assoc k props) ->
  good w -> step w (update_obj w b (OLiteral props' cp')).
Proof.
  intros Hb Hk Hg. destruct (decide (b = a)) as [->|Hne];
    [|by eapply step_update_ne].
  destruct Hg as (HP & Hc & Hn & Hm). split; [by eapply evolves_update|].
  split_and!; [|by eapply closed_update|simpl; by rewrite length_insert|done].
  unfold slot_holds in *. rewrite heap_update_eq by (by eapply lookup_lt_Some).
  rewrite Hb in HP. by rewrite Hk.
Qed.

(** An assignment to another index of an array. *)
Lemma step_update_array w b elems i x :
  heap w !! b = Some (OArray elems) ->
  (b = a -> array_index k <> Some i) ->
  good w -> step w (update_obj w b (OArray (array_set elems i x))).
Proof.
  intros Hb Hk Hg. destruct (decide (b = a)) as [->|Hne];
    [|by eapply step_update_ne].
  destruct Hg as (HP & Hc & Hn & Hm). split; [by eapply evolves_update|].
  split_and!; [|by eapply closed_update|simpl; by rewrite length_insert|done].
  unfold slot_holds in *. rewrite heap_update_eq by (by eapply lookup_lt_Some).
  rewrite Hb in HP. destruct HP as (j & Hj & Hv). exists j. split; [done|].
  apply array_set_other; [|done]. intros ->. by apply Hk.
Qed.

(** ** Allocation and the parts of inflation that read no property *)

Lemma parseQRL_step w qrl x w' :
  parseQRL host w qrl = (x, w') -> good w -> step w w'.
Proof.
  unfold parseQRL. intros [= <- <-] Hg. apply step_alloc; [by intros t; simpl|done].
Qed.

Lemma componentQrl_step w qrl x w' :
  componentQrl w qrl = (x, w') -> good w -> step w w'.
Proof.
  unfold componentQrl. intros [= <- <-] Hg. apply step_alloc; [by intros t; simpl|done].
Qed.

Lemma new_step w o x w' :
  new w o = Ok (x, w') -> shape_of o = Other -> good w -> step w w'.
Proof.
  unfold new. intros [= <- <-] Ho Hg. apply step_alloc; [|done].
  intros t. by rewrite Ho.
Qed.

Lemma allocate_step w payload x w' :
  allocate host w payload = Ok (x, w') -> good w -> step w w'.
Proof.
  unfold allocate. intros H Hg.
  repeat case_match; try discriminate.
  all: try (by eapply new_step; [eassumption|reflexivity|assumption]).
  all: try (by simplify_eq; apply step_refl).
  - apply Ok_inj in H. eapply parseQRL_step; [exact H|exact Hg].
  - apply Ok_inj in H.
    match goal with E : parseQRL _ _ _ = _ |- _ =>
      pose proof (parseQRL_step _ _ _ _ E Hg) as S1 end.
    eapply step_trans; [exact S1|]. eapply componentQrl_step; [exact H|apply S1].
  - destruct (BigInt_of_string host _); simpl in H; simplify_eq. by apply step_refl.
Qed.

Lemma ghost_inflation_step w target data :
  good w -> step w (ghost_inflation w target data).
Proof. intros Hg. apply step_heap_eq; [done|apply Hg|done]. Qed.

Lemma inflateQRL_step w qrl w' :
  inflateQRL container w qrl = Ok w' -> good w -> step w w'.
Proof.
  unfold inflateQRL. intros H Hg. destruct qrl as [| | | | | | |b]; try done.
  destruct (lookup_obj w (VFunction b)) as [o|] eqn:E; [|done].
  destruct o; try done. simplify_eq. by eapply step_update_other.
Qed.

Lemma wrapDeserializerProxy_step w x p w' :
  wrapDeserializerProxy w x = (p, w') -> good w -> step w w'.
Proof.
  unfold wrapDeserializerProxy. intros H Hg.
  assert (forall b, x = VObject b -> isObjectLiteral w x = true ->
    step w (set_proxy (set_heap w (heap w ++ [OProxy x])) b (VObject (length (heap w))))) as Hcreate.
  { intros b -> Hlit.
    assert (step w (set_heap w (heap w ++ [OProxy (VObject b)]))) as S1.
    { apply step_alloc; [|done]. intros t [= <-]. simpl in *.
      destruct (heap w !! b); [eauto|done]. }
    eapply step_trans; [exact S1|]. apply step_heap_eq; [done| |apply S1].
    intros c q. simpl. rewrite lookup_insert. case_decide; [by intros [= <-]|].
    apply Hg. }
  destruct x as [| | | | | |b|]; try (by simplify_eq; apply step_refl).
  destruct (isObjectLiteral w (VObject b)) eqn:Hlit; simpl in H;
    [|by simplify_eq; apply step_refl].
  destruct (negb (vnode_isVNode w (VObject b))); simpl in H;
    [|by simplify_eq; apply step_refl].
  destruct (heap w !! b) as [[]|] eqn:Hb; try (by simplify_eq; apply step_refl).
  all: destruct (deserializedProxyMap w !! b) as [proxy|].
  all: try destruct (falsy proxy); simplify_eq; try (by apply Hcreate); by apply step_refl.
Qed.

Lemma getOrCreateProxy_step w id p w' :
  getOrCreateProxy w (getObjectById container id) = Ok (p, w') ->
  good w -> step w w'.
Proof.
  unfold getOrCreateProxy. intros H Hg.
  destruct (getObjectById container id) as [| | | | | |c|] eqn:E; try done.
  destruct (storeProxyMap w !! c); [by simplify_eq; apply step_refl|].
  unfold alloc in H. simplify_eq.
  assert (step w (set_heap w (heap w ++ [OStore (VObject c) 0 []]))) as S1.
  { apply step_alloc; [|done]. intros t [= <-]. simpl.
    apply lookup_lt_is_Some_2. apply container_ok in E. destruct Hg as (_ & _ & ? & _). lia. }
  eapply step_trans; [exact S1|]. apply step_heap_eq; [done|apply S1|apply S1].
Qed.

Lemma derivedSignal_value_step w ds x w' :
  derivedSignal_value host w ds = Ok (x, w') -> good w -> step w w'.
Proof.
  unfold derivedSignal_value. intros H Hg.
  destruct (lookup_obj w ds) as [o|]; [|by simplify_eq; apply step_refl].
  destruct o; try (by simplify_eq; apply step_refl).
  destruct args; by eapply step_call.
Qed.

Lemma step_update_evolved w0 w b o0 o' :
  evolves w0 w -> heap w0 !! b = Some o0 ->
  shape_of o0 = Other -> shape_of o' = Other ->
  good w -> step w (update_obj w b o').
Proof.
  intros He Hb H0 Ho' Hg. destruct (He _ _ Hb) as (o & Ho & Hs).
  eapply step_update_other; [exact Ho|congruence|congruence|done].
Qed.

(** ** Inflation, given a [[Get]] that keeps the frame *)

Section FrameGet.
Variable G : World -> value -> PropertyKey -> result (value * World).

(** What a read keeps: the frame; through a chain to the container the
    field reads as an untagged value; unwrapping reads without effect and
    goes down the chain. *)
Hypothesis G_ok : forall w o key x w',
  good w -> G w o key = Ok (x, w') ->
  step w w' /\
  (chain w a o -> key = PString k -> tagged x = None) /\
  (key = PSymbol SERIALIZER_PROXY_UNWRAP ->
     w' = w /\ (falsy x = false -> chain w a o -> chain w a x)).

Lemma G_step w o key x w' : good w -> G w o key = Ok (x, w') -> step w w'.
Proof. intros Hg H. by destruct (G_ok _ _ _ _ _ Hg H). Qed.

Lemma inflate_set_step n : forall w b arr i w',
  good w -> inflate_set G w b arr i n = Ok w' -> step w w'.
Proof.
  induction n as [|n IH]; intros w b arr i w' Hg H; simpl in H.
  - simplify_eq. by apply step_refl.
  - destruct_bind H. pose proof (G_step _ _ _ _ _ Hg E) as S1.
    destruct (heap w0 !! b) as [o|] eqn:Hb; [|done]. destruct o; try done.
    assert (step w0 (update_obj w0 b (OSet (set_add elems v0) rootId))) as S2
      by (by eapply step_update_other; [exact Hb|..]; try apply S1).
    eapply step_trans; [exact S1|]. eapply step_trans; [exact S2|].
    eapply IH; [apply S2|exact H].
Qed.

Lemma inflate_map_step n : forall w b arr i w',
  good w -> inflate_map G w b arr i n = Ok w' -> step w w'.
Proof.
  induction n as [|n IH]; intros w b arr i w' Hg H; simpl in H.
  - simplify_eq. by apply step_refl.
  - destruct_bind H. pose proof (G_step _ _ _ _ _ Hg E) as S1.
    destruct_bind H. pose proof (G_step _ _ _ _ _ (proj2 S1) E0) as S2.
    destruct (heap w1 !! b) as [o|] eqn:Hb; [|done]. destruct o; try done.
    assert (step w1 (update_obj w1 b (OMap (map_set entries v0 v1) rootId))) as S3
      by (by eapply step_update_other; [exact Hb|..]; try apply S2).
    eapply step_trans; [exact S1|]. eapply step_trans; [exact S2|].
    eapply step_trans; [exact S3|]. eapply IH; [apply S3|exact H].
Qed.

Lemma inflate_formData_step n : forall w b arr i w',
  good w -> inflate_formData G w b arr i n = Ok w' -> step w w'.
Proof.
  induction n as [|n IH]; intros w b arr i w' Hg H; simpl in H.
  - simplify_eq. by apply step_refl.
  - destruct_bind H. pose proof (G_step _ _ _ _ _ Hg E) as S1.
    destruct_bind H. pose proof (G_step _ _ _ _ _ (proj2 S1) E0) as S2.
    destruct_bind H. pose proof (G_step _ _ _ _ _ (proj2 S2) E1) as S3.
    destruct (heap w2 !! b) as [o|] eqn:Hb; [|done]. destruct o; try done.
    assert (step w2 (update_obj w2 b (OFormData (entries ++ [(v1, v2)])))) as S4
      by (by eapply step_update_other; [exact Hb|..]; try apply S3).
    eapply step_trans; [exact S1|]. eapply step_trans; [exact S2|].
    eapply step_trans; [exact S3|]. eapply step_trans; [exact S4|].
    eapply IH; [apply S4|exact H].
Qed.

Lemma assign_props_step keys : forall w b src w',
  good w -> assign_props G w b src keys = Ok w' -> step w w'.
Proof.
  induction keys as [|key keys IH]; intros w b src w' Hg H; simpl in H.
  - simplify_eq. by apply step_refl.
  - destruct_bind H. pose proof (G_step _ _ _ _ _ Hg E) as S1.
    destruct (heap w0 !! b) as [o|] eqn:Hb; [|done]. destruct o; try done.
    assert (step w0 (update_obj w0 b (OError (assoc_set key v0 props)))) as S2
      by (by eapply step_update_other; [exact Hb|..]; try apply S1).
    eapply step_trans; [exact S1|]. eapply step_trans; [exact S2|].
    eapply IH; [apply S2|exact H].
Qed.

Lemma inflate_step w target data w' :
  good w -> inflate host container G w target data = Ok w' -> step w w'.
Proof.
  unfold inflate. intros Hg H.
  pose proof (ghost_inflation_step w target data Hg) as S0.
  set (wg := ghost_inflation w target data) in *.
  eapply step_trans; [exact S0|]. destruct S0 as [_ Hg0]. clearbody wg. clear Hg.
  repeat case_match; try discriminate.
  all: try (by eapply inflateQRL_step; [exact H|exact Hg0]).
  all: try (by apply Ok_inj in H; subst w'; apply step_refl).
  all: try (by apply Ok_inj in H; subst w';
            match goal with E : lookup_obj ?W _ = Some _ |- _ =>
              eapply (step_update_evolved W W); [apply evolves_refl|exact E|done|done|done] end).
  all: try (apply bind_Ok in H as ([len w1] & E & H);
            pose proof (G_step _ _ _ _ _ Hg0 E) as S1;
            eapply step_trans; [exact S1|];
            first [ eapply inflate_set_step; [apply S1|exact H]
                  | eapply inflate_map_step; [apply S1|exact H]
                  | eapply inflate_formData_step; [apply S1|exact H] ]).
  all: try (by eapply assign_props_step; [exact Hg0|exact H]).
  all: try (apply bind_Ok in H as (w2 & E & H); apply Ok_inj in H; subst w';
      match goal with
      | HQ : parseQRL _ _ _ = _, HL : lookup_obj _ _ = Some _ |- _ =>
          pose proof (parseQRL_step _ _ _ _ HQ Hg0) as S1;
          pose proof (inflateQRL_step _ _ _ E (proj2 S1)) as S2;
          eapply step_trans; [exact S1|]; eapply step_trans; [exact S2|];
          eapply (step_update_evolved _ w2);
            [exact (evolves_trans _ _ _ (proj1 S1) (proj1 S2))|exact HL|done|done|apply S2]
      end).
  apply bind_Ok in H as (buf & E & H). apply Ok_inj in H. subst w'.
  match goal with HL : lookup_obj _ _ = Some _ |- _ =>
    eapply (step_update_evolved wg wg); [apply evolves_refl|exact HL|done|done|done] end.
Qed.

(** [unwrapDeserializerProxy] reads without effect and goes down the chain. *)
Lemma unwrapDeserializerProxy_spec w x u w' :
  good w -> unwrapDeserializerProxy G w x = Ok (u, w') ->
  w' = w /\ (chain w a x -> chain w a u).
Proof.
  unfold unwrapDeserializerProxy. intros Hg H.
  destruct x; try (by simplify_eq).
  apply bind_Ok in H as ([u0 w1] & E & H). apply Ok_inj in H.
  destruct (G_ok _ _ _ _ _ Hg E) as (_ & _ & Hu).
  destruct (Hu eq_refl) as [-> Hch]. simplify_eq. split; [done|].
  destruct (falsy u0); [done|]. by apply Hch.
Qed.

Lemma wrapDeserializerProxy_untagged w x :
  good w -> tagged x = None -> tagged (wrapDeserializerProxy w x).1 = None.
Proof.
  intros (_ & _ & _ & Hm) Hx. unfold wrapDeserializerProxy.
  destruct x as [| | | | | |b|]; try done.
  repeat case_match; try done. simpl.
  match goal with E : deserializedProxyMap w !! b = Some ?p |- _ =>
    specialize (Hm _ _ E); by destruct p end.
Qed.

Lemma code_is_tagged s tag :
  code_is (charCodeAt s 0) tag = true -> tag < SC.LAST_VALUE ->
  tagged (VString s) = Some (s, tag).
Proof.
  unfold code_is, tagged. destruct (charCodeAt s 0) as [c|]; [|done].
  intros ->%bool_decide_eq_true Hlt. by rewrite decide_True.
Qed.

Lemma underlying_aux_chain n : forall w o c,
  underlying_aux n w o = VObject c -> chain w c o.
Proof.
  induction n as [|n IH]; intros w o c H; simpl in H; [subst; constructor|].
  destruct (lookup_obj w o) as [b|] eqn:Hb; [|subst; constructor].
  destruct b; try (subst; constructor).
  all: eapply chain_step; [exact Hb|reflexivity|by apply IH].
Qed.

(** ** The traps, given a [[Set]] that keeps the frame *)

Section FrameSet.
Variable R : World -> value -> PropertyKey -> value -> result (bool * World).

(** A write keeps the frame unless it goes to the field itself. *)
Hypothesis R_ok : forall w o key x b w',
  good w -> ~ (chain w a o /\ key = PString k) ->
  R w o key x = Ok (b, w') -> step w w'.

Lemma defineGetter_step w target key ds w' :
  good w -> ~ (chain w a target /\ key = k) ->
  defineGetter w target key ds = Ok w' -> step w w'.
Proof.
  unfold defineGetter. intros Hg Hno H.
  destruct (underlying w target) as [| | | | | |c|] eqn:Hu; try done.
  destruct (heap w !! c) as [o|] eqn:Hc; [|done]. destruct o; try done.
  apply Ok_inj in H. subst w'. eapply step_update_literal; [exact Hc| |done].
  intros ->. apply assoc_set_other. intros ->. apply Hno. split; [|done].
  by apply (underlying_aux_chain (length (heap w))).
Qed.

Lemma upgrade_loop_step keys : forall w target im w',
  good w -> im <> a -> is_Some (lookup_obj w target) ->
  upgrade_loop host container G w target im keys = Ok w' -> step w w'.
Proof.
  induction keys as [|key keys IH]; intros w target im w' Hg Him Ht H; simpl in H.
  - apply Ok_inj in H. subst. by apply step_refl.
  - apply bind_Ok in H as ([x w1] & E & H).
    destruct (G_ok _ _ _ _ _ Hg E) as (S1 & U1 & _).
    assert (is_Some (lookup_obj w1 target)) as Ht1.
    { destruct Ht as [ot Hot].
      destruct (evolves_lookup_obj _ _ _ _ (proj1 S1) Hot) as (o' & ? & _). eauto. }
    assert (upgrade_loop host container G w1 target im keys = Ok w' -> step w w') as Hskip.
    { intros H'. eapply step_trans; [exact S1|]. eapply IH; [apply S1|done|done|exact H']. }
    destruct x as [| | | | |text| |]; try (by apply Hskip).
    destruct (code_is (charCodeAt text 0) SC.DerivedSignal_VALUE) eqn:Hcode;
      [|by apply Hskip].
    apply bind_Ok in H as ([ds w2] & E2 & H).
    pose proof (allocate_step _ _ _ _ E2 (proj2 S1)) as S2.
    destruct (heap w2 !! im) as [o|] eqn:Him2; [|done]. destruct o; try done.
    apply bind_Ok in H as (w4 & E4 & H). apply bind_Ok in H as (w5 & E5 & H).
    assert (step w2 (update_obj w2 im (OLiteral (assoc_set key (Data ds) props) const_props)))
      as S3 by (eapply step_update_ne; [exact Him2|done|done|apply S2]).
    assert (step w (update_obj w2 im (OLiteral (assoc_set key (Data ds) props) const_props)))
      as S03 by (eapply step_trans; [exact S1|]; eapply step_trans; [exact S2|exact S3]).
    assert (step (update_obj w2 im (OLiteral (assoc_set key (Data ds) props) const_props)) w4)
      as S4.
    { eapply defineGetter_step; [apply S3| |exact E4]. intros [Hch ->].
      assert (chain w a target) as Hch0.
      { eapply chain_evolves_back; [exact (proj1 S03)|apply Hg|exact Ht|exact Hch]. }
      specialize (U1 Hch0 eq_refl).
      by rewrite (code_is_tagged _ _ Hcode) in U1. }
    pose proof (inflate_step _ _ _ _ (proj2 S4) E5) as S5.
    assert (step w w5) as S05
      by (eapply step_trans; [exact S03|]; eapply step_trans; [exact S4|exact S5]).
    eapply step_trans; [exact S05|]. eapply IH; [apply S05|done| |exact H].
    destruct Ht as [ot Hot].
    destruct (evolves_lookup_obj _ _ _ _ (proj1 S05) Hot) as (o' & ? & _). eauto.
Qed.

Lemma upgradePropsWithDerivedSignal_step w target property x w' :
  good w -> is_Some (lookup_obj w target) ->
  upgradePropsWithDerivedSignal host container G R w target property = Ok (x, w') ->
  step w w'.
Proof.
  unfold upgradePropsWithDerivedSignal, alloc. intros Hg Ht H.
  assert (step w (set_heap w (heap w ++ [OLiteral [] None]))) as S0
    by (by apply step_alloc).
  apply bind_Ok in H as (w1 & E1 & H). apply bind_Ok in H as ([b w2] & E2 & H).
  assert (step (set_heap w (heap w ++ [OLiteral [] None])) w1) as S1.
  { eapply upgrade_loop_step; [apply S0| | |exact E1].
    - pose proof (good_in_heap _ Hg). lia.
    - destruct Ht as [ot Hot].
      destruct (evolves_lookup_obj _ _ _ _ (proj1 S0) Hot) as (o' & ? & _). eauto. }
  assert (step w1 w2) as S2.
  { eapply R_ok; [apply S1| |exact E2]. by intros [_ ?]. }
  eapply step_trans; [exact S0|]. eapply step_trans; [exact S1|].
  eapply step_trans; [exact S2|]. eapply G_step; [apply S2|exact H].
Qed.

Lemma DeserializationHandler_set_step w target key x b w' :
  good w -> ~ (chain w a target /\ key = PString k) ->
  DeserializationHandler_set R w target key x = Ok (b, w') -> step w w'.
Proof.
  unfold DeserializationHandler_set. intros Hg Hno H.
  destruct (tagged x) as [[s c]|]; by eapply R_ok.
Qed.

Lemma chain_proxy_inv w o b t :
  good w -> lookup_obj w o = Some b -> shape_of b = Proxied t ->
  chain w a o -> chain w a t.
Proof.
  intros Hg Hb Hs Hch. inversion Hch as [E|o' b' t' Hb' Hs' Hch' E]; subst.
  - destruct (good_plain _ Hg) as (oa & Ha & Hpl). simpl in Hb. congruence.
  - congruence.
Qed.

Lemma lookup_obj_step w w' x :
  evolves w w' -> is_Some (lookup_obj w x) -> is_Some (lookup_obj w' x).
Proof.
  intros He [o Ho]. destruct (evolves_lookup_obj _ _ _ _ He Ho) as (o' & ? & _). eauto.
Qed.

Lemma DeserializationHandler_get_spec w target property x w' :
  good w -> is_Some (lookup_obj w target) ->
  DeserializationHandler_get host container G R w target property = Ok (x, w') ->
  step w w' /\
  (chain w a target -> property = PString k -> tagged x = None) /\
  (property = PSymbol SERIALIZER_PROXY_UNWRAP -> w' = w /\ x = target).
Proof.
  intros Hg Ht H. cbv beta delta [DeserializationHandler_get] in H.
  destruct (decide (property = PSymbol SERIALIZER_PROXY_UNWRAP)) as [Hprop|Hprop].
  { apply Ok_inj in H. simplify_eq. split; [by apply step_refl|by split]. }
  match type of H with (let proceed := ?f in _) = _ => set (proceed := f) in H end.
  assert (forall w0 x w', good w0 -> is_Some (lookup_obj w0 target) ->
            proceed w0 = Ok (x, w') ->
            step w0 w' /\ (chain w0 a target -> property = PString k -> tagged x = None))
    as Hproceed.
  { clear H Hg Ht x w' w. intros w0 x w' Hg Ht H. unfold proceed in H. clear proceed.
    apply bind_Ok in H as ([pv w1] & E & H).
    destruct (G_ok _ _ _ _ _ Hg E) as (S1 & U1 & _).
    destruct (tagged pv) as [[sv tc]|] eqn:Htag.
    2:{ apply Ok_inj in H. split.
        - eapply step_trans; [exact S1|].
          eapply wrapDeserializerProxy_step; [exact H|apply S1].
        - intros Hch Hk. replace x with (wrapDeserializerProxy w1 pv).1 by (by rewrite H).
          apply wrapDeserializerProxy_untagged; [apply S1|exact Htag]. }
    split; [|intros Hch Hk; specialize (U1 Hch Hk); congruence].
    eapply step_trans; [exact S1|]. cbv beta iota zeta in H.
    assert (forall r, (forall pv' w2, r = Ok (pv', w2) -> step w1 w2) ->
              bind r (fun '(propValue, w2) =>
                bind (if cacheable propValue then
                        bind (R w2 target property propValue) (fun '(_, w3) =>
                          if decide (SC.Error_VALUE <= tc)
                          then inflate host container G w3 propValue sv
                          else Ok w3)
                      else Ok w2)
                     (fun w4 => Ok (wrapDeserializerProxy w4 propValue)))
              = Ok (x, w') -> step w1 w') as Hfinish.
    { clear H. intros r Hr H.
      apply bind_Ok in H as ([pv' w2] & E2 & H). specialize (Hr _ _ E2).
      apply bind_Ok in H as (w4 & E4 & H). apply Ok_inj in H.
      assert (step w2 w4) as S4.
      { destruct (cacheable pv'); [|apply Ok_inj in E4; subst; apply step_refl, Hr].
        apply bind_Ok in E4 as ([b w3] & E3 & E4).
        assert (step w2 w3) as S3.
        { eapply R_ok; [apply Hr| |exact E3]. intros [Hch Hk].
          assert (chain w0 a target) as Hch0.
          { eapply chain_evolves_back; [|apply Hg|exact Ht|exact Hch].
            eapply evolves_trans; [apply S1|apply Hr]. }
          specialize (U1 Hch0 Hk). congruence. }
        case_decide.
        - eapply step_trans; [exact S3|]. eapply inflate_step; [apply S3|exact E4].
        - apply Ok_inj in E4. by subst. }
      eapply step_trans; [exact Hr|]. eapply step_trans; [exact S4|].
      eapply wrapDeserializerProxy_step; [exact H|apply S4]. }
    destruct (decide (tc = SC.REFERENCE_VALUE)) as [_|_].
    { apply Hfinish in H; [done|]. intros pv' w2 Hu.
      apply unwrapDeserializerProxy_spec in Hu as [-> _]; [|apply S1].
      apply step_refl, S1. }
    destruct (decide (tc = SC.VNode_VALUE)) as [_|_].
    { apply Hfinish in H; [done|]. intros pv' w2 Hu. apply Ok_inj in Hu.
      injection Hu as _ <-. apply step_refl, S1. }
    destruct (decide (tc = SC.Store_VALUE)) as [_|_].
    { apply Hfinish in H; [done|]. intros pv' w2 Hu.
      eapply getOrCreateProxy_step; [exact Hu|apply S1]. }
    destruct (bool_decide (tc = SC.DerivedSignal_VALUE) && negb (isArray w1 target)).
    - apply bind_Ok in H as ([v' w2] & E2 & H). apply Ok_inj in H.
      assert (step w1 w2) as S2.
      { eapply upgradePropsWithDerivedSignal_step; [apply S1| |exact E2].
        eapply lookup_obj_step; [apply S1|exact Ht]. }
      eapply step_trans; [exact S2|].
      eapply wrapDeserializerProxy_step; [exact H|apply S2].
    - apply Hfinish in H; [done|]. intros pv' w2 Hu.
      eapply allocate_step; [exact Hu|apply S1]. }
  destruct (getProxyTarget w target) as [t2|] eqn:Hpt.
  2:{ destruct (Hproceed _ _ _ Hg Ht H) as [S U]. split; [done|by split]. }
  apply bind_Ok in H as ([u w1] & E1 & H).
  apply unwrapDeserializerProxy_spec in E1 as [-> Hu]; [|done].
  apply bind_Ok in H as ([upv w2] & E2 & H).
  destruct (G_ok _ _ _ _ _ Hg E2) as (S2 & U2 & _).
  assert (chain w a target -> chain w a u) as Hdown.
  { intros Hch. apply Hu. unfold unwrapProxy. rewrite Hpt.
    unfold getProxyTarget in Hpt. destruct (lookup_obj w target) as [b|] eqn:Hb; [|done].
    destruct b; try done. simplify_eq. by eapply chain_proxy_inv. }
  assert (proceed w2 = Ok (x, w') ->
          step w w' /\ (chain w a target -> property = PString k -> tagged x = None))
    as Hrest.
  { intros H'. apply Hproceed in H' as [S U];
      [|apply S2|eapply lookup_obj_step; [apply S2|exact Ht]].
    split; [by eapply step_trans|].
    intros Hch. apply U. eapply chain_evolves; [apply S2|exact Hch]. }
  destruct upv as [| | | | |s| |]; try (by destruct (Hrest H); split; [|split]).
  destruct (code_is (charCodeAt s 0) SC.String_VALUE) eqn:Hcode;
    [|by destruct (Hrest H); split; [|split]].
  split; [|split; [|done]].
  - eapply step_trans; [exact S2|]. eapply allocate_step; [exact H|apply S2].
  - intros Hch Hk. specialize (U2 (Hdown Hch) Hk).
    by rewrite (code_is_tagged _ _ Hcode) in U2.
Qed.
End FrameSet.
End FrameGet.

(** ** The object model keeps the frame *)

(** One step of [[Get]], by the kind of the object. *)
Lemma Get_S fuel w o key :
  Get host container (S fuel) w o key =
  match lookup_obj w o with
  | Some (OLiteral props cp) =>
      match key with
      | PString k =>
          match assoc k props with
          | Some (Data v) => Ok (v, w)
          | Some (Getter derivedSignal) => derivedSignal_value host w derivedSignal
          | None => Ok (VUndefined, w)
          end
      | PSymbol CONST_PROPS => Ok (default VUndefined cp, w)
      | PSymbol _ => Ok (VUndefined, w)
      end
  | Some (OArray elems) =>
      match key with
      | PString k =>
          match array_index k with
          | Some i => Ok (default VUndefined (elems !! i), w)
          | None =>
              if String.eqb k "length"
              then Ok (VNumber (Int (Z.of_nat (length elems))), w)
              else Ok (VUndefined, w)
          end
      | PSymbol _ => Ok (VUndefined, w)
      end
  | Some (OPropsProxy varProps constProps) =>
      match key with
      | PSymbol VAR_PROPS => Ok (varProps, w)
      | PSymbol CONST_PROPS => Ok (constProps, w)
      | _ => Ok (VUndefined, w)
      end
  | Some (OStore t _ _) => Get host container fuel w t key
  | Some (OProxy t) =>
      DeserializationHandler_get host container (Get host container fuel) (Set_ fuel) w t key
  | _ =>
      match o with
      | VUndefined | VNull => Throw "TypeError: Cannot read properties of undefined"
      | _ => Ok (VUndefined, w)
      end
  end.
Proof.
  destruct o; cbn [Get lookup_obj]; try reflexivity.
  all: destruct (heap w !! _) as [[]|]; reflexivity.
Qed.

(** One step of [[Set]], by the kind of the object. *)
Lemma Set_S fuel w o key x :
  Set_ (S fuel) w o key x =
  match lookup_obj w o with
  | Some (OStore t _ _) => Set_ fuel w t key x
  | Some (OProxy t) => DeserializationHandler_set (Set_ fuel) w t key x
  | Some (OLiteral props cp) =>
      match o, key with
      | VObject c, PString k =>
          match assoc k props with
          | Some (Getter _) => Ok (false, w)
          | _ => Ok (true, update_obj w c (OLiteral (assoc_set k (Data x) props) cp))
          end
      | VObject c, PSymbol CONST_PROPS => Ok (true, update_obj w c (OLiteral props (Some x)))
      | _, _ => Ok (true, w)
      end
  | Some (OArray elems) =>
      match o, key with
      | VObject c, PString k =>
          match array_index k with
          | Some i => Ok (true, update_obj w c (OArray (array_set elems i x)))
          | None => Ok (true, w)
          end
      | _, _ => Ok (true, w)
      end
  | _ =>
      match o with
      | VUndefined | VNull => Throw "TypeError: Reflect.set called on non-object"
      | _ => Ok (true, w)
      end
  end.
Proof.
  destruct o; cbn [Set_ lookup_obj]; try reflexivity.
  all: destruct (heap w !! _) as [[]|]; try reflexivity.
  all: destruct key as [|[]]; reflexivity.
Qed.

Lemma chain_plain_inv w o b :
  lookup_obj w o = Some b -> (forall t, shape_of b <> Proxied t) ->
  chain w a o -> o = VObject a.
Proof.
  intros Hb Hs Hch. inversion Hch as [E|o' b' t' Hb' Hs' Hch' E]; subst; [done|].
  rewrite Hb in Hb'. simplify_eq. by destruct (Hs t').
Qed.

Lemma Get_Set_frame fuel :
  (forall w o key x w',
     good w -> Get host container fuel w o key = Ok (x, w') ->
     step w w' /\
     (chain w a o -> key = PString k -> tagged x = None) /\
     (key = PSymbol SERIALIZER_PROXY_UNWRAP ->
        w' = w /\ (falsy x = false -> chain w a o -> chain w a x))) /\
  (forall w o key x b w',
     good w -> ~ (chain w a o /\ key = PString k) ->
     Set_ fuel w o key x = Ok (b, w') -> step w w').
Proof.
  induction fuel as [|fuel [IHG IHS]]; [by split|]. split.
  - intros w o key x w' Hg H. rewrite Get_S in H.
    assert (forall y, tagged y = None ->
              Ok (y, w) = Ok (x, w') ->
              falsy y = true \/ key <> PSymbol SERIALIZER_PROXY_UNWRAP ->
              step w w' /\
              (chain w a o -> key = PString k -> tagged x = None) /\
              (key = PSymbol SERIALIZER_PROXY_UNWRAP ->
                 w' = w /\ (falsy x = false -> chain w a o -> chain w a x))) as Hpure.
    { intros y Hy [= <- <-] Hf. split; [by apply step_refl|]. split; [done|].
      intros Hk. split; [done|]. intros Hfy. destruct Hf; congruence. }
    destruct (lookup_obj w o) as [b|] eqn:Hb.
    2:{ destruct o; try discriminate; by apply (Hpure VUndefined); auto. }
    destruct b; try (destruct o; try discriminate; by apply (Hpure VUndefined); auto).
    + (* an object literal *)
      destruct key as [k'|sym].
      2:{ destruct sym; [by apply (Hpure VUndefined); auto| |by apply (Hpure VUndefined); auto].
          apply Ok_inj in H. injection H as <- <-.
          split; [by apply step_refl|]. by split. }
      destruct (assoc k' props) as [[y|ds]|] eqn:Hk'; [| |by apply (Hpure VUndefined); auto].
      * apply Ok_inj in H. injection H as <- <-. split; [by apply step_refl|].
        split; [|done]. intros Hch [= ->].
        apply (chain_plain_inv _ _ _ Hb) in Hch as ->; [|done].
        destruct Hg as (HP & _). unfold slot_holds in HP. simpl in Hb. rewrite Hb in HP.
        congruence.
      * split; [by eapply derivedSignal_value_step|]. split; [|done]. intros Hch [= ->].
        apply (chain_plain_inv _ _ _ Hb) in Hch as ->; [|done].
        destruct Hg as (HP & _). unfold slot_holds in HP. simpl in Hb. rewrite Hb in HP.
        congruence.
    + (* an array *)
      destruct key as [k'|sym]; [|by apply (Hpure VUndefined); auto].
      destruct (array_index k') as [i|] eqn:Hi.
      2:{ destruct (String.eqb k' "length");
            [by eapply Hpure; [|exact H|..]; auto|by apply (Hpure VUndefined); auto]. }
      apply Ok_inj in H. injection H as <- <-. split; [by apply step_refl|].
      split; [|done]. intros Hch [= ->].
      apply (chain_plain_inv _ _ _ Hb) in Hch as ->; [|done].
      destruct Hg as (HP & _). unfold slot_holds in HP. simpl in Hb. rewrite Hb in HP.
      destruct HP as (j & Hj & Hv). rewrite Hi in Hj. injection Hj as ->.
      by rewrite Hv.
    + (* a props proxy *)
      destruct key as [k'|[]]; try (by apply (Hpure VUndefined); auto).
      all: apply Ok_inj in H; injection H as <- <-; split; [by apply step_refl|]; by split.
    + (* a reactive store *)
      destruct (IHG _ _ _ _ _ Hg H) as (S & U & Un). split; [done|]. split.
      * intros Hch. apply U. by eapply chain_proxy_inv.
      * intros Hk. destruct (Un Hk) as [-> Hdown]. split; [done|].
        intros Hf Hch. apply Hdown; [done|]. by eapply chain_proxy_inv.
    + (* a lazy wrapper *)
      assert (is_Some (lookup_obj w target)) as Ht.
      { destruct Hg as (_ & Hc & _). destruct o; try discriminate; by eapply Hc. }
      destruct (DeserializationHandler_get_spec _ IHG _ IHS _ _ _ _ _ Hg Ht H)
        as (S & U & Un).
      split; [done|]. split.
      * intros Hch. apply U. by eapply chain_proxy_inv.
      * intros Hk. destruct (Un Hk) as [-> ->]. split; [done|].
        intros _ Hch. by eapply chain_proxy_inv.
  - intros w o key x b w' Hg Hno H. rewrite Set_S in H.
    destruct (lookup_obj w o) as [ob|] eqn:Hb.
    2:{ destruct o; simplify_eq; by apply step_refl. }
    destruct ob; try (destruct o; simplify_eq; by apply step_refl).
    + destruct o as [| | | | | |c|]; try (simplify_eq; by apply step_refl).
      destruct key as [k'|[]]; try (simplify_eq; by apply step_refl).
      * assert (step w (update_obj w c (OLiteral (assoc_set k' (Data x) props) const_props))).
        { eapply step_update_literal; [exact Hb| |done]. intros ->.
          apply assoc_set_other. intros ->. apply Hno. split; [constructor|done]. }
        destruct (assoc k' props) as [[]|]; simplify_eq; try done. by apply step_refl.
      * apply Ok_inj in H. injection H as _ <-.
        eapply step_update_literal; [exact Hb|done|done].
    + destruct o as [| | | | | |c|]; try (simplify_eq; by apply step_refl).
      destruct key as [k'|]; [|simplify_eq; by apply step_refl].
      destruct (array_index k') as [i|] eqn:Hi; [|simplify_eq; by apply step_refl].
      apply Ok_inj in H. injection H as _ <-.
      eapply step_update_array; [exact Hb| |done]. intros -> Hk. apply Hno.
      split; [constructor|]. f_equal. by eapply array_index_inj.
    + eapply IHS; [done| |exact H]. intros [Hch Hk]. apply Hno. split; [|done].
      by eapply chain_step.
    + eapply (DeserializationHandler_set_step _ IHS); [done| |exact H].
      intros [Hch Hk]. apply Hno. split; [|done]. by eapply chain_step.
Qed.
End Frame.

(** * Two reads of a lazy field *)

(** Unwrapping reads without effect. *)
Lemma Get_unwrap_pure host container fuel : forall w o u w',
  Get host container fuel w o (PSymbol SERIALIZER_PROXY_UNWRAP) = Ok (u, w') -> w' = w.
Proof.
  induction fuel as [|fuel IH]; intros w o u w' H; [done|].
  rewrite Get_S in H. destruct (lookup_obj w o) as [b|]; [|by destruct o; simplify_eq].
  destruct b; try (by destruct o; simplify_eq).
  - by eapply IH.
  - unfold DeserializationHandler_get in H. rewrite decide_True in H by done. by simplify_eq.
Qed.

(** [allocate] makes a new object, or has no effect. *)
Lemma allocate_cases host w payload x w' :
  allocate host w payload = Ok (x, w') -> w' = w \/ cacheable x = true.
Proof.
  unfold allocate, new, alloc, parseQRL, componentQrl. intros H.
  repeat case_match; try discriminate; simplify_eq; auto.
  destruct (BigInt_of_string host _); simpl in H; simplify_eq. auto.
Qed.

Lemma cacheable_untagged x : cacheable x = true -> tagged x = None.
Proof.
  unfold cacheable, tagged. destruct x as [| | | | |s| |]; try done.
  destruct (charCodeAt s 0) as [c|]; [|done].
  intros Hc%bool_decide_eq_true. by rewrite decide_False by lia.
Qed.

Lemma not_cacheable_string x : cacheable x = false -> exists s, x = VString s.
Proof. destruct x; try done. eauto. Qed.

(** A value that was wrapped is wrapped to the same proxy again. *)
Lemma wrapDeserializerProxy_twice w x p w' :
  wrapDeserializerProxy w x = (p, w') -> wrapDeserializerProxy w' x = (p, w').
Proof.
  unfold wrapDeserializerProxy. intros H.
  destruct x as [| | | | | |b|]; try (by simplify_eq).
  destruct (isObjectLiteral w (VObject b) && negb (vnode_isVNode w (VObject b))) eqn:He;
    [|by simplify_eq; rewrite He].
  destruct (isDeserializerProxy w (VObject b)) eqn:Hp; [by simplify_eq; rewrite He, Hp|].
  assert (forall wn, wn = set_proxy (set_heap w (heap w ++ [OProxy (VObject b)])) b
                            (VObject (length (heap w))) ->
          wrapDeserializerProxy wn (VObject b) = (VObject (length (heap w)), wn)) as Hcreate.
  { intros wn ->. unfold wrapDeserializerProxy.
    assert (exists o, heap w !! b = Some o) as [o Ho].
    { simpl in He. destruct (heap w !! b); [eauto|done]. }
    assert (heap (set_proxy (set_heap w (heap w ++ [OProxy (VObject b)])) b
              (VObject (length (heap w)))) !! b = Some o) as Ho'
      by (simpl; by apply lookup_app_l_Some).
    unfold isObjectLiteral, vnode_isVNode, isDeserializerProxy, lookup_obj in *.
    rewrite Ho'. rewrite Ho in He, Hp. rewrite He, Hp. simpl.
    by rewrite lookup_insert_eq. }
  unfold alloc in H.
  destruct (deserializedProxyMap w !! b) as [proxy|] eqn:Hm.
  - destruct (falsy proxy) eqn:Hf; simplify_eq; [by apply Hcreate|].
    unfold wrapDeserializerProxy. by rewrite He, Hp, Hm, Hf.
  - simplify_eq. by apply Hcreate.
Qed.

Lemma Get_slot host container fuel w a k y :
  slot_holds w a k y ->
  Get host container (S fuel) w (VObject a) (PString k) = Ok (y, w).
Proof.
  unfold slot_holds. intros H. rewrite Get_S. simpl.
  destruct (heap w !! a) as [[]|]; try done.
  - by rewrite H.
  - destruct H as (i & -> & ->). done.
Qed.

Lemma getProxyTarget_slot w a k y :
  slot_holds w a k y -> getProxyTarget w (VObject a) = None.
Proof.
  unfold slot_holds, getProxyTarget. simpl. by destruct (heap w !! a) as [[]|].
Qed.

(** A read of an untagged field wraps what the field holds. *)
Lemma proxy_get_untagged host container fuel w a k y :
  slot_holds w a k y -> tagged y = None ->
  proxy_get host container (S fuel) w (VObject a) (PString k)
  = Ok (wrapDeserializerProxy w y).
Proof.
  intros Hs Hy. unfold proxy_get, DeserializationHandler_get.
  rewrite decide_False by done. rewrite (getProxyTarget_slot _ _ _ _ Hs).
  rewrite (Get_slot _ _ _ _ _ _ _ Hs). cbn [bind]. by rewrite Hy.
Qed.

(** The write of the [get] trap puts the materialized value in the field. *)
Lemma Set_slot fuel w a k y y' n b w' :
  frame a k y n w ->
  Set_ (S fuel) w (VObject a) (PString k) y' = Ok (b, w') ->
  evolves w w' /\ frame a k y' n w'.
Proof.
  intros (HP & Hc & Hn & Hm) H. rewrite Set_S in H. unfold slot_holds in HP. simpl in H.
  destruct (heap w !! a) as [o|] eqn:Ha; [|done]. destruct o; try done.
  - rewrite HP in H. apply Ok_inj in H. injection H as _ <-.
    split; [by eapply evolves_update|].
    split_and!; [|by eapply closed_update|simpl; by rewrite length_insert|done].
    unfold slot_holds. rewrite heap_update_eq by (by eapply lookup_lt_Some).
    apply assoc_assoc_set_eq.
  - destruct HP as (i & Hi & Hv). rewrite Hi in H. apply Ok_inj in H. injection H as _ <-.
    split; [by eapply evolves_update|].
    split_and!; [|by eapply closed_update|simpl; by rewrite length_insert|done].
    unfold slot_holds. rewrite heap_update_eq by (by eapply lookup_lt_Some).
    exists i. split; [done|]. apply array_set_lookup_eq.
Qed.

Lemma proxy_map_wf_untagged w : proxy_map_wf w -> proxy_map_untagged w.
Proof.
  intros Hwf b p Hp. apply Hwf in Hp. by destruct p.
Qed.

Lemma tagged_Some_inv s s' tc :
  tagged (VString s) = Some (s', tc) -> s' = s /\ charCodeAt s 0 = Some tc.
Proof.
  unfold tagged. destruct (charCodeAt s 0) as [c|]; [|done].
  case_decide; [|done]. by intros [= <- <-].
Qed.

(** C3, as the code has it. A field of a plain decoded container holds a
    tagged payload other than a derived signal on an object. If a read of
    the field through the wrapper returns, a second read returns the
    identical value and changes nothing, so nothing is inflated again;
    the first read wrote the materialized value into the field when that
    value is not a string that starts with a control character, and had
    no effect otherwise. *)
Theorem lazy_read_idempotent host container fuel w a k s x w1 :
  host_allocates host ->
  container_closed container (length (heap w)) ->
  closed w ->
  proxy_map_wf w ->
  slot_holds w a k (VString s) ->
  is_Some (tagged (VString s)) ->
  code_is (charCodeAt s 0) SC.DerivedSignal_VALUE = false \/ isArray w (VObject a) = true ->
  proxy_get host container fuel w (VObject a) (PString k) = Ok (x, w1) ->
  proxy_get host container fuel w1 (VObject a) (PString k) = Ok (x, w1) /\
  exists pv,
    wrapDeserializerProxy w1 pv = (x, w1) /\
    (cacheable pv = true -> slot_holds w1 a k pv) /\
    (cacheable pv = false -> w1 = w).
Proof.
  intros Hhost Hcont Hclosed Hwf Hslot [[s' tc] Htag] Hnd Hfirst.
  apply tagged_Some_inv in Htag as Hinv. destruct Hinv as [-> Hcode].
  pose proof Hfirst as H. unfold proxy_get, DeserializationHandler_get in H.
  rewrite decide_False in H by done. rewrite (getProxyTarget_slot _ _ _ _ Hslot) in H.
  destruct fuel as [|fuel]; [done|].
  rewrite (Get_slot _ _ _ _ _ _ _ Hslot) in H. cbn [bind] in H. rewrite Htag in H.
  set (n0 := length (heap w)) in *.
  assert (frame a k (VString s) n0 w) as Hg0.
  { split_and!; [done|done|done|by apply proxy_map_wf_untagged]. }
  assert (forall r,
            (forall pv w2, r = Ok (pv, w2) ->
               (evolves w w2 /\ frame a k (VString s) n0 w2) /\
               (w2 = w \/ cacheable pv = true)) ->
            bind r (fun '(propValue, w2) =>
              bind (if cacheable propValue then
                      bind (Set_ (S fuel) w2 (VObject a) (PString k) propValue)
                        (fun '(_, w3) =>
                           if decide (SC.Error_VALUE <= tc)
                           then inflate host container (Get host container (S fuel))
                                  w3 propValue s
                           else Ok w3)
                    else Ok w2)
                   (fun w4 => Ok (wrapDeserializerProxy w4 propValue)))
            = Ok (x, w1) ->
            proxy_get host container (S fuel) w1 (VObject a) (PString k) = Ok (x, w1) /\
            exists pv,
              wrapDeserializerProxy w1 pv = (x, w1) /\
              (cacheable pv = true -> slot_holds w1 a k pv) /\
              (cacheable pv = false -> w1 = w)) as Hfinish.
  { clear H. intros r Hr H.
    apply bind_Ok in H as ([pv w2] & E2 & H). destruct (Hr _ _ E2) as [S2 Hpure].
    apply bind_Ok in H as (w4 & E4 & H). apply Ok_inj in H.
    destruct (cacheable pv) eqn:Hc.
    - pose proof (cacheable_untagged _ Hc) as Hun.
      apply bind_Ok in E4 as ([b w3] & E3 & E4).
      destruct (Set_slot _ _ _ _ _ _ _ _ _ (proj2 S2) E3) as [_ Hg3].
      assert (frame a k pv n0 w4) as Hg4.
      { case_decide; [|apply Ok_inj in E4; by subst].
        eapply (inflate_step host container a k pv n0); [|exact Hg3|exact E4].
        intros. by eapply (Get_Set_frame host container a k pv n0 Hun Hhost Hcont (S fuel)). }
      assert (slot_holds w1 a k pv) as Hs1
        by (eapply wrapDeserializerProxy_step; [exact H|exact Hg4]).
      pose proof (wrapDeserializerProxy_twice _ _ _ _ H) as Htwice.
      split; [by rewrite (proxy_get_untagged _ _ _ _ _ _ _ Hs1 Hun), Htwice|].
      exists pv. split_and!; [done|done|congruence].
    - apply Ok_inj in E4. subst w4. destruct Hpure as [->|?]; [|congruence].
      destruct (not_cacheable_string _ Hc) as [s' ->]. simpl in H.
      injection H as <- <-. split; [exact Hfirst|].
      exists (VString s'). split_and!; [done|congruence|done]. }
  assert (bool_decide (tc = SC.DerivedSignal_VALUE) && negb (isArray w (VObject a)) = false)
    as Hnd'.
  { destruct Hnd as [Hd| ->]; [|by rewrite andb_false_r].
    unfold code_is in Hd. rewrite Hcode in Hd. by rewrite Hd. }
  rewrite Hnd' in H.
  destruct (decide (tc = SC.REFERENCE_VALUE)) as [_|_].
  { apply Hfinish in H; [done|]. intros pv w2 Hu.
    assert (w2 = w) as ->.
    { unfold unwrapDeserializerProxy in Hu.
      destruct (resolve_id _ _); try (by simplify_eq).
      apply bind_Ok in Hu as ([u wu] & Eu & Hu). apply Get_unwrap_pure in Eu as ->.
      by simplify_eq. }
    split; [|by left]. split; [apply evolves_refl|done]. }
  destruct (decide (tc = SC.VNode_VALUE)) as [_|_].
  { apply (Hfinish (Ok (if String.eqb s SC.VNode_CHAR then ownerDocument container
                          else vnode_locate container (substring_from s 1), w))) in H;
      [done|]. intros pv w2 Hu. apply Ok_inj in Hu.
    injection Hu as _ <-. split; [|by left]. split; [apply evolves_refl|done]. }
  destruct (decide (tc = SC.Store_VALUE)) as [_|_].
  { apply Hfinish in H; [done|]. intros pv w2 Hu. split.
    - eapply (getOrCreateProxy_step container a k (VString s) n0 Hcont); [exact Hu|exact Hg0].
    - unfold getOrCreateProxy, alloc in Hu. destruct (getObjectById _ _); try done.
      destruct (storeProxyMap w !! _); simplify_eq; auto. }
  apply Hfinish in H; [done|]. intros pv w2 Hu. split.
  - eapply allocate_step; [exact Hu|exact Hg0].
  - by eapply allocate_cases.
Qed.

Lemma sample_host_allocates : host_allocates sample_host.
Proof.
  intros f args w r w' [= <- <-]. split; [by eexists|].
  intros Hc. by apply (closed_alloc w (OLiteral [] None)).
Qed.

Lemma array_container_closed n : (1 < n)%nat -> container_closed array_container n.
Proof. intros Hn id c [= <-]. done. Qed.

Lemma lazy_read_idempotent_witness :
  let w := world_of [OLiteral [("p", Data (VString (SC.Set_CHAR ++ "1")))] None;
                     OArray [VNumber (Int 1); VNumber (Int 2)];
                     OFunction] in
  exists w1,
    proxy_get sample_host array_container 3 w (VObject 0%nat) (PString "p")
      = Ok (VObject 3%nat, w1) /\
    proxy_get sample_host array_container 3 w1 (VObject 0%nat) (PString "p")
      = Ok (VObject 3%nat, w1) /\
    lookup_obj w1 (VObject 3%nat)
      = Some (OSet [VNumber (Int 1); VNumber (Int 2)] None).
Proof.
  intros w. eexists. split; [reflexivity|]. split; [|reflexivity].
  refine (proj1 (lazy_read_idempotent sample_host array_container 3 w 0%nat "p"
                   (SC.Set_CHAR ++ "1") _ _ sample_host_allocates
                   (array_container_closed 3 ltac:(lia)) _ _ _ _ _ _)).
  - intros b o t Hb Hs. destruct b as [|[|[|b]]]; simpl in Hb; simplify_eq; done.
  - intros b p Hp. subst w. simpl in Hp. by rewrite lookup_empty in Hp.
  - reflexivity.
  - eexists. reflexivity.
  - left. reflexivity.
  - reflexivity.
Defined.

(** C3, as stated, fails on a derived-signal payload in an object: the
    first read does not put a materialized value in the field. It makes
    the field a computed accessor of the signal, and returns what the
    signal's closure computes; a closure that makes a new object gives
    each read another object. The payload itself is inflated once. *)
Lemma derived_signal_read_not_cached :
  let payload := (SC.DerivedSignal_CHAR ++ "0")%string in
  let w := world_of [OLiteral [("d", Data (VString payload))] None;
                     OArray [VNumber (Int 1); VNumber (Int 2)];
                     OFunction] in
  let target := VObject 0%nat in
  slot_holds w 0 "d" (VString payload) /\
  is_Some (tagged (VString payload)) /\
  exists w1 w2,
    proxy_get sample_host array_container 3 w target (PString "d")
      = Ok (VObject 6%nat, w1) /\
    proxy_get sample_host array_container 3 w1 target (PString "d")
      = Ok (VObject 8%nat, w2) /\
    VObject 6%nat <> VObject 8%nat /\
    lookup_obj w1 target
      = Some (OLiteral [("d", Getter (VObject 4%nat))] (Some (VObject 3%nat))) /\
    lookup_obj w1 (VObject 4%nat) = Some (OSignalDerived (VFunction 2%nat) (Some []) None) /\
    ~ slot_holds w1 0 "d" (VObject 6%nat) /\
    inflations w1 = [(VObject 4%nat, payload)] /\
    inflations w2 = inflations w1.
Proof.
  intros payload w target. split; [reflexivity|]. split; [by eexists|].
  eexists _, _. split_and!; try reflexivity; done.
Qed.

(** * More on the serialization context *)





(** X2. [$addRoot$] is idempotent, and [$getRootId$] reads back what it
    returned except for the id 0: a second [$addRoot$] of the same object
    returns the same id and changes nothing, [$hasRootId$] reports the id,
    and [$getRootId$] returns it unless it is 0, for which it throws. *)
Theorem addRoot_then_lookup ctx obj :
  let id := (addRoot ctx obj).1 in
  let ctx' := (addRoot ctx obj).2 in
  addRoot ctx' obj = (id, ctx') /\
  hasRootId ctx' obj = Some id /\
  getRootId ctx' obj = (if decide (id = 0) then Throw "Missing root id for: " else Ok id).
Proof.
  intros id ctx'. pose proof (addRoot_hasRootId ctx obj) as H. fold id ctx' in H.
  split_and!; [by apply addRoot_rooted|done|].
  pose proof (getRootId_spec ctx' obj) as Hs. rewrite H in Hs.
  by destruct (decide (id = 0)).
Qed.

(** * The closure table *)

(** X3. The closure table is keyed by the text alone: once a text is
    registered, registering it again returns the same id and leaves the
    table as it is, whatever the argument count and whether it comes as
    [funcStr] or as the text of a full function. The wrapper stored for
    the text is the one of the first registration. *)
Theorem addSyncFn_dedup st funcStr argCount fn_text funcStr' argCount' fn_text' :
  default fn_text funcStr = default fn_text' funcStr' ->
  let id := (addSyncFn st funcStr argCount fn_text).1 in
  let st' := (addSyncFn st funcStr argCount fn_text).2 in
  addSyncFn st' funcStr' argCount' fn_text' = (id, st') /\
  (e_syncFnMap st !! default fn_text funcStr = None ->
     id = Z.of_nat (length (e_syncFns st)) /\
     length (e_syncFns st') = S (length (e_syncFns st))) /\
  (is_Some (e_syncFnMap st !! default fn_text funcStr) -> st' = st).
Proof.
  intros Hkey id st'. subst id st'.
  destruct (e_syncFnMap st !! default fn_text funcStr) as [i|] eqn:E.
  - assert (addSyncFn st funcStr argCount fn_text = (i, st)) as ->
      by (unfold addSyncFn; by rewrite E).
    simpl. split_and!; [|done|done]. unfold addSyncFn. by rewrite <- Hkey, E.
  - destruct (addSyncFn st funcStr argCount fn_text) as [i st1] eqn:Hr.
    unfold addSyncFn in Hr. rewrite E in Hr. injection Hr as <- <-. simpl.
    split_and!; [| |by intros [? ?]].
    + unfold addSyncFn. simpl. rewrite <- Hkey. by rewrite lookup_insert_eq.
    + intros _. rewrite length_app. simpl. split; [done|lia].
Qed.

Lemma addSyncFn_dedup_witness :
  let st := initial_enc createSerializationContext empty_world in
  let st' := (addSyncFn st (Some "p0+p1") 2 "f").2 in
  addSyncFn st' (Some "p0+p1") 3 "g" = (0, st') /\
  e_syncFns st' = ["(p0,p1)=>p0+p1"].
Proof.
  intros st st'. split; [|reflexivity].
  exact (proj1 (addSyncFn_dedup st (Some "p0+p1"%string) 2 "f" (Some "p0+p1"%string) 3 "g"
                  eq_refl)).
Defined.

(** * More on the text primitives and the parse cursor *)

Lemma string_length_app (a b : string) :
  String.length (a ++ b) = (String.length a + String.length b)%nat.
Proof. induction a as [|c a IH]; [done|]. rewrite string_app_cons. simpl. by rewrite IH. Qed.

Lemma strlen_app (a b : string) : strlen (a ++ b) = strlen a + strlen b.
Proof. unfold strlen. rewrite string_length_app. lia. Qed.

Lemma strlen_nonneg s : 0 <= strlen s.
Proof. unfold strlen. lia. Qed.

Lemma string_app_assoc (a b c : string) : ((a ++ b) ++ c = a ++ (b ++ c))%string.
Proof.
  induction a as [|x a IH]; [by rewrite !string_app_nil_l|].
  rewrite !string_app_cons. by rewrite IH.
Qed.

Lemma String_substring_app_r (a b : string) n :
  String.substring (String.length a) n (a ++ b) = String.substring 0 n b.
Proof. induction a as [|c a IH]; [by rewrite string_app_nil_l|]. by rewrite string_app_cons. Qed.

Lemma String_substring_prefix (t b : string) :
  String.substring 0 (String.length t) (t ++ b) = t.
Proof.
  induction t as [|c t IH]; [by destruct b|]. rewrite string_app_cons. simpl. by rewrite IH.
Qed.

(** [(a + t + b).substring(a.length, a.length + t.length)] is [t]. *)
Lemma substring_mid (a t b : string) :
  substring (a ++ t ++ b) (strlen a) (strlen a + strlen t) = t.
Proof.
  unfold substring, clamp. rewrite !strlen_app.
  pose proof (strlen_nonneg a). pose proof (strlen_nonneg t). pose proof (strlen_nonneg b).
  replace (Z.to_nat (0 `max` (strlen a `min` (strlen a + (strlen t + strlen b)))))
    with (String.length a) by (unfold strlen in *; lia).
  replace (Z.to_nat (0 `max` ((strlen a + strlen t) `min` (strlen a + (strlen t + strlen b)))))
    with (String.length a + String.length t)%nat by (unfold strlen in *; lia).
  replace (String.length a `min` (String.length a + String.length t))%nat
    with (String.length a) by lia.
  replace ((String.length a `max` (String.length a + String.length t)) - String.length a)%nat
    with (String.length t) by lia.
  rewrite String_substring_app_r. apply String_substring_prefix.
Qed.

(** [(a + b).substring(a.length)] is [b]. *)
Lemma substring_from_app (a b : string) : substring_from (a ++ b) (strlen a) = b.
Proof.
  unfold substring_from. rewrite strlen_app.
  pose proof (substring_mid a b EmptyString) as H. by rewrite !string_app_nil in H.
Qed.

Lemma String_substring_0 n (s : string) : String.substring n 0 s = EmptyString.
Proof. revert n. induction s as [|c s IH]; intros [|n]; simpl; auto. Qed.

(** Past the end, [substring] is empty. *)
Lemma substring_past_end (s : string) i j :
  strlen s <= i -> strlen s <= j -> substring s i j = EmptyString.
Proof.
  intros Hi Hj. unfold substring, clamp. pose proof (strlen_nonneg s).
  replace (Z.to_nat (0 `max` (i `min` strlen s))) with (String.length s)
    by (unfold strlen in *; lia).
  replace (Z.to_nat (0 `max` (j `min` strlen s))) with (String.length s)
    by (unfold strlen in *; lia).
  rewrite Nat.min_id, Nat.max_id, Nat.sub_diag. apply String_substring_0.
Qed.

Lemma restString_loop_app len a rem idx :
  no_separator a = true ->
  restString_loop len (a ++ rem) idx 0 = restString_loop len rem (idx + strlen a) 0.
Proof.
  revert idx. induction a as [|c a IH]; intros idx.
  - intros _. rewrite string_app_nil_l. f_equal. unfold strlen. simpl. lia.
  - rewrite string_app_cons. simpl. intros [Hc Ha]%andb_prop.
    apply negb_true_iff in Hc. apply orb_false_elim in Hc as [Hc H93].
    apply orb_false_elim in Hc as [H32 H91].
    apply N.eqb_neq in H32, H91, H93.
    rewrite (decide_False (P := Z.of_N (N_of_ascii c) = 91)) by lia.
    rewrite (decide_False (P := Z.of_N (N_of_ascii c) = 93)) by lia.
    rewrite decide_True by (right; lia). rewrite IH by done.
    f_equal. unfold strlen. simpl. lia.
Qed.

(** Inside a bracket the loop runs on over spaces. *)
Lemma restString_loop_inside len u rem idx :
  no_bracket u = true ->
  restString_loop len (u ++ rem) idx 1 = restString_loop len rem (idx + strlen u) 1.
Proof.
  revert idx. induction u as [|c u IH]; intros idx.
  - intros _. rewrite string_app_nil_l. f_equal. unfold strlen. simpl. lia.
  - rewrite string_app_cons. simpl. intros [Hc Hu]%andb_prop.
    apply negb_true_iff in Hc. apply orb_false_elim in Hc as [H91 H93].
    apply N.eqb_neq in H91, H93.
    rewrite (decide_False (P := Z.of_N (N_of_ascii c) = 91)) by lia.
    rewrite (decide_False (P := Z.of_N (N_of_ascii c) = 93)) by lia.
    rewrite decide_True by (left; lia). rewrite IH by done.
    f_equal. unfold strlen. simpl. lia.
Qed.

Lemma restString_loop_group len u rem idx :
  no_bracket u = true ->
  restString_loop len ("[" ++ u ++ "]" ++ rem) idx 0
  = restString_loop len rem (idx + strlen u + 2) 0.
Proof.
  intros Hu. rewrite string_app_cons, string_app_nil_l.
  change (restString_loop len (String "[" (u ++ "]" ++ rem)) idx 0)
    with (restString_loop len (u ++ "]" ++ rem) (idx + 1) 1).
  rewrite restString_loop_inside by done.
  rewrite string_app_cons, string_app_nil_l.
  change (restString_loop len (String "]" rem) (idx + 1 + strlen u) 1)
    with (restString_loop len rem (idx + 1 + strlen u + 1) 0).
  f_equal. lia.
Qed.

(** X4. [restString] reads up to the next space that is outside brackets
    and leaves the cursor behind that space: a token without spaces and
    brackets is read whole, and so is a token that ends in a bracketed
    group, whatever spaces the group holds. *)
Theorem restString_reads_token pre a u s :
  no_separator a = true ->
  no_bracket u = true ->
  let plain := (pre ++ a ++ " " ++ s)%string in
  let group := (pre ++ (a ++ "[" ++ u ++ "]") ++ " " ++ s)%string in
  restString {| rest := plain; restIdx := strlen pre |}
    = (a, {| rest := plain; restIdx := strlen pre + strlen a + 1 |}) /\
  restString {| rest := group; restIdx := strlen pre |}
    = ((a ++ "[" ++ u ++ "]")%string,
       {| rest := group; restIdx := strlen pre + strlen a + strlen u + 3 |}).
Proof.
  intros Ha Hu plain group. unfold restString. cbn [rest restIdx]. split.
  - subst plain. rewrite substring_from_app, restString_loop_app by done.
    change (restString_loop _ (" " ++ s) _ 0) with (strlen pre + strlen a + 1).
    f_equal. replace (strlen pre + strlen a + 1 - 1) with (strlen pre + strlen a) by lia.
    apply substring_mid.
  - subst group. rewrite substring_from_app, !string_app_assoc.
    rewrite restString_loop_app by done.
    rewrite restString_loop_group by done.
    change (restString_loop _ (" " ++ s) ?i 0) with (i + 1).
    assert (strlen (a ++ "[" ++ u ++ "]") = strlen a + strlen u + 2) as Hlen.
    { rewrite !strlen_app. unfold strlen at 2 4. simpl. lia. }
    f_equal; [|f_equal; lia].
    replace (strlen pre + strlen a + strlen u + 2 + 1 - 1)
      with (strlen pre + strlen (a ++ "[" ++ u ++ "]")) by lia.
    pose proof (substring_mid pre (a ++ "[" ++ u ++ "]") (" " ++ s)) as H.
    by rewrite ?string_app_assoc in H.
Qed.

Lemma restString_reads_token_witness :
  let text := (SC.Task_CHAR ++ "3 chunk#sym[1 2 3] 7")%string in
  restString {| rest := text; restIdx := 3 |}
  = ("chunk#sym[1 2 3]"%string, {| rest := text; restIdx := 20 |}).
Proof.
  intros text.
  exact (proj2 (restString_reads_token (SC.Task_CHAR ++ "3 ") "chunk#sym" "1 2 3" "7"
                  eq_refl eq_refl)).
Defined.

(** X5. The last token of a payload is read whole and leaves the cursor
    one past the end; from the end on, every [restString] gives the empty
    string and every [restInt] gives [NaN], and the cursor stays one past
    the end. *)
Theorem restString_at_end pre a i :
  no_separator a = true ->
  strlen (pre ++ a) <= i ->
  let text := (pre ++ a)%string in
  let done := {| rest := text; restIdx := strlen text + 1 |} in
  restString {| rest := text; restIdx := strlen pre |} = (a, done) /\
  restString {| rest := text; restIdx := i |} = (EmptyString, done) /\
  restInt {| rest := text; restIdx := i |} = (NaN, done).
Proof.
  intros Ha Hi text done. subst done text.
  assert (restString {| rest := pre ++ a; restIdx := i |}
          = (EmptyString, {| rest := pre ++ a; restIdx := strlen (pre ++ a) + 1 |})) as Hend.
  { unfold restString. cbn [rest restIdx]. unfold substring_from.
    rewrite (substring_past_end _ i (strlen (pre ++ a))) by lia. simpl.
    replace (strlen (pre ++ a) + 1 - 1) with (strlen (pre ++ a)) by lia.
    by rewrite substring_past_end by lia. }
  split_and!; [|done|by unfold restInt; rewrite Hend].
  unfold restString. cbn [rest restIdx].
  rewrite substring_from_app, (restString_loop_token _ _ _ Ha).
  replace (strlen (pre ++ a) + 1 - 1) with (strlen pre + strlen a)
    by (rewrite strlen_app; lia).
  pose proof (substring_mid pre a EmptyString) as H. rewrite !string_app_nil in H.
  by rewrite H.
Qed.

Lemma restString_at_end_witness :
  let text := (SC.SignalWrapper_CHAR ++ "4 name")%string in
  restString {| rest := text; restIdx := 3 |} = ("name"%string, {| rest := text; restIdx := 8 |}) /\
  restInt {| rest := text; restIdx := 8 |} = (NaN, {| rest := text; restIdx := 8 |}).
Proof.
  intros text.
  destruct (restString_at_end (SC.SignalWrapper_CHAR ++ "4 ") "name" 8 eq_refl
              ltac:(vm_compute; discriminate)) as (H1 & _ & H3).
  exact (conj H1 H3).
Defined.

(** * More on allocation *)




Lemma parseQRL_alloc host w qrl :
  exists o, parseQRL host w qrl = (VFunction (length (heap w)), set_heap w (heap w ++ [o])).
Proof. unfold parseQRL, alloc. by eexists. Qed.

Lemma lookup_obj_new w ext (i : nat) x :
  (x = VObject (length (heap w) + i) \/ x = VFunction (length (heap w) + i)) ->
  (i < length ext)%nat ->
  lookup_obj w x = None /\ is_Some (lookup_obj (set_heap w (heap w ++ ext)) x).
Proof.
  intros Hx Hi.
  assert (heap w !! (length (heap w) + i)%nat = None) by (apply lookup_ge_None_2; lia).
  assert (is_Some ((heap w ++ ext) !! (length (heap w) + i)%nat)).
  { apply lookup_lt_is_Some_2. rewrite length_app. lia. }
  by destruct Hx as [-> | ->].
Qed.

(** X6. [allocate] leaves the objects that exist alone: it returns a
    primitive and has no effect, or it returns a reference to an object
    that it has just made, at an address past the old heap. *)
Theorem allocate_makes_new host w payload x w' :
  allocate host w payload = Ok (x, w') ->
  (w' = w /\ match x with VObject _ | VFunction _ => False | _ => True end) \/
  (exists ext, w' = set_heap w (heap w ++ ext) /\
     lookup_obj w x = None /\ is_Some (lookup_obj w' x)).
Proof.
  unfold allocate, new, alloc, componentQrl. intros H.
  destruct (parseQRL_alloc host w payload) as [q Hq].
  rewrite Hq in H. simpl in H.
  repeat case_match; try discriminate; simplify_eq.
  all: try (left; by split).
  all: try (destruct (BigInt_of_string host _); simpl in H; simplify_eq; left; by split).
  all: try (right; eexists [_]; split; [reflexivity|];
            apply (lookup_obj_new w [_] 0); [rewrite Nat.add_0_r; auto|simpl; lia]).
  - right. exists [q; OComponent (VFunction (length (heap w)))].
    assert (set_heap (set_heap w (heap w ++ [q]))
              ((heap w ++ [q]) ++ [OComponent (VFunction (length (heap w)))])
            = set_heap w (heap w ++ [q; OComponent (VFunction (length (heap w)))])) as ->
      by (unfold set_heap; simpl; by rewrite <- app_assoc).
    split; [done|]. apply (lookup_obj_new w _ 1); [|simpl; lia].
    right. f_equal. rewrite length_app. simpl. lia.
Qed.

Lemma allocate_makes_new_witness :
  let w := world_of [OFunction] in
  exists ext,
    allocate sample_host w (SC.Map_CHAR ++ "3")%string
      = Ok (VObject 1%nat, set_heap w (heap w ++ ext)) /\
    lookup_obj w (VObject 1%nat) = None.
Proof.
  intros w.
  destruct (allocate_makes_new sample_host w (SC.Map_CHAR ++ "3") (VObject 1%nat)
              (set_heap w (heap w ++ [OMap [] None])) eq_refl)
    as [[_ []]|(ext & Hw & Hold & _)].
  exists [OMap [] None]. split; [reflexivity|exact Hold].
Defined.

Ltac unfold_tags :=
  unfold SC.UNDEFINED_VALUE, SC.REFERENCE_VALUE, SC.URL_VALUE, SC.Date_VALUE,
    SC.Regex_VALUE, SC.String_VALUE, SC.VNode_VALUE, SC.NotFinite_VALUE,
    SC.BigInt_VALUE, SC.URLSearchParams_VALUE, SC.Error_VALUE, SC.QRL_VALUE,
    SC.Task_VALUE, SC.Resource_VALUE, SC.Component_VALUE, SC.DerivedSignal_VALUE,
    SC.Signal_VALUE, SC.SignalWrapper_VALUE, SC.Store_VALUE, SC.FormData_VALUE,
    SC.JSXNode_VALUE, SC.Set_VALUE, SC.Map_VALUE, SC.Promise_VALUE,
    SC.Uint8Array_VALUE, SC.PropsProxy_VALUE, SC.LAST_VALUE in *.

(** X7. [allocate] has no case for the tags that the [get] trap resolves
    itself (back reference, VNode, store), for the unused codes, or for
    text that starts with no tag at all: it throws
    ["unknown allocate type"] on them, and on the empty string. The
    resource tag throws ["Not implemented"]. *)
Theorem allocate_rejects host w payload :
  (charCodeAt payload 0 = None ->
     allocate host w payload = Throw "unknown allocate type: ") /\
  (forall c, charCodeAt payload 0 = Some c ->
     (c = SC.REFERENCE_VALUE \/ c = SC.VNode_VALUE \/ c = SC.Store_VALUE \/
      9 <= c <= 13 \/ c = 29 \/ SC.LAST_VALUE <= c ->
      allocate host w payload = Throw "unknown allocate type: ") /\
     (c = SC.Resource_VALUE ->
      allocate host w payload = Throw "Not implemented")).
Proof.
  split; [by intros H; unfold allocate; rewrite H|].
  intros c Hc. unfold allocate. rewrite Hc. unfold code_is. split.
  - intros H. repeat (case_bool_decide; [exfalso; unfold_tags; lia|]). done.
  - intros ->. repeat (case_bool_decide; [by exfalso|]). by rewrite bool_decide_eq_true_2.
Qed.



Section TextKinds.
Variable Number_toString : finite -> string.
Variable Function_toString : value -> string.
Variable btoa : string -> string.
Variable host : Host.
Variable NodeConstructor : bool.
Variable G : World -> value -> PropertyKey -> result (value * World).
Variable qrlToString : EncState -> value -> result (string * EncState).
Variable writeValue : EncState -> value -> Z -> result EncState.

Local Abbreviation writeObjectValue' :=
  (writeObjectValue Number_toString Function_toString btoa host NodeConstructor G
     qrlToString writeValue).


End TextKinds.


(** * Byte arrays *)




Section Bytes.
Variable Number_toString : finite -> string.
Variable Function_toString : value -> string.
Variable btoa : string -> string.
Variable host : Host.
Variable container : DomContainer.
Variable NodeConstructor : bool.
Variable G : World -> value -> PropertyKey -> result (value * World).
Variable qrlToString : EncState -> value -> result (string * EncState).
Variable writeValue : EncState -> value -> Z -> result EncState.

End Bytes.


(** * JSX node types *)

Lemma String_int_digits z :
  0 <= z -> String_int z <> EmptyString /\ all_digits (String_int z) = true.
Proof.
  intros Hz. unfold String_int. destruct z as [|p|p]; [done| |lia].
  simpl Z.to_int. unfold NilZero.string_of_int. rewrite string_of_uint_pos.
  split; [apply to_uint_nonempty|apply all_digits_uint].
Qed.

Lemma all_digits_first s :
  s <> EmptyString -> all_digits s = true ->
  exists ch, charCodeAt s 0 = Some ch /\ 48 <= ch <= 57.
Proof.
  destruct s as [|c s]; [done|]. intros _ [Hc _]%andb_prop.
  exists (Z.of_N (N_of_ascii c)). split; [done|].
  unfold digit_of in Hc.
  destruct ((48 <=? N_of_ascii c)%N && (N_of_ascii c <=? 57)%N) eqn:E; [|done].
  apply andb_prop in E as [H1%N.leb_le H2%N.leb_le]. lia.
Qed.

Lemma serializeJSXType_nonstring host st t :
  (forall s, t <> VString s) ->
  serializeJSXType host st t
  = if decide (t = Slot host) then (":slot"%string, st)
    else if decide (t = Fragment host) then (":fragment"%string, st)
    else let '(id, st') := enc_addRoot st t in (String_int id, st').
Proof. intros H. destruct t; try reflexivity. by destruct (H s). Qed.

(** X10. The type of a JSX node survives the round trip: the slot and the
    fragment components go through their reserved names, any other
    component goes through a root id that the root table resolves, and a
    tag name is written as it is. A tag name comes back as itself unless it
    is one of the two reserved names or starts with a digit. *)
Theorem jsx_type_roundtrip host st type :
  ctx_inv (e_ctx st) ->
  (forall s, type = VString s ->
     s <> ":slot"%string /\ s <> ":fragment"%string /\
     forall ch, charCodeAt s 0 = Some ch -> ~ (48 <= ch /\ ch <= 57)) ->
  deserializeJSXType host (root_container (e_ctx (serializeJSXType host st type).2))
    (serializeJSXType host st type).1 = type.
Proof.
  intros Hinv Hs.
  assert (type = Slot host \/ type = Fragment host \/
          (type <> Slot host /\ type <> Fragment host)) as Hcase.
  { destruct (decide (type = Slot host)); [auto|].
    destruct (decide (type = Fragment host)); auto. }
  assert (forall s, type = VString s ->
            deserializeJSXType host (root_container (e_ctx st)) s = type) as Hstr.
  { intros s ->. destruct (Hs s eq_refl) as (H1 & H2 & H3). unfold deserializeJSXType.
    apply String.eqb_neq in H1, H2. rewrite H1, H2.
    destruct (charCodeAt s 0) as [ch|] eqn:E; [|done].
    by rewrite decide_False by (by apply H3). }
  assert (type <> Slot host -> type <> Fragment host ->
          (forall s, type <> VString s) ->
          deserializeJSXType host (root_container (addRoot (e_ctx st) type).2)
            (String_int (addRoot (e_ctx st) type).1) = type) as Hid.
  { intros _ _ _. destruct (addRoot_root (e_ctx st) type Hinv) as (Hpos & Hroot & _).
    destruct (String_int_digits _ Hpos) as [Hne Hd].
    destruct (all_digits_first _ Hne Hd) as (ch & Hch & Hrange).
    unfold deserializeJSXType.
    assert ((String_int (addRoot (e_ctx st) type).1 =? ":slot")%string = false) as ->.
    { apply String.eqb_neq. intros E. rewrite E in Hch. vm_compute in Hch.
      injection Hch as <-. lia. }
    assert ((String_int (addRoot (e_ctx st) type).1 =? ":fragment")%string = false) as ->.
    { apply String.eqb_neq. intros E. rewrite E in Hch. vm_compute in Hch.
      injection Hch as <-. lia. }
    rewrite Hch, decide_True by lia. cbn [getObjectById root_container parseInt_value].
    rewrite parseInt_String_int. unfold Int. by rewrite decide_True, Hroot. }
  assert ((exists s, type = VString s) \/ forall s, type <> VString s) as [[s ->]|Hns'].
  { destruct type; eauto. }
  { by apply Hstr. }
  rewrite (serializeJSXType_nonstring _ _ _ Hns').
  destruct (decide (type = Slot host)) as [E|N1]; [by rewrite E|].
  destruct (decide (type = Fragment host)) as [E|N2].
  { unfold deserializeJSXType. simpl. congruence. }
  specialize (Hid N1 N2 Hns'). unfold enc_addRoot.
  destruct (addRoot (e_ctx st) type) as [id ctx']. exact Hid.
Qed.

Lemma jsx_type_roundtrip_witness :
  let st := initial_enc createSerializationContext empty_world in
  (serializeJSXType sample_host st (VFunction 5%nat)).1 = "0"%string /\
  deserializeJSXType sample_host
    (root_container (e_ctx (serializeJSXType sample_host st (VFunction 5%nat)).2)) "0"
  = VFunction 5%nat.
Proof.
  intros st. split; [reflexivity|].
  exact (jsx_type_roundtrip sample_host st (VFunction 5%nat) ctx_inv_empty
           ltac:(intros s; discriminate)).
Defined.
